(** * redispipe: the RESP request serializer and the pipelined connection

    A shallow embedding of

    - [redis/request_writer.go] (package [redis]): [AppendRequest],
      [appendInt], [appendUint], [appendHead], [appendBulkInt],
      [appendBulkUint], [ArgToString];
    - the connection of package [redisconn] that keeps futures in the shards
      and serializes in the writer (module [Conn]);
    - the connection of [redisconn/conn.go] that serializes at submission
      into a per-shard buffer (module [ConnBuf]), with its writer's swap and
      its drop of the futures (module [ConnBufLife]);
    - of the first connection also the writer's turn over the futures of a
      shard (module [Writer]), the reader (module [Reader]), [SendMany]
      (module [Submission]) and the options that [Connect] settles (module
      [Options]).

    Go values are modelled as follows.  A byte is a [Z] in [0, 256) and byte
    arithmetic is written with its wrap-around ([u8]); [[]byte] and [string]
    are [list Z]; [int64] and [uint64] are [Z] with the conversions [i64] and
    [u64]; slices indexed in place are lists updated with stdpp's
    [<[i:=x]>]; a Go channel is the list of the values it holds. *)

From Stdlib Require Import ZArith List Lia Bool String Ascii.
From stdpp Require Import base list.

Local Open Scope Z_scope.
Set Warnings "-register-all".

(** ** Package [redis] *)

Module Redis.

Definition u8 (z : Z) : Z := z mod 256.
Definition u32 (z : Z) : Z := z mod 2 ^ 32.
Definition u64 (z : Z) : Z := z mod 2 ^ 64.
Definition i64 (z : Z) : Z := (z + 2 ^ 63) mod 2 ^ 64 - 2 ^ 63.

(** The bytes of a string literal. *)
Definition str (s : string) : list Z :=
  map (fun a => Z.of_N (N_of_ascii a)) (list_ascii_of_string s).

Definition CRLF : list Z := [13; 10].

(** [strconv.FormatFloat] belongs to the Go library, and so does the
    conversion [float64(v)] of a [float32]: they are taken as parameters.  A
    float is represented by its IEEE-754 bit pattern. *)
Class Strconv := {
  float64_of_float32 : Z -> Z;
  FormatFloat : Z -> Z -> Z -> Z -> list Z
}.

(** The dynamic type of an argument ([interface{}]).  [AOther] stands for a
    value of any type the type switches do not list, such as [struct{}{}]. *)
Inductive Arg :=
| AString (v : list Z)
| ABytes (v : list Z)
| AInt (v : Z)
| AUint (v : Z)
| AInt64 (v : Z)
| AUint64 (v : Z)
| AInt32 (v : Z)
| AUint32 (v : Z)
| AInt8 (v : Z)
| AUint8 (v : Z)
| AInt16 (v : Z)
| AUint16 (v : Z)
| ABool (v : bool)
| AFloat32 (v : Z)
| AFloat64 (v : Z)
| ANil
| AOther (tag : nat).

Record Request := mkRequest { Cmd : list Z; Args : list Arg }.

Inductive ErrorKind :=
| ErrKindOpts | ErrKindRequest | ErrKindConnection
| ErrKindContext | ErrKindResponse | ErrKindIO.

Inductive ErrorCode :=
| ErrContextIsNil | ErrNoAddressProvided | ErrArgumentType | ErrBatchFormat
| ErrRequestCancelled | ErrRequestIsNotActive | ErrNotConnected
| ErrContextClosed | ErrDial | ErrConnSetup | ErrAuth | ErrPing | ErrIO.

(** A value stored in an error's context. *)
Inductive CtxVal :=
| CVArg (a : Arg)
| CVRequest (r : Request)
| CVRequests (rs : list Request)
| CVConn (addr : list Z).

(** Modelled from the spec: the type [redis.Error] with [NewErr], [With] and
    [Wrap] is declared outside the files at hand.  An error is tagged with a
    kind and a code, carries a context of key and value pairs and optionally
    wraps a cause, which is another such error or a foreign [error] (named
    here by its message). *)
Inductive Error :=
| MkError (kind : ErrorKind) (code : ErrorCode)
          (ctx : list (string * CtxVal)) (cause : Cause)
with Cause :=
| NoCause
| CauseError (e : Error)
| CauseForeign (msg : string).

Definition ErrKind (e : Error) : ErrorKind := let 'MkError k _ _ _ := e in k.
Definition ErrCode (e : Error) : ErrorCode := let 'MkError _ c _ _ := e in c.
Definition ErrCtx (e : Error) : list (string * CtxVal) :=
  let 'MkError _ _ x _ := e in x.
Definition ErrCause (e : Error) : Cause := let 'MkError _ _ _ w := e in w.

Definition NewErr (kind : ErrorKind) (code : ErrorCode) : Error :=
  MkError kind code [] NoCause.
Definition With (e : Error) (name : string) (val : CtxVal) : Error :=
  let 'MkError k c x w := e in MkError k c ((name, val) :: x) w.
Definition Wrap (e : Error) (w : Cause) : Error :=
  let 'MkError k c x _ := e in MkError k c x w.
Definition NewErrWrap (kind : ErrorKind) (code : ErrorCode) (w : Cause) : Error :=
  Wrap (NewErr kind code) w.

(** *** [appendUint]

    The loop writes the digits from the right end of [digits [20]byte]; [p]
    is the number of slots still free, so the recursion is on [p].  The last
    branch stands for the index [-1], which no [uint64] reaches
    (see [appendUint_loop_done]). *)
Fixpoint appendUint_loop (p : nat) (digits : list Z) (u : Z) : nat * list Z :=
  if 0 <? u then
    match p with
    | S p' =>
        let n := u / 10 in
        appendUint_loop p' (<[p' := u8 (u8 (u - n * 10) + 48)]> digits) n
    | O => (p, digits)
    end
  else (p, digits).

Definition appendUint (b : list Z) (u : Z) : list Z :=
  let '(p, digits) := appendUint_loop 20 (replicate 20 0) u in
  b ++ drop p digits.

Definition appendInt (b : list Z) (i : Z) : list Z :=
  if (0 <=? i) && (i <=? 9) then b ++ [u8 (u8 i + 48)]
  else if 0 <? i then appendUint b (u64 i)
  else appendUint (b ++ [45]) (u64 (i64 (- i))).

Definition appendHead (b : list Z) (t : Z) (i : Z) : list Z :=
  appendInt (b ++ [t]) i ++ CRLF.

(** The two stores that patch the length written as [0] or [00] in front. *)
Definition patchLen (b : list Z) (l : nat) (li : Z) : list Z :=
  if li <? 10 then <[(l - 3)%nat := u8 (li + 48)]> b
  else
    let d := li / 10 in
    <[(l - 3)%nat := u8 (u8 (li - u8 (d * 10)) + 48)]>
      (<[(l - 4)%nat := u8 (d + 48)]> b).

Definition appendBulkInt (b : list Z) (i : Z) : list Z :=
  let b1 :=
    if (-99999999 <=? i) && (i <=? 999999999) then b ++ [36; 48; 13; 10]
    else b ++ [36; 48; 48; 13; 10] in
  let l := length b1 in
  let b2 := appendInt b1 i in
  let li := u8 (Z.of_nat (length b2) - Z.of_nat l) in
  patchLen b2 l li.

Definition appendBulkUint (b : list Z) (i : Z) : list Z :=
  let b1 :=
    if i <=? 999999999 then b ++ [36; 48; 13; 10]
    else b ++ [36; 49; 48; 13; 10] in
  let l := length b1 in
  let b2 := appendUint b1 i in
  let li := u8 (Z.of_nat (length b2) - Z.of_nat l) in
  patchLen b2 l li.

(** *** [AppendRequest] *)

(** [for i, c := range []byte(req.Cmd) { if c == ' ' { space = i } }] *)
Fixpoint findSpace (cmd : list Z) (i : Z) (space : Z) : Z :=
  match cmd with
  | [] => space
  | c :: rest => findSpace rest (i + 1) (if c =? 32 then i else space)
  end.

Definition appendCmd (buf : list Z) (req : Request) : list Z :=
  let space := findSpace (Cmd req) 0 (-1) in
  if space =? -1 then
    let buf := appendHead buf 42 (Z.of_nat (length (Args req)) + 1) in
    let buf := appendHead buf 36 (Z.of_nat (length (Cmd req))) in
    (buf ++ Cmd req) ++ CRLF
  else
    let buf := appendHead buf 42 (Z.of_nat (length (Args req)) + 2) in
    let buf := appendHead buf 36 space in
    let buf := (buf ++ take (Z.to_nat space) (Cmd req)) ++ CRLF in
    let buf := appendHead buf 36 (Z.of_nat (length (Cmd req)) - space - 1) in
    (buf ++ drop (Z.to_nat (space + 1)) (Cmd req)) ++ CRLF.

Section Serializer.
Context `{!Strconv}.

(** One turn of the [switch] over the argument's type, without the closing
    [\r\n]; [None] is the [default] branch. *)
Definition appendArg (buf : list Z) (val : Arg) : option (list Z) :=
  match val with
  | AString v => Some (appendHead buf 36 (Z.of_nat (length v)) ++ v)
  | ABytes v => Some (appendHead buf 36 (Z.of_nat (length v)) ++ v)
  | AInt v => Some (appendBulkInt buf (i64 v))
  | AUint v => Some (appendBulkUint buf (u64 v))
  | AInt64 v => Some (appendBulkInt buf (i64 v))
  | AUint64 v => Some (appendBulkUint buf (u64 v))
  | AInt32 v => Some (appendBulkInt buf (i64 v))
  | AUint32 v => Some (appendBulkUint buf (u64 v))
  | AInt8 v => Some (appendBulkInt buf (i64 v))
  | AUint8 v => Some (appendBulkUint buf (u64 v))
  | AInt16 v => Some (appendBulkInt buf (i64 v))
  | AUint16 v => Some (appendBulkUint buf (u64 v))
  | ABool v => Some (buf ++ (if v then str "$1" ++ CRLF ++ str "1"
                             else str "$1" ++ CRLF ++ str "0"))
  | AFloat32 v =>
      let s := FormatFloat (float64_of_float32 v) 102 (-1) 32 in
      Some (appendHead buf 36 (Z.of_nat (length s)) ++ s)
  | AFloat64 v =>
      let s := FormatFloat v 102 (-1) 64 in
      Some (appendHead buf 36 (Z.of_nat (length s)) ++ s)
  | ANil => Some (buf ++ str "$0" ++ CRLF)
  | AOther _ => None
  end.

Fixpoint appendArgs (req : Request) (buf : list Z) (args : list Arg)
  : list Z * option Error :=
  match args with
  | [] => (buf, None)
  | val :: rest =>
      match appendArg buf val with
      | Some buf' => appendArgs req (buf' ++ CRLF) rest
      | None =>
          ([], Some (With (With (NewErr ErrKindRequest ErrArgumentType)
                             "val" (CVArg val))
                       "request" (CVRequest req)))
      end
  end.

Definition AppendRequest (buf : list Z) (req : Request) : list Z * option Error :=
  appendArgs req (appendCmd buf req) (Args req).

(** *** [ArgToString] *)
Definition ArgToString (arg : Arg) : list Z * bool :=
  match arg with
  | AString v => (v, true)
  | ABytes v => (v, true)
  | AInt v => (appendInt [] (i64 v), true)
  | AUint v => (appendUint [] (u64 v), true)
  | AInt64 v => (appendInt [] (i64 v), true)
  | AUint64 v => (appendUint [] (u64 v), true)
  | AInt32 v => (appendInt [] (i64 v), true)
  | AUint32 v => (appendUint [] (u64 v), true)
  | AInt8 v => (appendInt [] (i64 v), true)
  | AUint8 v => (appendUint [] (u64 v), true)
  | AInt16 v => (appendInt [] (i64 v), true)
  | AUint16 v => (appendUint [] (u64 v), true)
  | ABool v => (if v then str "1" else str "0", true)
  | AFloat32 v => (FormatFloat (float64_of_float32 v) 102 (-1) 32, true)
  | AFloat64 v => (FormatFloat v 102 (-1) 64, true)
  | ANil => ([], true)
  | AOther _ => ([], false)
  end.

End Serializer.

End Redis.

(** ** The wire format

    What a RESP reader makes of bytes, and what the text of a number is.
    These definitions state the claims; none of them is used by the
    serializer. *)

Module Resp.
Import Redis.

Definition isDigit (d : Z) : bool := (48 <=? d) && (d <=? 57).

(** The number a string of digits denotes. *)
Definition value (s : list Z) : Z := fold_left (fun a d => a * 10 + (d - 48)) s 0.

(** The canonical text of a natural number: digits only, no leading zero,
    ["0"] for zero. *)
Definition decimalForm (s : list Z) : bool :=
  match s with
  | [] => false
  | [d] => isDigit d
  | d :: ds => isDigit d && negb (d =? 48) && forallb isDigit ds
  end.

(** The canonical text of an integer: a minus sign only in front of a
    number that is not zero. *)
Definition integerForm (s : list Z) : bool :=
  match s with
  | d :: ds =>
      if d =? 45 then decimalForm ds && negb (value ds =? 0) else decimalForm s
  | [] => false
  end.

Definition number (s : list Z) : Z :=
  match s with
  | d :: ds => if d =? 45 then - value ds else value s
  | [] => 0
  end.

Fixpoint readDigits (bs : list Z) (acc : Z) : Z * list Z :=
  match bs with
  | d :: rest =>
      if isDigit d then readDigits rest (acc * 10 + (d - 48)) else (acc, bs)
  | [] => (acc, [])
  end.

Definition stripCRLF (bs : list Z) : option (list Z) :=
  match bs with
  | a :: b :: rest => if (a =? 13) && (b =? 10) then Some rest else None
  | _ => None
  end.

(** [<t><n>\r\n]: the count [n], which has a digit at least, and what
    follows. *)
Definition readHead (t : Z) (bs : list Z) : option (Z * list Z) :=
  match bs with
  | t' :: d :: rest =>
      if (t' =? t) && isDigit d then
        let '(n, rest') := readDigits (d :: rest) 0 in
        match stripCRLF rest' with
        | Some rest'' => Some (n, rest'')
        | None => None
        end
      else None
  | _ => None
  end.

(** [$<len>\r\n<bytes>\r\n]: the payload and what follows. *)
Definition readBulk (bs : list Z) : option (list Z * list Z) :=
  match readHead 36 bs with
  | Some (n, rest) =>
      if Z.of_nat (length rest) <? n then None
      else
        match stripCRLF (drop (Z.to_nat n) rest) with
        | Some rest' => Some (take (Z.to_nat n) rest, rest')
        | None => None
        end
  | None => None
  end.

Fixpoint readBulks (k : nat) (bs : list Z) : option (list (list Z) * list Z) :=
  match k with
  | O => Some ([], bs)
  | S k' =>
      match readBulk bs with
      | Some (p, rest) =>
          match readBulks k' rest with
          | Some (ps, rest') => Some (p :: ps, rest')
          | None => None
          end
      | None => None
      end
  end.

(** [*<n>\r\n] and [n] bulk strings, with nothing left over. *)
Definition readRequest (bs : list Z) : option (list (list Z)) :=
  match readHead 42 bs with
  | Some (n, rest) =>
      match readBulks (Z.to_nat n) rest with
      | Some (ps, []) => Some ps
      | _ => None
      end
  | None => None
  end.

(** The digits of [u], most significant first, in front of [acc]; nothing
    for 0. *)
Fixpoint digits (fuel : nat) (u : Z) (acc : list Z) : list Z :=
  match fuel with
  | O => acc
  | S fuel' =>
      if 0 <? u then digits fuel' (u / 10) ((48 + u mod 10) :: acc) else acc
  end.

Definition decimal (u : Z) : list Z := digits 20 u [].

(** The sign, then the digits; ["0"] for zero. *)
Definition textInt (i : Z) : list Z :=
  if i <? 0 then 45 :: decimal (- i)
  else if i =? 0 then [48]
  else decimal i.

(** [$<len>\r\n<bytes>\r\n] *)
Definition bulk (p : list Z) : list Z :=
  [36] ++ textInt (Z.of_nat (length p)) ++ CRLF ++ p ++ CRLF.

(** A value of the argument's Go type. *)
Definition wellTyped (a : Arg) : bool :=
  match a with
  | AInt v | AInt64 v => (- 2 ^ 63 <=? v) && (v <? 2 ^ 63)
  | AUint v | AUint64 v => (0 <=? v) && (v <? 2 ^ 64)
  | AInt32 v => (- 2 ^ 31 <=? v) && (v <? 2 ^ 31)
  | AUint32 v => (0 <=? v) && (v <? 2 ^ 32)
  | AInt16 v => (- 2 ^ 15 <=? v) && (v <? 2 ^ 15)
  | AUint16 v => (0 <=? v) && (v <? 2 ^ 16)
  | AInt8 v => (- 2 ^ 7 <=? v) && (v <? 2 ^ 7)
  | AUint8 v => (0 <=? v) && (v <? 2 ^ 8)
  | _ => true
  end.

(** A length that an [int] holds. *)
Definition fits (s : list Z) : bool := Z.of_nat (length s) <? 2 ^ 63.

(** An instance for the examples: none of them has a float argument. *)
Definition exampleStrconv : Strconv :=
  {| float64_of_float32 := fun v => v; FormatFloat := fun _ _ _ _ => [] |}.

Section Canonical.
Context `{!Strconv}.

(** The canonical text of an argument, in the spec's words: strings and
    byte strings unchanged, integers in decimal, booleans as ["1"] and
    ["0"], floats as [FormatFloat] prints them, nil as the empty string. *)
Definition canonical (a : Arg) (s : list Z) : Prop :=
  match a with
  | AString v | ABytes v => s = v
  | AInt v | AInt64 v | AInt32 v | AInt16 v | AInt8 v =>
      integerForm s = true /\ number s = v
  | AUint v | AUint64 v | AUint32 v | AUint16 v | AUint8 v =>
      decimalForm s = true /\ value s = v
  | ABool v => s = if v then [49] else [48]
  | AFloat32 v => s = FormatFloat (float64_of_float32 v) 102 (-1) 32
  | AFloat64 v => s = FormatFloat v 102 (-1) 64
  | ANil => s = []
  | AOther _ => False
  end.

(** An argument the serializer accepts, whose value is one of its type and
    whose text has a length that an [int] holds. *)
Definition wfArg (a : Arg) : bool :=
  match a with
  | AOther _ => false
  | _ => wellTyped a && fits (fst (ArgToString a))
  end.

Definition wfRequest (req : Request) : bool :=
  fits (Cmd req) && (Z.of_nat (length (Args req)) + 2 <? 2 ^ 63)
  && forallb wfArg (Args req).

(** The claim that the name is split at its first space, as the spec words
    it: whenever [pre] has no space, the reader finds [pre] and [post] in
    front of the arguments. *)
Definition splitsAtFirstSpace (req : Request) : Prop :=
  forall pre post,
    Cmd req = pre ++ 32 :: post ->
    Forall (fun c => c <> 32) pre ->
    readRequest (fst (AppendRequest [] req))
    = Some (pre :: post :: map (fun a => fst (ArgToString a)) (Args req)).

(** An unsigned argument whose value is zero. *)
Definition unsignedZero (a : Arg) : bool :=
  match a with
  | AUint v | AUint64 v | AUint32 v | AUint16 v | AUint8 v => v =? 0
  | _ => false
  end.

End Canonical.

End Resp.

(** ** The check of the arguments *)

Module RedisCheck.
Import Redis.

Definition supported (a : Arg) : bool :=
  match a with
  | AOther _ => false
  | _ => true
  end.

(** Modelled from the spec: [redis.CheckArgs] is declared outside the files
    at hand.  [doSend] calls it because the request is not packed at
    submission and "we need to be sure it could be packed"; a request is
    malformed when one of its arguments has a type the serializer does not
    list, and the error is the serializer's argument-type error. *)
Fixpoint checkArgs (req : Request) (args : list Arg) : option Error :=
  match args with
  | [] => None
  | val :: rest =>
      if supported val then checkArgs req rest
      else Some (With (With (NewErr ErrKindRequest ErrArgumentType)
                         "val" (CVArg val))
                   "request" (CVRequest req))
  end.

Definition CheckArgs (req : Request) : option Error := checkArgs req (Args req).

End RedisCheck.

(** ** Futures, shared by the two connections *)

Module Futures.
Import Redis.

(** A reply read off the wire. *)
Inductive Value :=
| VSimple (s : list Z)
| VBulk (b : list Z)
| VInt (i : Z)
| VArray (vs : list Value)
| VNil.

(** What [Resolve] receives as [interface{}]: a reply or a [*redis.Error]. *)
Inductive Result :=
| RValue (v : Value)
| RError (e : Error).

(** The implementations of the interface [Future] that the connection meets:
    its own [dumb], a producer's callback (named by [id]; [cancelled] is the
    answer of its [Cancelled] method during the submission) and the wrapper
    [transactionFuture{Future, l, off}]. *)
Inductive Future :=
| dumb
| Callback (id : nat) (cancelled : bool)
| transactionFuture (inner : Future) (l : Z) (off : Z).

(** A call [cb.Resolve(res, n)] on the producer's callback [id]. *)
Record Resolved := mkResolved { res_id : nat; res_res : Result; res_n : Z }.

(** What a connection does, in order.  [EvGo] is a task started with [Go]
    or [go] whose body makes the listed calls. *)
Inductive Event :=
| EvLock (shardn : Z)
| EvUnlock (shardn : Z)
| EvNotify (shardn : Z)
| EvStore (shardn : Z)
| EvResolve (r : Resolved)
| EvGo (body : list Resolved).

Fixpoint Cancelled (f : Future) : bool :=
  match f with
  | dumb => false
  | Callback _ c => c
  | transactionFuture inner _ _ => Cancelled inner
  end.

Fixpoint Resolve (f : Future) (res : Result) (n : Z) : list Resolved :=
  match f with
  | dumb => []
  | Callback id _ => [mkResolved id res n]
  | transactionFuture inner l off =>
      if n =? u64 l then Resolve inner res off else []
  end.

Definition resolve (f : Future) (res : Result) (n : Z) : list Event :=
  map EvResolve (Resolve f res n).

(** The calls of [Resolve] of a trace, in order, whether made in place or in
    a started task. *)
Fixpoint resolves (t : list Event) : list Resolved :=
  match t with
  | [] => []
  | EvResolve r :: t' => r :: resolves t'
  | EvGo body :: t' => body ++ resolves t'
  | _ :: t' => resolves t'
  end.

(** The channel sends of a trace: the steps that can park a producer which
    holds a shard. *)
Fixpoint notifies (t : list Event) : list Z :=
  match t with
  | [] => []
  | EvNotify s :: t' => s :: notifies t'
  | _ :: t' => notifies t'
  end.

(** [i, i+1, ...]: [len] numbers. *)
Fixpoint range (i : Z) (len : nat) : list Z :=
  match len with
  | O => []
  | S len' => i :: range (i + 1) len'
  end.

(** The indices [start+uint64(i)] of the futures of a submission. *)
Definition indices (start : Z) (len : nat) : list Z :=
  map (fun i => u64 (start + u64 i)) (range 0 len).

End Futures.

(** ** The connection that keeps futures in its shards *)

Module Conn.
Import Redis RedisCheck Futures.

Definition DoAsking : Z := 1.
Definition DoTransaction : Z := 2.

Definition connDisconnected : Z := 0.
Definition connConnecting : Z := 1.
Definition connConnected : Z := 2.
Definition connClosed : Z := 3.

(** [type future struct { Future; N uint64; start int64; req Request }] *)
Record future := mkFuture {
  fut_Future : Future;
  fut_N : Z;
  fut_start : Z;
  fut_req : Request
}.

(** The fields of [Connection] that submission, the writer and the drop of
    futures read or write.  [ctxErr] is what [conn.ctx.Err()] returns;
    [dirtyShard] is the content of the channel, oldest first. *)
Record Connection := mkConnection {
  state : Z;
  ctxErr : Cause;
  addr : list Z;
  shardid : Z;
  shard : list (list future);
  dirtyShard : list Z;
  dirtyClosed : bool;
  Concurrency : Z
}.

Definition set_state (st : Z) (c : Connection) : Connection :=
  mkConnection st (ctxErr c) (addr c) (shardid c) (shard c) (dirtyShard c)
    (dirtyClosed c) (Concurrency c).
Definition set_shardid (id : Z) (c : Connection) : Connection :=
  mkConnection (state c) (ctxErr c) (addr c) id (shard c) (dirtyShard c)
    (dirtyClosed c) (Concurrency c).
Definition set_shard (sh : list (list future)) (c : Connection) : Connection :=
  mkConnection (state c) (ctxErr c) (addr c) (shardid c) sh (dirtyShard c)
    (dirtyClosed c) (Concurrency c).
Definition set_dirtyShard (ch : list Z) (c : Connection) : Connection :=
  mkConnection (state c) (ctxErr c) (addr c) (shardid c) (shard c) ch
    (dirtyClosed c) (Concurrency c).
Definition set_dirtyClosed (b : bool) (c : Connection) : Connection :=
  mkConnection (state c) (ctxErr c) (addr c) (shardid c) (shard c)
    (dirtyShard c) b (Concurrency c).

(** A method of the connection: it reads and writes the connection and
    leaves a trace of what it did. *)
Definition M (A : Type) : Type := Connection -> A * Connection * list Event.

Definition ret {A} (a : A) : M A := fun c => (a, c, []).
Definition bind {A B} (m : M A) (k : A -> M B) : M B :=
  fun c =>
    let '(a, c1, t1) := m c in
    let '(b, c2, t2) := k a c1 in
    (b, c2, t1 ++ t2).
Definition emit (t : list Event) : M unit := fun c => (tt, c, t).
Definition get : M Connection := fun c => (c, c, []).
Definition modify (f : Connection -> Connection) : M unit :=
  fun c => (tt, f c, []).

Notation "x <- m ;; k" := (bind m (fun x => k))
  (at level 100, m at next level, right associativity).
Notation "m ;;; k" := (bind m (fun _ => k))
  (at level 100, right associativity).

(** [conn.err(kind, code)] *)
Definition err (c : Connection) (kind : ErrorKind) (code : ErrorCode) : Error :=
  With (NewErr kind code) "connection" (CVConn (addr c)).

(** [conn.shard[shardn].futures] *)
Definition shardFutures (c : Connection) (shardn : Z) : list future :=
  default [] (shard c !! Z.to_nat shardn).

(** [getShard]: [atomic.AddUint32(&conn.shardid, 1) % conn.opts.Concurrency] *)
Definition getShard : M Z :=
  fun c =>
    let id := u32 (shardid c + 1) in
    (id mod Concurrency c, set_shardid id c, []).

Definition Lock (shardn : Z) : M unit := emit [EvLock shardn].
Definition Unlock (shardn : Z) : M unit := emit [EvUnlock shardn].

(** [conn.dirtyShard <- shardn] *)
Definition notify (shardn : Z) : M unit :=
  fun c => (tt, set_dirtyShard (dirtyShard c ++ [shardn]) c, [EvNotify shardn]).

(** [shard.futures = futures] *)
Definition storeFutures (shardn : Z) (futures : list future) : M unit :=
  fun c => (tt, set_shard (<[Z.to_nat shardn := futures]> (shard c)) c,
            [EvStore shardn]).

(** The end of [doSend] and of [doSendBatch]: the notification of the writer
    when the shard was idle, then the store, then the deferred unlock. *)
Definition publish (shardn : Z) (futures : list future) : M (option Error) :=
  c <- get ;;
  (if (length (shardFutures c shardn) =? 0)%nat then notify shardn else ret tt) ;;;
  storeFutures shardn futures ;;;
  Unlock shardn ;;;
  ret None.

Definition doSend (req : Request) (cb : Future) (n : Z) (asking : bool) (now : Z)
  : M (option Error) :=
  c <- get ;;
  if Cancelled cb then ret (Some (err c ErrKindRequest ErrRequestCancelled))
  else
    match CheckArgs req with
    | Some e => ret (Some e)
    | None =>
        shardn <- getShard ;;
        Lock shardn ;;;
        if state c =? connClosed then
          Unlock shardn ;;;
          ret (Some (NewErrWrap ErrKindContext ErrContextClosed (ctxErr c)))
        else if state c =? connDisconnected then
          Unlock shardn ;;;
          ret (Some (NewErr ErrKindConnection ErrNotConnected))
        else
          let futures := shardFutures c shardn in
          let futures :=
            if asking
            then futures ++ [mkFuture dumb 0 0 (mkRequest (str "ASKING") [])]
            else futures in
          let futures := futures ++ [mkFuture cb n now req] in
          publish shardn futures
    end.

(** [SendAsk]; a nil [cb] is [None]. *)
Definition SendAsk (req : Request) (cb : option Future) (n : Z) (asking : bool)
  (now : Z) : M unit :=
  let cb := default dumb cb in
  e <- doSend req cb n asking now ;;
  match e with
  | Some e =>
      c <- get ;;
      emit (resolve cb (RError (With e "connection" (CVConn (addr c)))) n)
  | None => ret tt
  end.

Definition Send (req : Request) (cb : option Future) (n : Z) (now : Z) : M unit :=
  SendAsk req cb n false now.

(** [for i, req := range requests] appending
    [future{cb, start + uint64(i), now, req}]. *)
Fixpoint batchFutures (cb : Future) (start : Z) (now : Z) (i : Z)
  (requests : list Request) : list future :=
  match requests with
  | [] => []
  | req :: rest =>
      mkFuture cb (u64 (start + u64 i)) now req
      :: batchFutures cb start now (i + 1) rest
  end.

Definition doSendBatch (requests : list Request) (cb : Future) (start : Z)
  (flags : Z) (now : Z) : M (option Error) :=
  if (length requests =? 0)%nat then
    (if negb (Z.land flags DoTransaction =? 0)
     then emit (resolve cb (RValue (VArray [])) start)
     else ret tt) ;;;
    ret None
  else
    c <- get ;;
    if Cancelled cb then ret (Some (err c ErrKindRequest ErrRequestCancelled))
    else
      shardn <- getShard ;;
      Lock shardn ;;;
      if state c =? connClosed then
        Unlock shardn ;;;
        ret (Some (Wrap (err c ErrKindContext ErrContextClosed) (ctxErr c)))
      else if state c =? connDisconnected then
        Unlock shardn ;;;
        ret (Some (err c ErrKindConnection ErrNotConnected))
      else
        let futures := shardFutures c shardn in
        let futures :=
          if negb (Z.land flags DoAsking =? 0)
          then futures ++ [mkFuture dumb 0 0 (mkRequest (str "ASKING") [])]
          else futures in
        let futures :=
          if negb (Z.land flags DoTransaction =? 0)
          then futures ++ [mkFuture dumb 0 0 (mkRequest (str "MULTI") [])]
          else futures in
        let futures := futures ++ batchFutures cb start now 0 requests in
        let futures :=
          if negb (Z.land flags DoTransaction =? 0)
          then futures ++
               [mkFuture cb (u64 (start + u64 (Z.of_nat (length requests)))) now
                  (mkRequest (str "EXEC") [])]
          else futures in
        publish shardn futures.

(** The first loop of [SendBatchFlags]: the position of the first malformed
    request with [err] and [commonerr], if there is one. *)
Fixpoint checkBatch (c : Connection) (all : list Request) (i : Z)
  (requests : list Request) : option (Z * Error * Error) :=
  match requests with
  | [] => None
  | req :: rest =>
      match CheckArgs req with
      | Some e =>
          let e := With (With e "connection" (CVConn (addr c)))
                     "request" (CVRequest req) in
          let commonerr :=
            With (With (Wrap (err c ErrKindRequest ErrBatchFormat) (CauseError e))
                    "requests" (CVRequests all))
              "request" (CVRequest req) in
          Some (i, e, commonerr)
      | None => checkBatch c all (i + 1) rest
      end
  end.

(** The loop of [SendBatchFlags] that resolves every index of a failed
    batch; [e] is [err], which is read at [errpos] only. *)
Fixpoint resolveBatch (cb : Future) (start : Z) (errpos : Z) (e : option Error)
  (commonerr : Error) (i : Z) (len : nat) : list Event :=
  match len with
  | O => []
  | S len' =>
      (if negb (i =? errpos) then resolve cb (RError commonerr) (u64 (start + u64 i))
       else match e with
            | Some e => resolve cb (RError e) (u64 (start + u64 i))
            | None => []
            end)
      ++ resolveBatch cb start errpos e commonerr (i + 1) len'
  end.

Definition SendBatchFlags (requests : list Request) (cb : Future) (start : Z)
  (flags : Z) (now : Z) : M unit :=
  c <- get ;;
  r <- match checkBatch c requests 0 requests with
       | Some (errpos, e, commonerr) => ret (errpos, Some e, Some commonerr)
       | None =>
           commonerr <- doSendBatch requests cb start flags now ;;
           ret (-1, None, commonerr)
       end ;;
  let '(errpos, e, commonerr) := r in
  match commonerr with
  | Some commonerr =>
      emit (resolveBatch cb start errpos e commonerr 0 (length requests)) ;;;
      if negb (Z.land flags DoTransaction =? 0)
      then emit (resolve cb (RError commonerr)
                   (u64 (start + u64 (Z.of_nat (length requests)))))
      else ret tt
  | None => ret tt
  end.

Definition SendBatch (requests : list Request) (cb : Future) (start : Z)
  (now : Z) : M unit :=
  SendBatchFlags requests cb start 0 now.

Definition SendTransaction (reqs : list Request) (cb : Future) (off : Z)
  (now : Z) : M unit :=
  c <- get ;;
  if Cancelled cb
  then emit (resolve cb (RError (err c ErrKindRequest ErrRequestCancelled)) off)
  else SendBatchFlags reqs (transactionFuture cb (Z.of_nat (length reqs)) off)
         0 DoTransaction now.

(** Modelled from the spec: [conn.call] is declared outside the files at
    hand; the reader pops the head of the batch and invokes
    [resolve(value, index)] on it. *)
Definition call (fut : future) (res : Result) : list Event :=
  resolve (fut_Future fut) res (fut_N fut).

Definition lockShards : M unit :=
  fun c => (tt, c, map EvLock (map Z.of_nat (seq 0 (length (shard c))))).
Definition unlockShards : M unit :=
  fun c => (tt, c, map EvUnlock (map Z.of_nat (seq 0 (length (shard c))))).

(** [dropShardFutures]: the channel is drained, then every future of every
    shard is called with [err] and the shard's list is set to nil. *)
Definition dropShardFutures (e : Error) : M unit :=
  fun c =>
    (tt,
     set_shard (map (fun _ => []) (shard c)) (set_dirtyShard [] c),
     flat_map (fun futures => flat_map (fun fut => call fut (RError e)) futures)
       (shard c)).

Definition closeConnection (neterr : Error) (forever : bool) : M unit :=
  modify (set_state (if forever then connClosed else connDisconnected)) ;;;
  lockShards ;;;
  (if forever then modify (set_dirtyClosed true) else ret tt) ;;;
  dropShardFutures neterr ;;;
  unlockShards.

(** The three outcomes of a turn of the loop of [createConnection]: the
    state is stored as connecting; [dial] succeeds; [dial] fails with [e]. *)
Definition startConnecting : M unit := modify (set_state connConnecting).
Definition dialSucceeded : M unit := modify (set_state connConnected).
Definition dialFailed (e : Error) : M unit :=
  modify (set_state connDisconnected) ;;;
  lockShards ;;;
  dropShardFutures e ;;;
  unlockShards.

(** The writer's receive [shardn, ok = <-conn.dirtyShard]; with nothing to
    receive the writer stays parked. *)
Definition writerReceive : M (option Z) :=
  fun c =>
    match dirtyShard c with
    | [] => (None, c, [])
    | shardn :: rest => (Some shardn, set_dirtyShard rest c, [])
    end.

(** [futures, shard.futures = shard.futures, futures] under the shard's
    lock; [futures] is the writer's own list and the result is the list
    taken from the shard. *)
Definition writerExchange (shardn : Z) (futures : list future) : M (list future) :=
  fun c =>
    (shardFutures c shardn,
     set_shard (<[Z.to_nat shardn := futures]> (shard c)) c,
     [EvLock shardn; EvUnlock shardn]).

(** A swap by the writer: the receive, then the exchange. *)
Definition writerSwap (futures : list future) : M (option (list future)) :=
  r <- writerReceive ;;
  match r with
  | None => ret None
  | Some shardn =>
      taken <- writerExchange shardn futures ;;
      ret (Some taken)
  end.

(** The connection [Connect] builds, with [N] shards. *)
Definition newConnection (address : list Z) (cause : Cause) (N : nat)
  : Connection :=
  mkConnection connDisconnected cause address 0 (replicate N []) [] false
    (Z.of_nat N).

(** The operations that read or write the shards and the channel. *)
Inductive Op :=
| OpSendAsk (req : Request) (cb : option Future) (n : Z) (asking : bool) (now : Z)
| OpSendBatchFlags (requests : list Request) (cb : Future) (start : Z)
    (flags : Z) (now : Z)
| OpSendTransaction (reqs : list Request) (cb : Future) (off : Z) (now : Z)
| OpWriterSwap
| OpDropDial (e : Error)
| OpDisconnect (neterr : Error)
| OpConnecting
| OpConnected
| OpClose (closeErr : Error).

(** An operation is enabled as the code has it: the loop of
    [createConnection] runs while the state is disconnected, [reconnect]
    returns at once when the state is closed, the context is cancelled once
    and the writer's own list has length 0 at every swap (it is nil at the
    start, [futures[:0]] after a batch that emptied, and otherwise a list of
    the pool or a fresh one of length 0). *)
Definition enabled (o : Op) (c : Connection) : bool :=
  match o with
  | OpConnecting => state c =? connDisconnected
  | OpConnected | OpDropDial _ => state c =? connConnecting
  | OpDisconnect _ => negb (state c =? connClosed)
  | OpClose _ => negb (state c =? connClosed)
  | _ => true
  end.

Definition run (o : Op) : M unit :=
  match o with
  | OpSendAsk req cb n asking now => SendAsk req cb n asking now
  | OpSendBatchFlags requests cb start flags now =>
      SendBatchFlags requests cb start flags now
  | OpSendTransaction reqs cb off now => SendTransaction reqs cb off now
  | OpWriterSwap => _ <- writerSwap [] ;; ret tt
  | OpDropDial e => dialFailed e
  | OpDisconnect neterr => closeConnection neterr false
  | OpConnecting => startConnecting
  | OpConnected => dialSucceeded
  | OpClose closeErr => closeConnection closeErr true
  end.

Definition exec (o : Op) (c : Connection) : Connection := snd (fst (run o c)).
Definition trace (o : Op) (c : Connection) : list Event := snd (run o c).

Inductive reachable (c0 : Connection) : Connection -> Prop :=
| reachable_init : reachable c0 c0
| reachable_step c o :
    reachable c0 c -> enabled o c = true -> reachable c0 (exec o c).

(** The number of notifications for [shardn] pending on the channel. *)
Definition pending (c : Connection) (shardn : Z) : nat :=
  length (filter (fun s => s = shardn) (dirtyShard c)).

(** *** The session of one socket *)

Record oneconn := mkOneconn {
  control_closed : bool;
  one_err : option Error;
  erronce : bool
}.

Definition newOneconn : oneconn := mkOneconn false None false.

(** What [setErr] starts: [go conn.reconnect(one.err, one.c)]. *)
Inductive Spawn := GoReconnect (neterr : Cause).

(** [setErr]: the body runs under [one.erronce.Do]; [neterr] is a
    [*redis.Error] ([CauseError]) or a foreign error. *)
Definition setErr (neterr : Cause) (address : list Z) (one : oneconn)
  : oneconn * list Spawn :=
  if erronce one then (one, [])
  else
    let rerr :=
      match neterr with
      | CauseError e => e
      | _ => NewErrWrap ErrKindIO ErrIO neterr
      end in
    let e := With rerr "connection" (CVConn address) in
    (mkOneconn true (Some e) true, [GoReconnect (CauseError e)]).

(** Any number of calls of [setErr] on one session, in the order in which
    the latch admits them. *)
Fixpoint setErrs (neterrs : list Cause) (address : list Z) (one : oneconn)
  : oneconn * list Spawn :=
  match neterrs with
  | [] => (one, [])
  | neterr :: rest =>
      let '(one1, s1) := setErr neterr address one in
      let '(one2, s2) := setErrs rest address one1 in
      (one2, s1 ++ s2)
  end.

(** What [doSendBatch] appends to the shard's list. *)
Definition batchEntries (requests : list Request) (cb : Future) (start flags now : Z)
  : list future :=
  (if negb (Z.land flags DoAsking =? 0)
   then [mkFuture dumb 0 0 (mkRequest (str "ASKING") [])] else [])
  ++ (if negb (Z.land flags DoTransaction =? 0)
      then [mkFuture dumb 0 0 (mkRequest (str "MULTI") [])] else [])
  ++ batchFutures cb start now 0 requests
  ++ (if negb (Z.land flags DoTransaction =? 0)
      then [mkFuture cb (u64 (start + u64 (Z.of_nat (length requests)))) now
              (mkRequest (str "EXEC") [])]
      else []).

(** The reader's turns over a batch: the reply number [k] is handed to the
    future number [k]. *)
Fixpoint deliver (futures : list future) (replies : list Result) : list Event :=
  match futures, replies with
  | fut :: futures', res :: replies' => call fut res ++ deliver futures' replies'
  | _, _ => []
  end.

(** What [Connect] establishes: as many shards as [opts.Concurrency] says,
    and one at least. *)
Definition wellFormed (c : Connection) : Prop :=
  0 < Concurrency c /\ Concurrency c = Z.of_nat (length (shard c)).

(** A context-closed error that wraps the cause of the context. *)
Definition contextClosed (c : Connection) (e : Error) : Prop :=
  ErrKind e = ErrKindContext /\ ErrCode e = ErrContextClosed /\
  ErrCause e = ctxErr c.

(** The outcome the spec gives a submission on a closed connection: the
    producer [id] is resolved at every index of [idx], in order, with one
    context-closed error, and the submission neither sends on the channel
    nor touches the shards. *)
Definition failsClosed (c : Connection) (id : nat) (idx : list Z)
  (r : unit * Connection * list Event) : Prop :=
  let '(_, c', t) := r in
  shard c' = shard c /\ dirtyShard c' = dirtyShard c /\ notifies t = [] /\
  exists e, contextClosed c e /\
            resolves t = map (fun n => mkResolved id (RError e) n) idx.

(** The outcome the spec gives a transaction without requests: one call,
    with the empty array at [off], and nothing touched. *)
Definition resolvesEmpty (c : Connection) (id : nat) (off : Z)
  (r : unit * Connection * list Event) : Prop :=
  let '(_, c', t) := r in
  c' = c /\ t = [EvResolve (mkResolved id (RValue (VArray [])) off)].

(** The shard [shardn] has nothing queued. *)
Definition idle (c : Connection) (shardn : Z) : bool :=
  (length (shardFutures c shardn) =? 0)%nat.

(** The invariant of the shards and the channel, for [N] shards: the channel
    holds shard numbers only, and a notification for a shard exactly when
    its list is not empty. *)
Definition Inv (N : nat) (c : Connection) : Prop :=
  length (shard c) = N /\ Concurrency c = Z.of_nat N /\ (0 < N)%nat /\
  Forall (fun s => 0 <= s < Z.of_nat N) (dirtyShard c) /\
  forall s : nat, (s < N)%nat ->
    pending c (Z.of_nat s) = if idle c (Z.of_nat s) then 0%nat else 1%nat.



End Conn.

(** ** The address forms of [dial]

    The two connections parse the address with the same statements. *)

Module Dial.
Import Redis.

(** [s[i]]; [None] is the run-time panic "index out of range". *)
Definition index (s : list Z) (i : nat) : option Z := s !! i.

(** [s[lo:hi]]; [None] is the run-time panic "slice bounds out of range". *)
Definition slice (s : list Z) (lo hi : nat) : option (list Z) :=
  if (hi <=? length s)%nat && (lo <=? hi)%nat
  then Some (take (hi - lo) (drop lo s))
  else None.

(** The statements of [dial] from [network := "tcp"] to the last
    [address = address[6:]]: the network and the address handed to the
    dialer. *)
Definition dialTarget (address : list Z) : option (list Z * list Z) :=
  match index address 0 with
  | None => None
  | Some a0 =>
      if (a0 =? 46) || (a0 =? 47) then Some (str "unix", address)
      else
        match slice address 0 7 with
        | None => None
        | Some p7 =>
            if bool_decide (p7 = str "unix://")
            then Some (str "unix", drop 7 address)
            else
              match slice address 0 6 with
              | None => None
              | Some p6 =>
                  if bool_decide (p6 = str "tcp://")
                  then Some (str "tcp", drop 6 address)
                  else Some (str "tcp", address)
              end
        end
  end.

(** [Connect] refuses the empty address only. *)
Definition acceptedByConnect (address : list Z) : bool :=
  negb (length address =? 0)%nat.

End Dial.

(** ** The connection of [redisconn/conn.go]

    It serializes at submission: a shard holds the bytes to write next to
    the futures that wait for the replies. *)

Module ConnBuf.
Import Redis Futures.

Definition DoAsking : Z := 1.
Definition DoTransaction : Z := 2.

Definition connDisconnected : Z := 0.
Definition connConnecting : Z := 1.
Definition connConnected : Z := 2.
Definition connClosed : Z := 3.

(** [future{cb, n}] *)
Record future := mkFuture { fut_Future : Future; fut_N : Z }.

Record connShard := mkShard { buf : list Z; futures : list future }.

Record Connection := mkConnection {
  state : Z;
  ctxErr : Cause;
  addr : list Z;
  shardid : Z;
  shard : list connShard;
  dirtyShard : list Z;
  Concurrency : Z
}.

Definition set_shardid (id : Z) (c : Connection) : Connection :=
  mkConnection (state c) (ctxErr c) (addr c) id (shard c) (dirtyShard c)
    (Concurrency c).
Definition set_shard (sh : list connShard) (c : Connection) : Connection :=
  mkConnection (state c) (ctxErr c) (addr c) (shardid c) sh (dirtyShard c)
    (Concurrency c).
Definition set_dirtyShard (ch : list Z) (c : Connection) : Connection :=
  mkConnection (state c) (ctxErr c) (addr c) (shardid c) (shard c) ch
    (Concurrency c).

Definition M (A : Type) : Type := Connection -> A * Connection * list Event.

Definition ret {A} (a : A) : M A := fun c => (a, c, []).
Definition bind {A B} (m : M A) (k : A -> M B) : M B :=
  fun c =>
    let '(a, c1, t1) := m c in
    let '(b, c2, t2) := k a c1 in
    (b, c2, t1 ++ t2).
Definition emit (t : list Event) : M unit := fun c => (tt, c, t).
Definition get : M Connection := fun c => (c, c, []).

Notation "x <- m ;; k" := (bind m (fun x => k))
  (at level 100, m at next level, right associativity).
Notation "m ;;; k" := (bind m (fun _ => k))
  (at level 100, right associativity).

(** Modelled from the spec: the interface [Future] is declared outside the
    files at hand.  This connection asks [Active] where the other asks
    [Cancelled]; [dumb] is active. *)
Definition Active (f : Future) : bool := negb (Cancelled f).

(** Modelled from the spec: [redis.WrapFuture] is declared outside the files
    at hand; the wrapper keeps the wrapped future's own answer to [Active]
    and redefines [Resolve] to the closure, here
    [if n == l { cb.Resolve(res, off) }]. *)
Definition WrapFuture (cb : Future) (l : Z) (off : Z) : Future :=
  transactionFuture cb l off.

(** Modelled from the spec: [askingReq], [multiReq] and [execReq] are
    declared outside the files at hand; they are the three marker requests
    in serialized form. *)
Definition askingReq : list Z := appendCmd [] (mkRequest (str "ASKING") []).
Definition multiReq : list Z := appendCmd [] (mkRequest (str "MULTI") []).
Definition execReq : list Z := appendCmd [] (mkRequest (str "EXEC") []).

Definition err (c : Connection) (kind : ErrorKind) (code : ErrorCode) : Error :=
  With (NewErr kind code) "connection" (CVConn (addr c)).

Definition getShard : M Z :=
  fun c =>
    let id := u32 (shardid c + 1) in
    (id mod Concurrency c, set_shardid id c, []).

Definition theShard (c : Connection) (shardn : Z) : connShard :=
  default (mkShard [] []) (shard c !! Z.to_nat shardn).

Definition Lock (shardn : Z) : M unit := emit [EvLock shardn].
Definition Unlock (shardn : Z) : M unit := emit [EvUnlock shardn].

Definition notify (shardn : Z) : M unit :=
  fun c => (tt, set_dirtyShard (dirtyShard c ++ [shardn]) c, [EvNotify shardn]).

(** [shard.buf = buf; shard.futures = futures] *)
Definition storeShard (shardn : Z) (b : list Z) (futs : list future) : M unit :=
  fun c => (tt, set_shard (<[Z.to_nat shardn := mkShard b futs]> (shard c)) c,
            [EvStore shardn]).

Definition publish (shardn : Z) (b : list Z) (futs : list future) : M unit :=
  c <- get ;;
  (if (length (buf (theShard c shardn)) =? 0)%nat then notify shardn else ret tt) ;;;
  storeShard shardn b futs ;;;
  Unlock shardn.

Section Submission.
Context `{!Strconv}.

(** Modelled from the spec: package [resp] is outside the files at hand; its
    [AppendRequest] is taken to be the serializer of package [redis]. *)
Definition resp_AppendRequest (b : list Z) (req : Request)
  : list Z * option Error :=
  AppendRequest b req.

Definition doSend (req : Request) (cb : Future) (n : Z) (asking : bool)
  : M (option Error) :=
  c <- get ;;
  if negb (Active cb) then ret (Some (err c ErrKindRequest ErrRequestIsNotActive))
  else
    shardn <- getShard ;;
    Lock shardn ;;;
    if state c =? connClosed then
      Unlock shardn ;;;
      ret (Some (NewErrWrap ErrKindContext ErrContextClosed (ctxErr c)))
    else if state c =? connDisconnected then
      Unlock shardn ;;;
      ret (Some (NewErr ErrKindConnection ErrNotConnected))
    else
      let b := buf (theShard c shardn) in
      let futs := futures (theShard c shardn) in
      let '(b, futs) :=
        if asking then (b ++ askingReq, futs ++ [mkFuture dumb 0])
        else (b, futs) in
      match resp_AppendRequest b req with
      | (_, Some e) => Unlock shardn ;;; ret (Some e)
      | (b, None) =>
          let futs := futs ++ [mkFuture cb n] in
          publish shardn b futs ;;;
          ret None
      end.

Definition SendAsk (req : Request) (cb : option Future) (n : Z) (asking : bool)
  : M unit :=
  let cb := default dumb cb in
  e <- doSend req cb n asking ;;
  match e with
  | Some e =>
      c <- get ;;
      emit [EvGo (Resolve cb (RError (With e "connection" (CVConn (addr c)))) n)]
  | None => ret tt
  end.

Definition Send (req : Request) (cb : option Future) (n : Z) : M unit :=
  SendAsk req cb n false.

(** [for i := 0; i < n; i++ { cb.Resolve(err, start+uint64(i)) }] *)
Fixpoint resolveAll (cb : Future) (start : Z) (e : Error) (i : Z) (n : nat)
  : list Resolved :=
  match n with
  | O => []
  | S n' =>
      Resolve cb (RError e) (u64 (start + u64 i))
      ++ resolveAll cb start e (i + 1) n'
  end.

(** The loop of the task that [SendBatchFlags] starts when request [i] does
    not serialize. *)
Fixpoint resolveMalformed (cb : Future) (start : Z) (i : Z) (e common_err : Error)
  (j : Z) (n : nat) : list Resolved :=
  match n with
  | O => []
  | S n' =>
      (if j =? i then Resolve cb (RError e) (u64 (start + u64 i))
       else Resolve cb (RError common_err) (u64 (start + u64 j)))
      ++ resolveMalformed cb start i e common_err (j + 1) n'
  end.

(** The loop of [SendBatchFlags] over the requests: either the bytes and
    futures to store, or the position and error of the request that does not
    serialize. *)
Fixpoint appendBatch (cb : Future) (start : Z) (i : Z) (requests : list Request)
  (b : list Z) (futs : list future)
  : (list Z * list future) + (Z * Request * Error) :=
  match requests with
  | [] => inl (b, futs)
  | req :: rest =>
      match resp_AppendRequest b req with
      | (_, Some e) => inr (i, req, e)
      | (b, None) =>
          appendBatch cb start (i + 1) rest b
            (futs ++ [mkFuture cb (u64 (start + u64 i))])
      end
  end.

Definition SendBatchFlags (requests : list Request) (cb : Future) (start : Z)
  (flags : Z) : M unit :=
  if (length requests =? 0)%nat then ret tt
  else
    let n := length requests in
    c <- get ;;
    if negb (Active cb) then
      emit (map EvResolve
              (resolveAll cb start (err c ErrKindRequest ErrRequestIsNotActive) 0 n))
    else
      shardn <- getShard ;;
      Lock shardn ;;;
      if state c =? connClosed then Unlock shardn
      else if state c =? connDisconnected then Unlock shardn
      else
        let b := buf (theShard c shardn) in
        let futs := futures (theShard c shardn) in
        let '(b, futs) :=
          if negb (Z.land flags DoAsking =? 0)
          then (b ++ askingReq, futs ++ [mkFuture dumb 0])
          else (b, futs) in
        let '(b, futs) :=
          if negb (Z.land flags DoTransaction =? 0)
          then (b ++ multiReq, futs ++ [mkFuture dumb 0])
          else (b, futs) in
        match appendBatch cb start 0 requests b futs with
        | inr (i, req, e) =>
            let e := With (With e "connection" (CVConn (addr c)))
                       "request" (CVRequest req) in
            let common_err :=
              With (With (Wrap (err c ErrKindRequest ErrBatchFormat) (CauseError e))
                      "requests" (CVRequests requests))
                "request" (CVRequest req) in
            emit [EvGo (resolveMalformed cb start i e common_err 0 n)] ;;;
            Unlock shardn
        | inl (b, futs) =>
            let '(b, futs) :=
              if negb (Z.land flags DoTransaction =? 0)
              then (b ++ execReq,
                    futs ++ [mkFuture cb (u64 (start + u64 (Z.of_nat n)))])
              else (b, futs) in
            publish shardn b futs
        end.

Definition SendBatch (requests : list Request) (cb : Future) (start : Z) : M unit :=
  SendBatchFlags requests cb start 0.

Definition SendTransaction (reqs : list Request) (cb : Future) (off : Z) : M unit :=
  c <- get ;;
  if negb (Active cb)
  then emit (map EvResolve
               (Resolve cb (RError (err c ErrKindRequest ErrRequestIsNotActive)) off))
  else
    let l := u64 (Z.of_nat (length reqs)) in
    SendBatchFlags reqs (WrapFuture cb l off) 0 DoTransaction.

End Submission.

(** Modelled from the spec: [future.call] is declared outside the files at
    hand; the reader invokes [resolve(value, index)]. *)
Definition call (fut : future) (res : Result) : list Event :=
  resolve (fut_Future fut) res (fut_N fut).

(** *** The session of one socket *)

Record oneconn := mkOneconn {
  control_closed : bool;
  one_err : option Error;
  erronce : bool
}.

Definition newOneconn : oneconn := mkOneconn false None false.

(** What [setErr] starts: [go conn.reconnect(neterr, one)]. *)
Inductive Spawn := GoReconnect (neterr : Cause).

(** [setErr]: the latch guards the close of [control] and the store of
    [one.err]; the [go] statement follows the call of [Do]. *)
Definition setErr (neterr : Cause) (address : list Z) (one : oneconn)
  : oneconn * list Spawn :=
  let one' :=
    if erronce one then one
    else
      let rerr :=
        match neterr with
        | CauseError e => e
        | _ => NewErrWrap ErrKindIO ErrIO neterr
        end in
      mkOneconn true (Some (With rerr "connection" (CVConn address))) true in
  (one', [GoReconnect neterr]).

Fixpoint setErrs (neterrs : list Cause) (address : list Z) (one : oneconn)
  : oneconn * list Spawn :=
  match neterrs with
  | [] => (one, [])
  | neterr :: rest =>
      let '(one1, s1) := setErr neterr address one in
      let '(one2, s2) := setErrs rest address one1 in
      (one2, s1 ++ s2)
  end.

Fixpoint deliver (futs : list future) (replies : list Result) : list Event :=
  match futs, replies with
  | fut :: futs', res :: replies' => call fut res ++ deliver futs' replies'
  | _, _ => []
  end.

Definition wellFormed (c : Connection) : Prop :=
  0 < Concurrency c /\ Concurrency c = Z.of_nat (length (shard c)).

End ConnBuf.

(** ** Examples *)

Module Examples.
Import Redis Futures.

Definition getA : Request := mkRequest (str "GET") [AString (str "a")].

Definition canceled : Cause := CauseForeign "context canceled".

(** A connection with two shards after [Connect]. *)
Definition fresh : Conn.Connection := Conn.newConnection (str "h:6379") canceled 2.

(** It connects, and a request is sent. *)
Definition busy : Conn.Connection :=
  Conn.exec (Conn.OpSendAsk getA (Some (Callback 7 false)) 3 false 0)
    (Conn.exec Conn.OpConnected (Conn.exec Conn.OpConnecting fresh)).

(** The context is cancelled. *)
Definition closed : Conn.Connection :=
  Conn.exec
    (Conn.OpClose (Wrap (Conn.err busy ErrKindContext ErrContextClosed) canceled))
    busy.

Definition connected : Conn.Connection :=
  Conn.exec Conn.OpConnected (Conn.exec Conn.OpConnecting fresh).

(** The connection of [redisconn/conn.go], connected, with one shard. *)
Definition connectedBuf : ConnBuf.Connection :=
  ConnBuf.mkConnection ConnBuf.connConnected canceled (str "h:6379") 0
    [ConnBuf.mkShard [] []] [] 1.

End Examples.

(** ** Streams of requests

    What a reader makes of several requests written one after the other,
    and the bulk strings a request is made of. *)

Module Stream.
Import Redis Resp.




Section Words.
Context `{!Strconv}.


End Words.

End Stream.

(** ** The writer's turn over the futures of a shard *)

Module Writer.
Import Redis Futures Conn.

Section Pack.
Context `{!Strconv}.






End Pack.

(** Every request queued in a shard passed [CheckArgs]. *)
Definition checked (c : Connection) : Prop :=
  Forall (Forall (fun fut => RedisCheck.CheckArgs (fut_req fut) = None)) (shard c).

End Writer.

(** ** The options that [Connect] settles *)

Module Options.
Import Redis.

(** [time.Duration] counts nanoseconds in an [int64]. *)
Definition microsecond : Z := 1000.
Definition second : Z := 1000000000.

Definition defaultIOTimeout : Z := 1 * second.
Definition defaultWritePause : Z := 10 * microsecond.

(** The fields of [Opts] that are numbers. *)
Record Opts := mkOpts {
  IOTimeout : Z;
  DialTimeout : Z;
  ReconnectPause : Z;
  TCPKeepAlive : Z;
  Concurrency : Z;
  WritePause : Z
}.

(** Values of the Go types of the fields. *)
Definition wellTyped (opts : Opts) : Prop :=
  - 2 ^ 63 <= IOTimeout opts < 2 ^ 63 /\
  - 2 ^ 63 <= DialTimeout opts < 2 ^ 63 /\
  - 2 ^ 63 <= ReconnectPause opts < 2 ^ 63 /\
  - 2 ^ 63 <= TCPKeepAlive opts < 2 ^ 63 /\
  0 <= Concurrency opts < 2 ^ 32 /\
  - 2 ^ 63 <= WritePause opts < 2 ^ 63.

(** The statements of [Connect] from [maxprocs := ...] to the default of
    [WritePause]: [conn.opts] after them.  [maxprocs] is
    [uint32(runtime.GOMAXPROCS(-1))]; the product [maxprocs*128] is taken in
    [uint32] and [DialTimeout * 2] in [int64]; the division by 3 truncates. *)
Definition settle (maxprocs : Z) (opts : Opts) : Opts :=
  let concurrency :=
    if (Concurrency opts =? 0) || (u32 (maxprocs * 128) <? Concurrency opts)
    then maxprocs else Concurrency opts in
  let iotimeout :=
    if IOTimeout opts =? 0 then defaultIOTimeout
    else if IOTimeout opts <? 0 then 0
    else IOTimeout opts in
  let dialtimeout :=
    if (DialTimeout opts <=? 0) || (iotimeout <? DialTimeout opts)
    then iotimeout else DialTimeout opts in
  let reconnectpause :=
    if ReconnectPause opts =? 0 then i64 (dialtimeout * 2)
    else ReconnectPause opts in
  let keepalive :=
    if TCPKeepAlive opts =? 0 then Z.quot iotimeout 3 else TCPKeepAlive opts in
  let keepalive := if keepalive <? 0 then 0 else keepalive in
  let writepause :=
    if WritePause opts =? 0 then defaultWritePause else WritePause opts in
  mkOpts iotimeout dialtimeout reconnectpause keepalive concurrency writepause.

(** [dial]: the [Timeout] of the dialer. *)
Definition dialerTimeout (opts : Opts) : Z :=
  let timeout := DialTimeout opts in
  if (timeout <=? 0) || (5 * second <? timeout) then 5 * second else timeout.

(** [control]: the period of the ticker. *)
Definition tickerPeriod (opts : Opts) : Z :=
  let timeout := Z.quot (IOTimeout opts) 3 in
  if timeout <=? 0 then second else timeout.

End Options.

(** ** The reader of a session *)

Module Reader.
Import Redis Futures Conn.

(** How the loop of [reader] ends: a hard error was read; [one.futures] was
    closed and is drained; the responses at hand are used up, and the reader
    waits in [ReadResponse]; or [futures[0]] met an empty batch and the
    goroutine panics. *)
Inductive ReaderEnd :=
| EndHard (rerr : Error)
| EndClosed
| EndStarved
| EndPanic.

(** The loops after the main loop run when the main loop was left by
    [break]. *)
Definition left (e : ReaderEnd) : bool :=
  match e with
  | EndHard _ | EndClosed => true
  | EndStarved | EndPanic => false
  end.

(** [res = rerr.With("connection", conn)] for an error that is not hard. *)
Definition soften (address : list Z) (res : Result) : Result :=
  match res with
  | RError rerr => RError (With rerr "connection" (CVConn address))
  | RValue _ => res
  end.

(** What [conn.call(fut, one.err)] hands over: the error of the session, or
    the nil interface while none is stored. *)
Definition errResult (one : oneconn) : Result :=
  match one_err one with
  | Some e => RError e
  | None => RValue VNil
  end.

(** [for _, fut := range futures { conn.call(fut, res) }] *)
Definition callAll (res : Result) (futures : list future) : list Event :=
  flat_map (fun fut => call fut res) futures.

Section Loop.

(** Modelled from the spec: [redis.HardError] is declared outside the files
    at hand; it tells the errors that are fatal for the connection from the
    errors that answer one request. *)
Variable HardError : Error -> bool.

(** [redis.AsRedisError(res)] followed by [redis.HardError(rerr)]. *)
Definition hard (res : Result) : option Error :=
  match res with
  | RError rerr => if HardError rerr then Some rerr else None
  | RValue _ => None
  end.

(** The main loop of [reader].  [responses] is what [ReadResponse] returns,
    call after call; [futures] is the rest of the batch at hand and
    [batches] what [one.futures] still delivers before it is closed, the
    writer having returned.  The result is the calls made, the way the loop
    ended, and what is left of [futures] and of the channel. *)
Fixpoint readerLoop (address : list Z) (responses : list Result)
  (futures : list future) (batches : list (list future))
  : list Event * ReaderEnd * list future * list (list future) :=
  match responses with
  | [] => ([], EndStarved, futures, batches)
  | res :: responses' =>
      match hard res with
      | Some rerr => ([], EndHard rerr, futures, batches)
      | None =>
          let res := soften address res in
          let '(received, batches') :=
            match futures with
            | [] =>
                match batches with
                | [] => (None, [])
                | packetfutures :: rest => (Some packetfutures, rest)
                end
            | _ => (Some futures, batches)
            end in
          match received with
          | None => ([], EndClosed, [], [])
          | Some [] => ([], EndPanic, [], batches')
          | Some (fut :: futures') =>
              let '(t, e, f, b) := readerLoop address responses' futures' batches' in
              (call fut res ++ t, e, f, b)
          end
      end
  end.

(** [reader]: the main loop, [setErr] at a hard error, then the two loops
    that call what is left with [one.err]. *)
Definition reader (address : list Z) (one : oneconn) (responses : list Result)
  (batches : list (list future)) : list Event * oneconn * list Spawn * ReaderEnd :=
  let '(t, e, futures, rest) := readerLoop address responses [] batches in
  let '(one', spawned) :=
    match e with
    | EndHard rerr => setErr (CauseError rerr) address one
    | _ => (one, [])
    end in
  if left e then
    (t ++ callAll (errResult one') futures
       ++ flat_map (callAll (errResult one')) rest,
     one', spawned, e)
  else (t, one', spawned, e).

End Loop.

End Reader.

(** ** The writer and the drop of [redisconn/conn.go] *)

Module ConnBufLife.
Import Redis Futures ConnBuf.

Definition set_state (st : Z) (c : Connection) : Connection :=
  mkConnection st (ctxErr c) (addr c) (shardid c) (shard c) (dirtyShard c)
    (Concurrency c).

Definition modify (f : Connection -> Connection) : M unit :=
  fun c => (tt, f c, []).

Definition lockShards : M unit :=
  fun c => (tt, c, map EvLock (map Z.of_nat (seq 0 (length (shard c))))).
Definition unlockShards : M unit :=
  fun c => (tt, c, map EvUnlock (map Z.of_nat (seq 0 (length (shard c))))).

(** [dropShardFutures]: the channel is drained, every future of every shard
    is called with [err], and [buf] and [futures] are cut to length 0. *)
Definition dropShardFutures (e : Error) : M unit :=
  fun c =>
    (tt,
     set_shard (map (fun _ => mkShard [] []) (shard c)) (set_dirtyShard [] c),
     flat_map (fun sh => flat_map (fun fut => call fut (RError e)) (futures sh))
       (shard c)).

(** [closeConnection]: this connection does not close the channel. *)
Definition closeConnection (neterr : Error) (forever : bool) : M unit :=
  modify (set_state (if forever then connClosed else connDisconnected)) ;;;
  lockShards ;;;
  dropShardFutures neterr ;;;
  unlockShards.

Definition startConnecting : M unit := modify (set_state connConnecting).
Definition dialSucceeded : M unit := modify (set_state connConnected).
Definition dialFailed (e : Error) : M unit :=
  modify (set_state connDisconnected) ;;;
  lockShards ;;;
  dropShardFutures e ;;;
  unlockShards.

(** The writer's receive [shardn = <-conn.dirtyShard]; with nothing to
    receive the writer stays in its [select]. *)
Definition writerReceive : M (option Z) :=
  fun c =>
    match dirtyShard c with
    | [] => (None, c, [])
    | shardn :: rest => (Some shardn, set_dirtyShard rest c, [])
    end.

(** [packet, shard.buf = shard.buf, packet] and
    [futures, shard.futures = shard.futures, futures] under the shard's
    lock.  What the writer gives has length 0 at every swap: [packet] is
    nil, [packet[0:0]] or a packet that was found empty, and [futures] is
    nil, fresh with length 0 or a list that was found empty. *)
Definition writerExchange (shardn : Z) : M (list Z * list future) :=
  fun c =>
    ((buf (theShard c shardn), futures (theShard c shardn)),
     set_shard (<[Z.to_nat shardn := mkShard [] []]> (shard c)) c,
     [EvLock shardn; EvUnlock shardn]).

(** What the writer holds after a swap: nothing, as it waits; nothing, and
    it goes on to the next turn; a packet with its futures, which it hands
    to the reader and writes; or the panic
    ["len(packet) == 0 && len(futures) != 0"]. *)
Inductive Taken :=
| Parked
| Nothing
| Batch (packet : list Z) (futs : list future)
| Panics.

Definition writerTake : M Taken :=
  r <- writerReceive ;;
  match r with
  | None => ret Parked
  | Some shardn =>
      taken <- writerExchange shardn ;;
      let '(packet, futs) := taken in
      if (length packet =? 0)%nat then
        if negb (length futs =? 0)%nat then ret Panics else ret Nothing
      else ret (Batch packet futs)
  end.

(** The connection [Connect] builds, with [N] shards. *)
Definition newConnection (address : list Z) (cause : Cause) (N : nat)
  : Connection :=
  mkConnection connDisconnected cause address 0 (replicate N (mkShard [] [])) []
    (Z.of_nat N).

Section Machine.
Context `{!Strconv}.

Inductive Op :=
| OpSendAsk (req : Request) (cb : option Future) (n : Z) (asking : bool)
| OpSendBatchFlags (requests : list Request) (cb : Future) (start : Z) (flags : Z)
| OpSendTransaction (reqs : list Request) (cb : Future) (off : Z)
| OpWriterTake
| OpDropDial (e : Error)
| OpDisconnect (neterr : Error)
| OpConnecting
| OpConnected
| OpClose (closeErr : Error).

(** As on the other connection: the loop of [createConnection] runs while
    the state is disconnected, and [reconnect] returns at once when the
    state is closed. *)
Definition enabled (o : Op) (c : Connection) : bool :=
  match o with
  | OpConnecting => state c =? connDisconnected
  | OpConnected | OpDropDial _ => state c =? connConnecting
  | OpDisconnect _ => negb (state c =? connClosed)
  | OpClose _ => negb (state c =? connClosed)
  | _ => true
  end.

Definition run (o : Op) : M unit :=
  match o with
  | OpSendAsk req cb n asking => SendAsk req cb n asking
  | OpSendBatchFlags requests cb start flags => SendBatchFlags requests cb start flags
  | OpSendTransaction reqs cb off => SendTransaction reqs cb off
  | OpWriterTake => _ <- writerTake ;; ret tt
  | OpDropDial e => dialFailed e
  | OpDisconnect neterr => closeConnection neterr false
  | OpConnecting => startConnecting
  | OpConnected => dialSucceeded
  | OpClose closeErr => closeConnection closeErr true
  end.

Definition exec (o : Op) (c : Connection) : Connection := snd (fst (run o c)).

Inductive reachable (c0 : Connection) : Connection -> Prop :=
| reachable_init : reachable c0 c0
| reachable_step c o :
    reachable c0 c -> enabled o c = true -> reachable c0 (exec o c).

End Machine.

(** A shard holds futures only together with bytes to write. *)
Definition coupled (c : Connection) : Prop :=
  Forall (fun sh => buf sh = [] -> futures sh = []) (shard c).

End ConnBufLife.

(** ** Submissions: [SendMany], and what a refusal looks like *)

Module Submission.
Import Redis RedisCheck Futures Conn.

(** [SendMany]: the loop
    [for i := 0; i < len(requests); i += 16] that hands
    [requests[i:j]] to [SendBatch] with [start+uint64(i)].  [steps] bounds
    the number of turns; [now i] is what [nownano] returns in the turn that
    starts at [i]. *)
Fixpoint sendManyLoop (steps : nat) (i : nat) (requests : list Request)
  (cb : Future) (start : Z) (now : nat -> Z) : M unit :=
  match steps with
  | O => ret tt
  | S steps' =>
      if (i <? length requests)%nat then
        let j := (i + 16)%nat in
        let j := if (length requests <? j)%nat then length requests else j in
        SendBatch (take (j - i) (drop i requests)) cb
          (u64 (start + u64 (Z.of_nat i))) (now i) ;;;
        sendManyLoop steps' (i + 16) requests cb start now
      else ret tt
  end.

(** The loop runs at most [len(requests)] turns. *)
Definition SendMany (requests : list Request) (cb : Future) (start : Z)
  (now : nat -> Z) : M unit :=
  sendManyLoop (length requests) 0 requests cb start now.

(** A submission that is refused: the producer [id] is resolved with the
    error [e] at every index of [idx], in order, and at no other; nothing is
    sent on the channel and the shards and the state are as they were. *)
Definition refusedWith (c : Connection) (id : nat) (idx : list Z) (e : Error)
  (r : unit * Connection * list Event) : Prop :=
  let '(_, c', t) := r in
  shard c' = shard c /\ dirtyShard c' = dirtyShard c /\ state c' = state c /\
  notifies t = [] /\
  resolves t = map (fun n => mkResolved id (RError e) n) idx.

(** The error of a batch that holds a malformed request, seen from the
    request at [errpos]: that request gets [e], every other one the common
    error, which wraps [e]. *)
Definition abortedWith (errpos : Z) (e commonerr : Error) (j : Z) (r : Resolved)
  : Prop :=
  res_res r = RError (if j =? errpos then e else commonerr).

(** A submission that is accepted on shard [shardn]: [entries] are added at
    the end of the shard's list, no other shard changes, the writer is
    notified exactly when the shard was idle, and nothing is resolved. *)
Definition enqueuedOn (c : Connection) (shardn : Z) (entries : list future)
  (r : unit * Connection * list Event) : Prop :=
  let '(_, c', t) := r in
  shardFutures c' shardn = shardFutures c shardn ++ entries /\
  (forall s, 0 <= s -> s <> shardn -> shardFutures c' s = shardFutures c s) /\
  dirtyShard c' = dirtyShard c ++ (if idle c shardn then [shardn] else []) /\
  notifies t = (if idle c shardn then [shardn] else []) /\
  state c' = state c /\
  resolves t = [].

(** The calls that [dropShardFutures] makes on the producers' futures: every
    future of every shard, in the order of the shards. *)
Definition called (e : Error) (shards : list (list future)) : list Resolved :=
  flat_map (fun futures =>
              flat_map (fun fut => Resolve (fut_Future fut) (RError e) (fut_N fut))
                futures) shards.

End Submission.

(** * Theorems *)

(** ** The serializer *)

Module RedisFacts.
Import Redis Resp RedisCheck.

Lemma u8_small z : 0 <= z < 256 -> u8 z = z.
Proof. intros. unfold u8. apply Z.mod_small. lia. Qed.

Lemma digit_byte u : 0 <= u -> u8 (u8 (u - u / 10 * 10) + 48) = 48 + u mod 10.
Proof.
  intros Hu.
  assert (u - u / 10 * 10 = u mod 10) as ->
    by (pose proof (Z_div_mod_eq_full u 10); lia).
  pose proof (Z.mod_pos_bound u 10 ltac:(lia)).
  rewrite (u8_small (u mod 10)) by lia. rewrite u8_small by lia. lia.
Qed.

Lemma appendUint_loop_digits p ds u :
  (p <= length ds)%nat -> 0 <= u ->
  let '(p', ds') := appendUint_loop p ds u in
  drop p' ds' = digits p u (drop p ds) /\ length ds' = length ds /\ (p' <= p)%nat.
Proof.
  revert ds u. induction p as [|p IH]; intros ds u Hp Hu; simpl.
  - destruct (0 <? u); auto.
  - destruct (0 <? u) eqn:E; [|auto].
    rewrite digit_byte by lia.
    specialize (IH (<[p := 48 + u mod 10]> ds) (u / 10)).
    rewrite length_insert in IH.
    destruct (appendUint_loop p (<[p:=48 + u mod 10]> ds) (u / 10)) as [p' ds'].
    destruct IH as (H1 & H2 & H3); [lia | apply Z.div_pos; lia |].
    split; [|split; [auto | lia]].
    rewrite H1. f_equal.
    rewrite (drop_S _ (48 + u mod 10) p) by (apply list_lookup_insert_eq; lia).
    rewrite drop_insert_lt by lia. reflexivity.
Qed.

Lemma appendUint_decimal b u : 0 <= u -> appendUint b u = b ++ decimal u.
Proof.
  intros Hu. unfold appendUint, decimal.
  pose proof (appendUint_loop_digits 20 (replicate 20 0) u) as H.
  destruct (appendUint_loop 20 (replicate 20 0) u) as [p ds].
  destruct H as (H & _ & _); [rewrite length_replicate; lia | lia |].
  rewrite H. reflexivity.
Qed.

Lemma digits_nonpos fuel u acc : u <= 0 -> digits fuel u acc = acc.
Proof.
  intros Hu. destruct fuel; simpl; [reflexivity|].
  destruct (0 <? u) eqn:E; [apply Z.ltb_lt in E; lia | reflexivity].
Qed.

Lemma digits_app fuel : forall u acc, digits fuel u acc = digits fuel u [] ++ acc.
Proof.
  induction fuel as [|fuel IH]; intros u acc; simpl; [reflexivity|].
  destruct (0 <? u); [|reflexivity].
  rewrite (IH _ (_ :: acc)), (IH _ [_]), <- app_assoc. reflexivity.
Qed.

Lemma digits_step fuel u :
  0 < u -> digits (S fuel) u [] = digits fuel (u / 10) [] ++ [48 + u mod 10].
Proof.
  intros Hu. simpl. apply Z.ltb_lt in Hu. rewrite Hu. apply digits_app.
Qed.

Lemma pow10_succ (k : nat) : 10 ^ Z.of_nat (S k) = 10 * 10 ^ Z.of_nat k.
Proof. rewrite Nat2Z.inj_succ, Z.pow_succ_r by lia. reflexivity. Qed.

Lemma pow10_pos (k : nat) : 0 < 10 ^ Z.of_nat k.
Proof. apply Z.pow_pos_nonneg; lia. Qed.

Lemma value_snoc s d : value (s ++ [d]) = value s * 10 + (d - 48).
Proof. unfold value. rewrite fold_left_app. reflexivity. Qed.

Lemma value_digits fuel : forall u,
  0 <= u < 10 ^ Z.of_nat fuel -> value (digits fuel u []) = u.
Proof.
  induction fuel as [|fuel IH]; intros u Hu.
  - simpl in *. unfold value. simpl. lia.
  - destruct (Z.eq_dec u 0) as [->|Hne]; [reflexivity|].
    rewrite digits_step, value_snoc by lia.
    rewrite pow10_succ in Hu.
    rewrite IH; [pose proof (Z_div_mod_eq_full u 10); lia|].
    split; [apply Z.div_pos; lia | apply Z.div_lt_upper_bound; lia].
Qed.

Lemma digits_isDigit fuel : forall u,
  0 <= u -> forallb isDigit (digits fuel u []) = true.
Proof.
  induction fuel as [|fuel IH]; intros u Hu; [reflexivity|].
  destruct (Z.eq_dec u 0) as [->|Hne]; [reflexivity|].
  rewrite digits_step by lia. rewrite forallb_app, IH by (apply Z.div_pos; lia).
  simpl. unfold isDigit. pose proof (Z.mod_pos_bound u 10 ltac:(lia)).
  rewrite andb_true_r. apply andb_true_iff. split; [apply Z.leb_le|apply Z.leb_le]; lia.
Qed.

Lemma length_digits_le fuel : forall u (k : nat),
  0 <= u < 10 ^ Z.of_nat k -> (length (digits fuel u []) <= k)%nat.
Proof.
  induction fuel as [|fuel IH]; intros u k Hu; [simpl; lia|].
  destruct (Z.eq_dec u 0) as [->|Hne]; [simpl; lia|].
  rewrite digits_step, length_app by lia. simpl.
  destruct k as [|k]; [simpl in Hu; lia|].
  rewrite pow10_succ in Hu.
  specialize (IH (u / 10) k). 
  assert (0 <= u / 10 < 10 ^ Z.of_nat k)
    by (split; [apply Z.div_pos; lia | apply Z.div_lt_upper_bound; lia]).
  lia.
Qed.

Lemma length_digits_gt fuel : forall u (k : nat),
  10 ^ Z.of_nat k <= u < 10 ^ Z.of_nat fuel -> (k < length (digits fuel u []))%nat.
Proof.
  induction fuel as [|fuel IH]; intros u k Hu.
  - pose proof (pow10_pos k). simpl in Hu. lia.
  - pose proof (pow10_pos k).
    rewrite digits_step, length_app by lia. simpl.
    destruct k as [|k]; [lia|].
    rewrite !pow10_succ in Hu.
    specialize (IH (u / 10) k).
    assert (10 ^ Z.of_nat k <= u / 10 < 10 ^ Z.of_nat fuel)
      by (split; [apply Z.div_le_lower_bound; lia | apply Z.div_lt_upper_bound; lia]).
    lia.
Qed.

Lemma digits_head fuel : forall u d rest,
  0 <= u < 10 ^ Z.of_nat fuel -> digits fuel u [] = d :: rest -> d <> 48.
Proof.
  induction fuel as [|fuel IH]; intros u d rest Hu E; [discriminate|].
  destruct (Z.eq_dec u 0) as [->|Hne]; [discriminate|].
  rewrite digits_step in E by lia. rewrite pow10_succ in Hu.
  destruct (digits fuel (u / 10) []) as [|d' rest'] eqn:E'.
  - injection E as <- _.
    destruct (Z.eq_dec (u / 10) 0) as [Hz|Hz].
    + pose proof (Z_div_mod_eq_full u 10). lia.
    + pose proof (length_digits_gt fuel (u / 10) 0) as Hl.
      rewrite E' in Hl. simpl in Hl.
      assert (1 <= u / 10) by (assert (0 <= u / 10) by (apply Z.div_pos; lia); lia).
      assert (u / 10 < 10 ^ Z.of_nat fuel) by (apply Z.div_lt_upper_bound; lia).
      lia.
  - injection E as <- _. apply (IH (u / 10) d' rest'); [|assumption].
    split; [apply Z.div_pos; lia | apply Z.div_lt_upper_bound; lia].
Qed.

Lemma pow10_20 : 10 ^ Z.of_nat 20 = 100000000000000000000.
Proof. reflexivity. Qed.

Lemma decimal_value u : 0 <= u < 2 ^ 64 -> value (decimal u) = u.
Proof. intros Hu. apply value_digits. rewrite pow10_20. lia. Qed.

Lemma decimal_form u : 0 < u < 2 ^ 64 -> decimalForm (decimal u) = true.
Proof.
  intros Hu. unfold decimal.
  pose proof (digits_isDigit 20 u ltac:(lia)) as Hd.
  pose proof (digits_head 20 u) as Hh.
  pose proof (length_digits_gt 20 u 0) as Hl.
  destruct (digits 20 u []) as [|d ds]; [simpl in Hl; rewrite pow10_20 in Hl; lia|].
  specialize (Hh d ds ltac:(rewrite pow10_20; lia) eq_refl).
  simpl in Hd. apply andb_true_iff in Hd as [Hd1 Hd2].
  simpl. destruct ds; [assumption|].
  rewrite Hd1, Hd2. simpl. rewrite andb_true_r.
  apply negb_true_iff, Z.eqb_neq. assumption.
Qed.

Lemma decimal_zero : decimal 0 = [].
Proof. reflexivity. Qed.

(** The twenty slots of [digits] are enough for a [uint64]: the loop ends
    because [u] is used up, and what it wrote denotes [u]. *)
Lemma appendUint_loop_done u : 0 <= u < 2 ^ 64 -> value (appendUint [] u) = u.
Proof.
  intros Hu. rewrite appendUint_decimal by lia. apply decimal_value, Hu.
Qed.

Lemma length_decimal_le u (k : nat) :
  0 <= u < 10 ^ Z.of_nat k -> (length (decimal u) <= k)%nat.
Proof. apply length_digits_le. Qed.

Lemma length_decimal_gt u (k : nat) :
  10 ^ Z.of_nat k <= u < 2 ^ 64 -> (k < length (decimal u))%nat.
Proof. intros Hu. apply length_digits_gt. rewrite pow10_20. lia. Qed.

(** A property checked on every number of a range holds on each. *)
Lemma range_forallb (P : Z -> bool) len : forall lo n,
  forallb P (Futures.range lo len) = true ->
  lo <= n < lo + Z.of_nat len -> P n = true.
Proof.
  induction len as [|len IH]; intros lo n H Hn; [lia|].
  cbn [Futures.range forallb] in H. apply andb_true_iff in H as [H0 H].
  destruct (Z.eq_dec n lo) as [->|Hne]; [exact H0|].
  apply (IH (lo + 1)); [exact H | lia].
Qed.

Lemma checked_range (P : Z -> Prop) `{forall n, Decision (P n)} len lo n :
  forallb (fun k => bool_decide (P k)) (Futures.range lo len) = true ->
  lo <= n < lo + Z.of_nat len -> P n.
Proof.
  intros Hall Hn. eapply bool_decide_eq_true_1.
  exact (range_forallb (fun k => bool_decide (P k)) len lo n Hall Hn).
Qed.

Lemma decimal_digit u : 1 <= u <= 9 -> decimal u = [48 + u].
Proof.
  intros Hu.
  apply (checked_range (fun n => decimal n = [48 + n]) 9 1);
    [vm_compute; reflexivity | lia].
Qed.


Lemma appendUint_app b u : appendUint b u = b ++ appendUint [] u.
Proof.
  unfold appendUint. destruct (appendUint_loop 20 (replicate 20 0) u). reflexivity.
Qed.

Lemma appendInt_app b i : appendInt b i = b ++ appendInt [] i.
Proof.
  unfold appendInt. destruct ((0 <=? i) && (i <=? 9)); [reflexivity|].
  destruct (0 <? i); [apply appendUint_app|].
  rewrite appendUint_app, (appendUint_app ([] ++ [45])), <- app_assoc. reflexivity.
Qed.

Lemma appendHead_app b t i : appendHead b t i = b ++ appendHead [] t i.
Proof.
  unfold appendHead. rewrite appendInt_app, (appendInt_app ([] ++ [t])).
  rewrite <- !app_assoc. reflexivity.
Qed.

Lemma u64_small z : 0 <= z < 2 ^ 64 -> u64 z = z.
Proof. intros. unfold u64. apply Z.mod_small. lia. Qed.

Lemma i64_small z : - 2 ^ 63 <= z < 2 ^ 63 -> i64 z = z.
Proof. intros. unfold i64. rewrite Z.mod_small; lia. Qed.

Lemma negate_int64 i : - 2 ^ 63 <= i < 0 -> u64 (i64 (- i)) = - i.
Proof.
  intros Hi. destruct (Z.eq_dec i (- 2 ^ 63)) as [->|Hne]; [reflexivity|].
  rewrite i64_small, u64_small; lia.
Qed.

Lemma appendInt_text i : - 2 ^ 63 <= i < 2 ^ 63 -> appendInt [] i = textInt i.
Proof.
  intros Hi. unfold appendInt, textInt.
  destruct (Z.ltb_spec i 0) as [Hneg|Hpos].
  - replace ((0 <=? i) && (i <=? 9)) with false
      by (symmetry; apply andb_false_iff; left; apply Z.leb_gt; lia).
    replace (0 <? i) with false by (symmetry; apply Z.ltb_ge; lia).
    rewrite negate_int64 by lia. apply appendUint_decimal. lia.
  - destruct (Z.eqb_spec i 0) as [->|Hne]; [reflexivity|].
    destruct (Z.leb_spec i 9) as [H9|H9].
    + replace (0 <=? i) with true by (symmetry; apply Z.leb_le; lia). simpl.
      rewrite decimal_digit by lia. unfold u8.
      rewrite (Z.mod_small i) by lia. rewrite Z.mod_small by lia. f_equal. lia.
    + rewrite andb_false_r.
      replace (0 <? i) with true by (symmetry; apply Z.ltb_lt; lia).
      rewrite u64_small by lia. apply appendUint_decimal. lia.
Qed.

Lemma textInt_number i : - 2 ^ 63 <= i < 2 ^ 63 -> number (textInt i) = i.
Proof.
  intros Hi. unfold textInt.
  destruct (Z.ltb_spec i 0).
  - simpl. rewrite decimal_value; lia.
  - destruct (Z.eqb_spec i 0) as [->|]; [reflexivity|].
    pose proof (decimal_form i ltac:(lia)) as Hf.
    pose proof (decimal_value i ltac:(lia)) as Hv.
    destruct (decimal i) as [|d ds]; [discriminate|].
    unfold number. destruct (Z.eqb_spec d 45) as [->|Hd]; [|exact Hv].
    simpl in Hf. destruct ds; discriminate.
Qed.


Lemma textInt_form i : - 2 ^ 63 <= i < 2 ^ 63 -> integerForm (textInt i) = true.
Proof.
  intros Hi. unfold textInt.
  destruct (Z.ltb_spec i 0).
  - simpl. rewrite decimal_form, decimal_value by lia. simpl.
    apply negb_true_iff, Z.eqb_neq. lia.
  - destruct (Z.eqb_spec i 0) as [->|]; [reflexivity|].
    pose proof (decimal_form i ltac:(lia)) as Hf.
    destruct (decimal i) as [|d ds]; [discriminate|].
    unfold integerForm. destruct (Z.eqb_spec d 45) as [->|]; [|exact Hf].
    simpl in Hf. destruct ds; discriminate.
Qed.

Lemma pow10_8 : 10 ^ Z.of_nat 8 = 100000000. Proof. reflexivity. Qed.
Lemma pow10_9 : 10 ^ Z.of_nat 9 = 1000000000. Proof. reflexivity. Qed.
Lemma pow10_19 : 10 ^ Z.of_nat 19 = 10000000000000000000. Proof. reflexivity. Qed.

Lemma length_textInt_short i :
  -99999999 <= i <= 999999999 -> (length (textInt i) < 10)%nat.
Proof.
  intros Hi. unfold textInt.
  destruct (Z.ltb_spec i 0).
  - pose proof (length_decimal_le (- i) 8 ltac:(rewrite pow10_8; lia)). simpl. lia.
  - destruct (Z.eqb_spec i 0); [simpl; lia|].
    pose proof (length_decimal_le i 9 ltac:(rewrite pow10_9; lia)). lia.
Qed.

Lemma length_textInt_long i :
  - 2 ^ 63 <= i < 2 ^ 63 -> ~ (-99999999 <= i <= 999999999) ->
  (10 <= length (textInt i) <= 20)%nat.
Proof.
  intros Hi Hout. unfold textInt.
  destruct (Z.ltb_spec i 0).
  - pose proof (length_decimal_le (- i) 19 ltac:(rewrite pow10_19; lia)).
    pose proof (length_decimal_gt (- i) 8 ltac:(rewrite pow10_8; lia)). simpl. lia.
  - destruct (Z.eqb_spec i 0); [lia|].
    pose proof (length_decimal_le i 19 ltac:(rewrite pow10_19; lia)).
    pose proof (length_decimal_gt i 9 ltac:(rewrite pow10_9; lia)). lia.
Qed.

Lemma length_decimal_short u : 0 <= u <= 999999999 -> (length (decimal u) < 10)%nat.
Proof.
  intros Hu. pose proof (length_decimal_le u 9 ltac:(rewrite pow10_9; lia)). lia.
Qed.

Lemma length_decimal_long u :
  999999999 < u < 2 ^ 64 -> (10 <= length (decimal u) <= 20)%nat.
Proof.
  intros Hu.
  pose proof (length_decimal_le u 20 ltac:(rewrite pow10_20; lia)).
  pose proof (length_decimal_gt u 9 ltac:(rewrite pow10_9; lia)). lia.
Qed.

Lemma appendHead_digit n :
  0 <= n <= 9 -> appendHead [] 36 n = [36; 48 + n; 13; 10].
Proof.
  intros Hn.
  apply (checked_range (fun n => appendHead [] 36 n = [36; 48 + n; 13; 10]) 10 0);
    [vm_compute; reflexivity | lia].
Qed.

Lemma appendHead_two n :
  10 <= n <= 20 -> appendHead [] 36 n = [36; 48 + n / 10; 48 + n mod 10; 13; 10].
Proof.
  intros Hn.
  apply (checked_range
           (fun n => appendHead [] 36 n = [36; 48 + n / 10; 48 + n mod 10; 13; 10])
           11 10);
    [vm_compute; reflexivity | lia].
Qed.

Lemma patch_bytes n :
  10 <= n <= 20 ->
  u8 (n / 10 + 48) = 48 + n / 10 /\
  u8 (u8 (n - u8 (n / 10 * 10)) + 48) = 48 + n mod 10.
Proof.
  intros Hn.
  apply (checked_range (fun n => u8 (n / 10 + 48) = 48 + n / 10 /\
       u8 (u8 (n - u8 (n / 10 * 10)) + 48) = 48 + n mod 10) 11 10);
    [vm_compute; reflexivity | lia].
Qed.

(** The length written in place is the head [appendHead] would have
    written. *)
Lemma patchLen_short b s :
  (length s < 10)%nat ->
  let b1 := b ++ [36; 48; 13; 10] in
  patchLen (b1 ++ s) (length b1)
    (u8 (Z.of_nat (length (b1 ++ s)) - Z.of_nat (length b1)))
  = appendHead b 36 (Z.of_nat (length s)) ++ s.
Proof.
  intros Hs b1. subst b1.
  rewrite !length_app. simpl length.
  replace (Z.of_nat (length b + 4 + length s) - Z.of_nat (length b + 4))
    with (Z.of_nat (length s)) by lia.
  rewrite u8_small by lia. unfold patchLen.
  replace (Z.of_nat (length s) <? 10) with true by (symmetry; apply Z.ltb_lt; lia).
  rewrite u8_small by lia.
  replace (length b + 4 - 3)%nat with (length b + 1)%nat by lia.
  rewrite <- !app_assoc, insert_app_r. simpl.
  rewrite appendHead_app, appendHead_digit by lia.
  rewrite <- app_assoc. simpl. rewrite (Z.add_comm 48). reflexivity.
Qed.

Lemma patchLen_long b x s :
  (10 <= length s <= 20)%nat ->
  let b1 := b ++ [36; x; 48; 13; 10] in
  patchLen (b1 ++ s) (length b1)
    (u8 (Z.of_nat (length (b1 ++ s)) - Z.of_nat (length b1)))
  = appendHead b 36 (Z.of_nat (length s)) ++ s.
Proof.
  intros Hs b1. subst b1.
  rewrite !length_app. simpl length.
  replace (Z.of_nat (length b + 5 + length s) - Z.of_nat (length b + 5))
    with (Z.of_nat (length s)) by lia.
  rewrite u8_small by lia. unfold patchLen.
  replace (Z.of_nat (length s) <? 10) with false by (symmetry; apply Z.ltb_ge; lia).
  destruct (patch_bytes (Z.of_nat (length s)) ltac:(lia)) as [-> ->].
  replace (length b + 5 - 3)%nat with (length b + 2)%nat by lia.
  replace (length b + 5 - 4)%nat with (length b + 1)%nat by lia.
  rewrite <- !app_assoc, !insert_app_r. simpl.
  rewrite appendHead_app, appendHead_two by lia.
  rewrite <- app_assoc. reflexivity.
Qed.

Lemma appendBulkInt_head b i :
  - 2 ^ 63 <= i < 2 ^ 63 ->
  appendBulkInt b i = appendHead b 36 (Z.of_nat (length (textInt i))) ++ textInt i.
Proof.
  intros Hi. unfold appendBulkInt.
  destruct ((-99999999 <=? i) && (i <=? 999999999)) eqn:E.
  - apply andb_true_iff in E as [E1%Z.leb_le E2%Z.leb_le].
    rewrite (appendInt_app _ i), appendInt_text by lia.
    apply patchLen_short, length_textInt_short. lia.
  - rewrite (appendInt_app _ i), appendInt_text by lia.
    apply patchLen_long, length_textInt_long; [lia|].
    intros [H1 H2]. apply Z.leb_le in H1, H2. rewrite H1, H2 in E. discriminate.
Qed.

Lemma appendBulkUint_head b u :
  0 <= u < 2 ^ 64 ->
  appendBulkUint b u = appendHead b 36 (Z.of_nat (length (decimal u))) ++ decimal u.
Proof.
  intros Hu. unfold appendBulkUint.
  destruct (Z.leb_spec u 999999999).
  - rewrite (appendUint_app _ u), (appendUint_decimal []) by lia.
    apply patchLen_short, length_decimal_short. lia.
  - rewrite (appendUint_app _ u), (appendUint_decimal []) by lia.
    apply patchLen_long, length_decimal_long. lia.
Qed.

(** *** The reader reads back what the heads say *)

Lemma readDigits_app ds rest acc :
  forallb isDigit ds = true ->
  readDigits (ds ++ rest) acc
  = readDigits rest (fold_left (fun a d => a * 10 + (d - 48)) ds acc).
Proof.
  revert acc. induction ds as [|d ds IH]; intros acc H; [reflexivity|].
  simpl in H. apply andb_true_iff in H as [Hd Hds].
  simpl. rewrite Hd. apply IH, Hds.
Qed.

Lemma textInt_digits n :
  0 <= n < 2 ^ 63 ->
  forallb isDigit (textInt n) = true /\ value (textInt n) = n /\ textInt n <> [].
Proof.
  intros Hn. unfold textInt.
  replace (n <? 0) with false by (symmetry; apply Z.ltb_ge; lia).
  destruct (Z.eqb_spec n 0) as [->|Hne]; [repeat split; discriminate|].
  split; [apply digits_isDigit; lia|].
  split; [apply decimal_value; lia|].
  pose proof (decimal_form n ltac:(lia)). destruct (decimal n); discriminate.
Qed.

Lemma appendHead_text t n :
  0 <= n < 2 ^ 63 -> appendHead [] t n = [t] ++ textInt n ++ CRLF.
Proof.
  intros Hn. unfold appendHead.
  rewrite appendInt_app, appendInt_text by lia. rewrite <- app_assoc. reflexivity.
Qed.

Lemma readHead_text t n rest :
  0 <= n < 2 ^ 63 ->
  readHead t ([t] ++ textInt n ++ CRLF ++ rest) = Some (n, rest).
Proof.
  intros Hn. destruct (textInt_digits n Hn) as (Hd & Hv & Hne).
  destruct (textInt n) as [|d ds] eqn:E; [congruence|].
  cbn [app readHead]. rewrite Z.eqb_refl.
  pose proof Hd as Hd'. simpl in Hd'. apply andb_true_iff in Hd' as [Hd1 _].
  rewrite Hd1. cbn [andb].
  change (d :: ds ++ CRLF ++ rest) with ((d :: ds) ++ CRLF ++ rest).
  rewrite readDigits_app by assumption.
  fold (value (d :: ds)). rewrite Hv. reflexivity.
Qed.

Lemma readBulk_bulk p rest : fits p = true -> readBulk (bulk p ++ rest) = Some (p, rest).
Proof.
  intros Hp. apply Z.ltb_lt in Hp. unfold readBulk, bulk.
  rewrite <- !app_assoc.
  rewrite (readHead_text 36) by lia.
  rewrite length_app.
  replace (Z.of_nat (length p + length (CRLF ++ rest)) <? Z.of_nat (length p))
    with false by (symmetry; apply Z.ltb_ge; lia).
  rewrite Nat2Z.id, drop_app_length, take_app_length. reflexivity.
Qed.

Lemma readBulks_bulks ps rest :
  Forall (fun p => fits p = true) ps ->
  readBulks (length ps) (flat_map bulk ps ++ rest) = Some (ps, rest).
Proof.
  induction 1 as [|p ps Hp _ IH]; [reflexivity|].
  cbn [length flat_map readBulks]. rewrite <- app_assoc, readBulk_bulk, IH by assumption.
  reflexivity.
Qed.

Lemma readRequest_bulks (ps : list (list Z)) :
  Z.of_nat (length ps) < 2 ^ 63 ->
  Forall (fun p => fits p = true) ps ->
  readRequest ([42] ++ textInt (Z.of_nat (length ps)) ++ CRLF ++ flat_map bulk ps)
  = Some ps.
Proof.
  intros Hn Hps. unfold readRequest.
  rewrite readHead_text by lia. rewrite Nat2Z.id.
  rewrite <- (app_nil_r (flat_map bulk ps)), readBulks_bulks by assumption.
  reflexivity.
Qed.

(** *** What the serializer writes *)

Lemma findSpace_none cmd : forall i space,
  Forall (fun c => c <> 32) cmd -> findSpace cmd i space = space.
Proof.
  induction cmd as [|c cmd IH]; intros i space H; [reflexivity|].
  inversion H as [|? ? Hc Hcmd]; subst. simpl.
  destruct (Z.eqb_spec c 32); [contradiction|]. apply IH, Hcmd.
Qed.

Lemma findSpace_app l1 : forall l2 i space,
  findSpace (l1 ++ l2) i space
  = findSpace l2 (i + Z.of_nat (length l1)) (findSpace l1 i space).
Proof.
  induction l1 as [|c l1 IH]; intros l2 i space.
  - simpl. rewrite Z.add_0_r. reflexivity.
  - cbn [app findSpace length]. rewrite IH. f_equal. lia.
Qed.

(** The loop keeps the position of the last space. *)
Lemma findSpace_last pre post :
  Forall (fun c => c <> 32) post ->
  findSpace (pre ++ 32 :: post) 0 (-1) = Z.of_nat (length pre).
Proof.
  intros H. rewrite findSpace_app. cbn [findSpace]. rewrite Z.eqb_refl.
  apply findSpace_none, H.
Qed.

Lemma appendHead_bulk buf p :
  fits p = true -> (appendHead buf 36 (Z.of_nat (length p)) ++ p) ++ CRLF = buf ++ bulk p.
Proof.
  intros Hp. apply Z.ltb_lt in Hp.
  rewrite appendHead_app, appendHead_text by lia. unfold bulk.
  rewrite <- !app_assoc. reflexivity.
Qed.

Lemma appendCmd_plain buf req :
  Forall (fun c => c <> 32) (Cmd req) ->
  fits (Cmd req) = true -> Z.of_nat (length (Args req)) + 2 < 2 ^ 63 ->
  appendCmd buf req
  = buf ++ [42] ++ textInt (Z.of_nat (length (Args req)) + 1) ++ CRLF
    ++ bulk (Cmd req).
Proof.
  intros Hsp Hc Hn. unfold appendCmd. rewrite findSpace_none by assumption.
  cbn [Z.eqb]. rewrite appendHead_bulk by assumption.
  rewrite appendHead_app, appendHead_text by lia.
  rewrite <- !app_assoc. reflexivity.
Qed.

Lemma appendCmd_split buf req pre post :
  Cmd req = pre ++ 32 :: post ->
  Forall (fun c => c <> 32) post ->
  fits (Cmd req) = true -> Z.of_nat (length (Args req)) + 2 < 2 ^ 63 ->
  appendCmd buf req
  = buf ++ [42] ++ textInt (Z.of_nat (length (Args req)) + 2) ++ CRLF
    ++ bulk pre ++ bulk post.
Proof.
  intros E Hsp Hc Hn. apply Z.ltb_lt in Hc. unfold appendCmd.
  rewrite E in *. rewrite length_app in Hc. cbn [length] in Hc.
  rewrite findSpace_last by assumption.
  destruct (Z.eqb_spec (Z.of_nat (length pre)) (-1)) as [Hm|_]; [lia|].
  rewrite Nat2Z.id, take_app_length.
  replace (Z.to_nat (Z.of_nat (length pre) + 1)) with (length pre + 1)%nat by lia.
  rewrite <- drop_drop, drop_app_length. cbn [drop].
  rewrite length_app. cbn [length].
  replace (Z.of_nat (length pre + S (length post)) - Z.of_nat (length pre) - 1)
    with (Z.of_nat (length post)) by lia.
  rewrite (appendHead_bulk _ post) by (apply Z.ltb_lt; lia).
  rewrite (appendHead_bulk _ pre) by (apply Z.ltb_lt; lia).
  rewrite appendHead_app, appendHead_text by lia.
  rewrite <- !app_assoc. reflexivity.
Qed.

Lemma CheckArgs_code req e : CheckArgs req = Some e -> ErrCode e = ErrArgumentType.
Proof.
  unfold CheckArgs. generalize (Args req) as args.
  induction args as [|a args IH]; [discriminate|]. simpl.
  destruct (supported a); [exact IH|]. intros [= <-]. reflexivity.
Qed.

Section SerializerFacts.
Context {strconv : Strconv}.

Lemma wellTyped_signed v a :
  wellTyped a = true ->
  a = AInt v \/ a = AInt64 v \/ a = AInt32 v \/ a = AInt16 v \/ a = AInt8 v ->
  - 2 ^ 63 <= v < 2 ^ 63.
Proof.
  intros Hw [-> | [-> | [-> | [-> | ->]]]];
    simpl in Hw; apply andb_true_iff in Hw as [H1%Z.leb_le H2%Z.ltb_lt]; lia.
Qed.

Lemma wellTyped_unsigned v a :
  wellTyped a = true ->
  a = AUint v \/ a = AUint64 v \/ a = AUint32 v \/ a = AUint16 v \/ a = AUint8 v ->
  0 <= v < 2 ^ 64.
Proof.
  intros Hw [-> | [-> | [-> | [-> | ->]]]];
    simpl in Hw; apply andb_true_iff in Hw as [H1%Z.leb_le H2%Z.ltb_lt]; lia.
Qed.

Lemma ArgToString_signed v a :
  wellTyped a = true ->
  a = AInt v \/ a = AInt64 v \/ a = AInt32 v \/ a = AInt16 v \/ a = AInt8 v ->
  ArgToString a = (textInt v, true) /\
  forall buf, appendArg buf a = Some (appendBulkInt buf v).
Proof.
  intros Hw Ha. pose proof (wellTyped_signed v a Hw Ha) as Hv.
  destruct Ha as [-> | [-> | [-> | [-> | ->]]]]; simpl;
    rewrite i64_small, appendInt_text by lia; auto.
Qed.

Lemma ArgToString_unsigned v a :
  wellTyped a = true ->
  a = AUint v \/ a = AUint64 v \/ a = AUint32 v \/ a = AUint16 v \/ a = AUint8 v ->
  ArgToString a = (decimal v, true) /\
  forall buf, appendArg buf a = Some (appendBulkUint buf v).
Proof.
  intros Hw Ha. pose proof (wellTyped_unsigned v a Hw Ha) as Hv.
  destruct Ha as [-> | [-> | [-> | [-> | ->]]]]; simpl;
    rewrite u64_small, (appendUint_decimal []) by lia; auto.
Qed.

(** Every turn of the switch writes the bulk string of the text that
    [ArgToString] returns. *)
Lemma appendArg_bulk buf a :
  wfArg a = true ->
  exists out, appendArg buf a = Some out /\
              out ++ CRLF = buf ++ bulk (fst (ArgToString a)).
Proof.
  intros Hwf.
  assert (wellTyped a = true /\ fits (fst (ArgToString a)) = true) as [Hw Hf]
    by (destruct a; try discriminate; apply andb_true_iff in Hwf; exact Hwf).
  assert (forall v, ArgToString a = (textInt v, true) ->
            appendArg buf a = Some (appendBulkInt buf v) ->
            - 2 ^ 63 <= v < 2 ^ 63 ->
            exists out, appendArg buf a = Some out /\
                        out ++ CRLF = buf ++ bulk (fst (ArgToString a))) as Hs.
  { intros v E1 E2 Hv. rewrite E1 in *. simpl in *. eexists. split; [exact E2|].
    rewrite appendBulkInt_head by lia. apply appendHead_bulk, Hf. }
  assert (forall v, ArgToString a = (decimal v, true) ->
            appendArg buf a = Some (appendBulkUint buf v) ->
            0 <= v < 2 ^ 64 ->
            exists out, appendArg buf a = Some out /\
                        out ++ CRLF = buf ++ bulk (fst (ArgToString a))) as Hu.
  { intros v E1 E2 Hv. rewrite E1 in *. simpl in *. eexists. split; [exact E2|].
    rewrite appendBulkUint_head by lia. apply appendHead_bulk, Hf. }
  destruct a as [v|v|v|v|v|v|v|v|v|v|v|v|v|v|v| |tag];
    try (destruct (ArgToString_signed v _ Hw ltac:(auto 6)) as [E1 E2];
         apply (Hs v E1 (E2 buf)), (wellTyped_signed v _ Hw); auto 6);
    try (destruct (ArgToString_unsigned v _ Hw ltac:(auto 6)) as [E1 E2];
         apply (Hu v E1 (E2 buf)), (wellTyped_unsigned v _ Hw); auto 6);
    try (eexists; split; [reflexivity|]; apply appendHead_bulk, Hf).
  - destruct v; eexists; (split; [reflexivity|]); rewrite <- !app_assoc; reflexivity.
  - eexists. split; [reflexivity|]. rewrite <- !app_assoc. reflexivity.
  - discriminate.
Qed.

Lemma appendArgs_bulks req args : forall buf,
  forallb wfArg args = true ->
  appendArgs req buf args
  = (buf ++ flat_map bulk (map (fun a => fst (ArgToString a)) args), None).
Proof.
  induction args as [|a args IH]; intros buf H.
  - simpl. rewrite app_nil_r. reflexivity.
  - simpl in H. apply andb_true_iff in H as [Ha Hargs].
    destruct (appendArg_bulk buf a Ha) as (out & E1 & E2).
    cbn [appendArgs map flat_map]. rewrite E1, E2, IH by assumption.
    rewrite <- !app_assoc. reflexivity.
Qed.

(** [CheckArgs] refuses what the serializer refuses, with its error. *)
Lemma CheckArgs_AppendRequest buf req : snd (AppendRequest buf req) = CheckArgs req.
Proof.
  unfold AppendRequest, CheckArgs. generalize (appendCmd buf req) as b.
  generalize (Args req) as args.
  induction args as [|a args IH]; intros b; [reflexivity|].
  destruct a; cbn [appendArgs appendArg checkArgs supported]; try apply IH.
  reflexivity.
Qed.

Lemma fits_payloads args :
  forallb wfArg args = true ->
  Forall (fun p => fits p = true) (map (fun a => fst (ArgToString a)) args).
Proof.
  induction args as [|a args IH]; intros H; [constructor|].
  simpl in H. apply andb_true_iff in H as [Ha Hargs].
  constructor; [|apply IH, Hargs].
  destruct a; try discriminate; apply andb_true_iff in Ha; apply Ha.
Qed.

(** What a RESP reader makes of a serialized request whose name has a last
    space between [pre] and [post]. *)
Lemma AppendRequest_split req pre post :
  wfRequest req = true ->
  Cmd req = pre ++ 32 :: post ->
  Forall (fun c => c <> 32) post ->
  exists out rest,
    AppendRequest [] req = (out, None) /\
    readHead 42 out = Some (Z.of_nat (length (Args req)) + 2, rest) /\
    readRequest out
    = Some (pre :: post :: map (fun a => fst (ArgToString a)) (Args req)).
Proof.
  intros Hwf E Hsp. unfold wfRequest in Hwf.
  apply andb_true_iff in Hwf as [Hwf Hargs].
  apply andb_true_iff in Hwf as [Hc Hn]. apply Z.ltb_lt in Hn.
  unfold AppendRequest.
  rewrite (appendCmd_split [] req pre post), appendArgs_bulks by assumption.
  set (ps := pre :: post :: map (fun a => fst (ArgToString a)) (Args req)).
  eexists. exists (flat_map bulk ps). split; [reflexivity|].
  assert (Z.of_nat (length (Args req)) + 2 = Z.of_nat (length ps)) as ->
    by (unfold ps; cbn [length]; rewrite length_map; lia).
  assert (Hps : Forall (fun p => fits p = true) ps).
  { apply Z.ltb_lt in Hc. rewrite E, length_app in Hc. cbn [length] in Hc.
    unfold ps. repeat constructor; [apply Z.ltb_lt; lia..|].
    apply fits_payloads, Hargs. }
  assert (Hlen : Z.of_nat (length ps) < 2 ^ 63)
    by (unfold ps; cbn [length]; rewrite length_map; lia).
  match goal with
  | |- readHead 42 ?bs = _ /\ _ =>
      replace bs
        with ([42] ++ textInt (Z.of_nat (length ps)) ++ CRLF ++ flat_map bulk ps)
        by (unfold ps; cbn [flat_map]; rewrite app_nil_l, <- !app_assoc;
            reflexivity)
  end.
  split; [apply readHead_text; lia | apply readRequest_bulks; assumption].
Qed.

Lemma AppendRequest_plain req :
  wfRequest req = true ->
  Forall (fun c => c <> 32) (Cmd req) ->
  exists out,
    AppendRequest [] req = (out, None) /\
    readRequest out
    = Some (Cmd req :: map (fun a => fst (ArgToString a)) (Args req)).
Proof.
  intros Hwf Hsp. unfold wfRequest in Hwf.
  apply andb_true_iff in Hwf as [Hwf Hargs].
  apply andb_true_iff in Hwf as [Hc Hn]. apply Z.ltb_lt in Hn.
  unfold AppendRequest.
  rewrite (appendCmd_plain [] req), appendArgs_bulks by assumption.
  eexists. split; [reflexivity|].
  set (ps := Cmd req :: map (fun a => fst (ArgToString a)) (Args req)).
  assert (Z.of_nat (length (Args req)) + 1 = Z.of_nat (length ps)) as ->
    by (unfold ps; cbn [length]; rewrite length_map; lia).
  assert (Hps : Forall (fun p => fits p = true) ps)
    by (unfold ps; constructor; [assumption | apply fits_payloads, Hargs]).
  assert (Hlen : Z.of_nat (length ps) < 2 ^ 63)
    by (unfold ps; cbn [length]; rewrite length_map; lia).
  rewrite <- (readRequest_bulks ps Hlen Hps). f_equal.
  unfold ps. cbn [flat_map]. rewrite app_nil_l, <- !app_assoc. reflexivity.
Qed.

Lemma last_space cmd :
  Forall (fun c => c <> 32) cmd \/
  exists pre post, cmd = pre ++ 32 :: post /\ Forall (fun c => c <> 32) post.
Proof.
  induction cmd as [|c cmd [IH | (pre & post & -> & Hpost)]].
  - left. constructor.
  - destruct (Z.eq_dec c 32) as [->|Hc].
    + right. exists [], cmd. split; [reflexivity | assumption].
    + left. constructor; assumption.
  - right. exists (c :: pre), post. split; [reflexivity | assumption].
Qed.

(** The text of every argument but an unsigned zero is canonical. *)
Lemma ArgToString_canonical a :
  wfArg a = true -> unsignedZero a = false -> canonical a (fst (ArgToString a)).
Proof.
  intros Hwf Hz.
  assert (wellTyped a = true) as Hw
    by (destruct a; try discriminate; apply andb_true_iff in Hwf; apply Hwf).
  destruct a as [v|v|v|v|v|v|v|v|v|v|v|v|v|v|v| |tag];
    try (destruct (ArgToString_signed v _ Hw ltac:(auto 6)) as [E _];
         pose proof (wellTyped_signed v _ Hw ltac:(auto 6));
         rewrite E; split; [apply textInt_form | apply textInt_number]; lia);
    try (destruct (ArgToString_unsigned v _ Hw ltac:(auto 6)) as [E _];
         pose proof (wellTyped_unsigned v _ Hw ltac:(auto 6));
         simpl in Hz; apply Z.eqb_neq in Hz;
         rewrite E; split; [apply decimal_form | apply decimal_value]; lia);
    try reflexivity.
  discriminate.
Qed.

(** C1, as amended: for every request whose command name contains a space,
    [AppendRequest] emits an array header of length [len(args)+2] and splits
    the name at its last space into two bulk strings, which is its only
    space when the name is a two-word form such as [CLIENT LIST]. *)
Theorem AppendRequest_splits_at_last_space req pre post :
  wfRequest req = true ->
  Cmd req = pre ++ 32 :: post ->
  Forall (fun c => c <> 32) post ->
  exists out rest,
    AppendRequest [] req = (out, None) /\
    readHead 42 out = Some (Z.of_nat (length (Args req)) + 2, rest) /\
    readRequest out
    = Some (pre :: post :: map (fun a => fst (ArgToString a)) (Args req)).
Proof. apply AppendRequest_split. Qed.

(** C4: for every supported argument value, [ArgToString] returns with
    [true] the very bytes a RESP reader finds in the bulk string that
    [AppendRequest] wrote for it; for an unsupported value it returns the
    empty string and [false]. *)
Theorem ArgToString_in_sync_with_AppendRequest req :
  wfRequest req = true ->
  (exists out ws,
     AppendRequest [] req = (out, None) /\
     readRequest out = Some (ws ++ map (fun a => fst (ArgToString a)) (Args req)) /\
     Forall (fun a => snd (ArgToString a) = true) (Args req)) /\
  (forall a, supported a = false -> ArgToString a = ([], false)).
Proof.
  intros Hwf. split.
  - assert (Forall (fun a => snd (ArgToString a) = true) (Args req)) as Hok.
    { unfold wfRequest in Hwf. apply andb_true_iff in Hwf as [_ Hargs].
      induction (Args req) as [|a args IH]; [constructor|].
      simpl in Hargs. apply andb_true_iff in Hargs as [Ha Hargs].
      constructor; [|apply IH, Hargs]. destruct a; try reflexivity. discriminate. }
    destruct (last_space (Cmd req)) as [Hsp | (pre & post & E & Hsp)].
    + destruct (AppendRequest_plain req Hwf Hsp) as (out & E1 & E2).
      exists out, [Cmd req]. auto.
    + destruct (AppendRequest_split req pre post Hwf E Hsp) as (out & ? & E1 & _ & E2).
      exists out, [pre; post]. auto.
  - intros a Ha. destruct a; try discriminate. reflexivity.
Qed.

(** C3 at an unsigned zero: the bulk string written for [uint64(0)] has the
    empty payload, which is not the decimal text of 0. *)
Theorem AppendRequest_unsigned_zero :
  let req := mkRequest (str "SET") [AString (str "k"); AUint64 0] in
  wfRequest req = true /\
  exists out,
    AppendRequest [] req = (out, None) /\
    readRequest out = Some [str "SET"; str "k"; []] /\
    ~ canonical (AUint64 0) [] /\
    canonical (AUint64 0) (str "0").
Proof.
  split; [reflexivity|]. eexists. split; [reflexivity|].
  split; [reflexivity|]. split; [|split; reflexivity].
  intros [H _]. discriminate.
Qed.

End SerializerFacts.

(** Zero and the extreme values of the signed and unsigned 64-bit types,
    read back from the wire. *)
Example AppendRequest_extremes :
  readRequest
    (fst (@AppendRequest exampleStrconv []
            (mkRequest (str "SET")
               [AInt64 (- 2 ^ 63); AInt64 (2 ^ 63 - 1); AInt64 0;
                AUint64 (2 ^ 64 - 1); AUint64 0])))
  = Some [str "SET"; str "-9223372036854775808"; str "9223372036854775807";
          str "0"; str "18446744073709551615"; []].
Proof. vm_compute. reflexivity. Qed.

(** C1, as stated, fails on a name with two spaces: [A B C] is read back
    as [A B] and [C], where the first space is the one after [A]. *)
Lemma AppendRequest_first_space_counterexample :
  readRequest (fst (@AppendRequest exampleStrconv [] (mkRequest (str "A B C") [])))
  = Some [str "A B"; str "C"] /\
  ~ @splitsAtFirstSpace exampleStrconv (mkRequest (str "A B C") []).
Proof.
  split; [reflexivity|].
  intros H. specialize (H (str "A") (str "B C") eq_refl).
  assert (Forall (fun c => c <> 32) (str "A")) as Hpre
    by (repeat constructor; discriminate).
  specialize (H Hpre). vm_compute in H. discriminate.
Qed.

Lemma AppendRequest_splits_at_last_space_witness :
  exists out rest,
    @AppendRequest exampleStrconv [] (mkRequest (str "CLIENT LIST") [])
    = (out, None) /\
    readHead 42 out = Some (2, rest) /\
    readRequest out = Some [str "CLIENT"; str "LIST"].
Proof.
  apply (@AppendRequest_splits_at_last_space exampleStrconv
           (mkRequest (str "CLIENT LIST") []) (str "CLIENT") (str "LIST")).
  - reflexivity.
  - reflexivity.
  - repeat constructor; discriminate.
Defined.

Lemma ArgToString_in_sync_witness :
  let req := mkRequest (str "SET")
               [AString (str "k"); AInt64 (- 2 ^ 63); AUint64 (2 ^ 64 - 1);
                AUint8 0; ABool true; ANil] in
  (exists out ws,
     @AppendRequest exampleStrconv [] req = (out, None) /\
     readRequest out
     = Some (ws ++ map (fun a => fst (@ArgToString exampleStrconv a)) (Args req)) /\
     Forall (fun a => snd (@ArgToString exampleStrconv a) = true) (Args req)) /\
  (forall a, supported a = false -> @ArgToString exampleStrconv a = ([], false)).
Proof.
  apply (@ArgToString_in_sync_with_AppendRequest exampleStrconv). reflexivity.
Defined.

End RedisFacts.

(** ** Submission on the connection that keeps futures in its shards *)

Module ConnFacts.
Import Redis Resp RedisCheck Futures Conn.

Lemma resolves_app t1 t2 : resolves (t1 ++ t2) = resolves t1 ++ resolves t2.
Proof.
  induction t1 as [|[] t1 IH]; simpl; rewrite ?IH, <- ?app_assoc; reflexivity.
Qed.

Lemma resolves_resolve cb res n : resolves (resolve cb res n) = Resolve cb res n.
Proof.
  unfold resolve. induction (Resolve cb res n) as [|r l IH]; simpl; congruence.
Qed.

Lemma notifies_app t1 t2 : notifies (t1 ++ t2) = notifies t1 ++ notifies t2.
Proof.
  induction t1 as [|[] t1 IH]; simpl; rewrite ?IH; reflexivity.
Qed.

Lemma notifies_resolve cb res n : notifies (resolve cb res n) = [].
Proof.
  unfold resolve. induction (Resolve cb res n) as [|r l IH]; simpl; congruence.
Qed.

Lemma u64_index i : 0 <= i < 2 ^ 64 -> u64 (0 + u64 i) = i.
Proof. intros Hi. unfold u64. rewrite Z.add_0_l, Zmod_mod, Z.mod_small; lia. Qed.

(** The wrapper of a transaction drops what comes at an index below [l]. *)
Lemma Resolve_transaction_below cb l off res i :
  0 <= i < l -> l < 2 ^ 64 ->
  Resolve (transactionFuture cb l off) res (u64 (0 + u64 i)) = [].
Proof.
  intros Hi Hl. simpl. rewrite u64_index by lia.
  unfold u64. rewrite (Z.mod_small l) by lia.
  destruct (Z.eqb_spec i l); [lia | reflexivity].
Qed.

Lemma Resolve_transaction_at cb l off res :
  0 <= l < 2 ^ 64 ->
  Resolve (transactionFuture cb l off) res (u64 (0 + u64 l)) = Resolve cb res off.
Proof.
  intros Hl. simpl. rewrite u64_index by lia.
  unfold u64. rewrite (Z.mod_small l) by lia. rewrite Z.eqb_refl. reflexivity.
Qed.

(** *** A batch with a malformed request *)

Lemma checkBatch_spec c all : forall requests i errpos e commonerr,
  checkBatch c all i requests = Some (errpos, e, commonerr) ->
  i <= errpos < i + Z.of_nat (length requests) /\
  ErrCode e = ErrArgumentType /\
  ErrCode commonerr = ErrBatchFormat /\ ErrKind commonerr = ErrKindRequest /\
  ErrCause commonerr = CauseError e /\
  exists req, requests !! Z.to_nat (errpos - i) = Some req /\
              CheckArgs req <> None /\
              Forall (fun r => CheckArgs r = None) (take (Z.to_nat (errpos - i)) requests).
Proof.
  induction requests as [|req requests IH]; intros i errpos e commonerr H;
    [discriminate|].
  cbn [checkBatch] in H. destruct (CheckArgs req) as [e0|] eqn:E.
  - injection H as <- <- <-. cbn [length]. split; [lia|].
    assert (ErrCode e0 = ErrArgumentType) as Hcode.
    { unfold CheckArgs in E. revert E. generalize (Args req) as args.
      induction args as [|a args IHa]; [discriminate|]. simpl.
      destruct (supported a); [exact IHa|]. intros [= <-]. reflexivity. }
    destruct e0 as [k0 c0 x0 w0]. simpl in Hcode. subst c0.
    repeat split. rewrite Z.sub_diag. exists req. simpl.
    repeat split; [rewrite E; discriminate | constructor].
  - apply IH in H as (Hpos & H1 & H2 & H3 & H4 & r & Hr & Hbad & Hgood).
    cbn [length]. split; [lia|]. repeat split; try assumption.
    exists r. replace (Z.to_nat (errpos - i)) with (S (Z.to_nat (errpos - (i + 1))))
      by lia.
    simpl. repeat split; try assumption. constructor; assumption.
Qed.

Lemma checkBatch_none c all : forall requests i,
  Forall (fun r => CheckArgs r = None) requests ->
  checkBatch c all i requests = None.
Proof.
  induction requests as [|req requests IH]; intros i H; [reflexivity|].
  inversion H as [|? ? Hreq Hrest]; subst. cbn [checkBatch]. rewrite Hreq.
  apply IH, Hrest.
Qed.

Lemma checkBatch_some c all : forall requests i,
  Exists (fun r => CheckArgs r <> None) requests ->
  checkBatch c all i requests <> None.
Proof.
  induction requests as [|req requests IH]; intros i H; [inversion H|].
  cbn [checkBatch]. destruct (CheckArgs req) eqn:E; [discriminate|].
  inversion H as [? ? Hreq|? ? Hrest]; subst; [congruence|]. apply IH, Hrest.
Qed.

Lemma resolveBatch_callback id flag start errpos e commonerr : forall len i,
  resolveBatch (Callback id flag) start errpos (Some e) commonerr i len
  = map (fun j => EvResolve
                    (mkResolved id (RError (if j =? errpos then e else commonerr))
                       (u64 (start + u64 j))))
      (range i len).
Proof.
  induction len as [|len IH]; intros i; [reflexivity|].
  cbn [resolveBatch range map]. rewrite IH.
  destruct (i =? errpos); reflexivity.
Qed.

Lemma range_snoc len : forall i, range i (S len) = range i len ++ [i + Z.of_nat len].
Proof.
  induction len as [|len IH]; intros i.
  - simpl. rewrite Z.add_0_r. reflexivity.
  - change (range i (S (S len))) with (i :: range (i + 1) (S len)).
    rewrite IH. replace (i + Z.of_nat (S len)) with (i + 1 + Z.of_nat len) by lia.
    reflexivity.
Qed.

Lemma range_bounds len : forall i j, In j (range i len) -> i <= j < i + Z.of_nat len.
Proof.
  induction len as [|len IH]; intros i j H; [destruct H|].
  destruct H as [<- | H]; [lia|]. apply IH in H. lia.
Qed.

(** In a batch with a malformed request nothing is enqueued or sent, and
    every index, that of EXEC included, is resolved once: the first
    malformed request with its argument-type error, the others with the
    batch-format error that wraps it. *)
Lemma SendBatchFlags_malformed c requests id flag start flags now :
  Exists (fun r => CheckArgs r <> None) requests ->
  exists errpos e commonerr,
    checkBatch c requests 0 requests = Some (errpos, e, commonerr) /\
    SendBatchFlags requests (Callback id flag) start flags now c
    = (tt, c,
       map (fun j => EvResolve
                       (mkResolved id
                          (RError (if j =? errpos then e else commonerr))
                          (u64 (start + u64 j))))
         (range 0 (length requests
                   + (if negb (Z.land flags DoTransaction =? 0) then 1 else 0)))).
Proof.
  intros Hbad. pose proof (checkBatch_some c requests requests 0 Hbad) as Hsome.
  destruct (checkBatch c requests 0 requests) as [[[errpos e] commonerr]|] eqn:E;
    [|congruence].
  exists errpos, e, commonerr. split; [reflexivity|].
  pose proof (checkBatch_spec c requests requests 0 errpos e commonerr E) as (Hpos & _).
  unfold SendBatchFlags, bind, get. rewrite E.
  unfold ret, emit. cbn [fst snd].
  rewrite resolveBatch_callback.
  destruct (negb (Z.land flags DoTransaction =? 0)).
  - rewrite Nat.add_1_r, range_snoc, map_app. cbn [app map resolve Resolve].
    destruct (Z.eqb_spec (0 + Z.of_nat (length requests)) errpos); [lia|].
    reflexivity.
  - rewrite Nat.add_0_r, !app_nil_r. reflexivity.
Qed.

(** *** A submission on a closed connection *)

Lemma getShard_range c :
  wellFormed c ->
  (Z.to_nat (u32 (shardid c + 1) mod Concurrency c) < length (shard c))%nat.
Proof.
  intros [Hpos Hlen].
  pose proof (Z.mod_pos_bound (u32 (shardid c + 1)) (Concurrency c) Hpos). lia.
Qed.

Lemma doSend_closed c req id n asking now :
  state c = connClosed -> CheckArgs req = None ->
  doSend req (Callback id false) n asking now c
  = (Some (NewErrWrap ErrKindContext ErrContextClosed (ctxErr c)),
     set_shardid (u32 (shardid c + 1)) c,
     [EvLock (u32 (shardid c + 1) mod Concurrency c);
      EvUnlock (u32 (shardid c + 1) mod Concurrency c)]).
Proof.
  intros Hst Hargs. unfold doSend, bind, get. cbn [Cancelled]. rewrite Hargs.
  unfold getShard, Lock, Unlock, emit, ret. rewrite Hst. reflexivity.
Qed.

Lemma doSendBatch_closed c requests cb start flags now :
  state c = connClosed -> requests <> [] -> Cancelled cb = false ->
  doSendBatch requests cb start flags now c
  = (Some (Wrap (err c ErrKindContext ErrContextClosed) (ctxErr c)),
     set_shardid (u32 (shardid c + 1)) c,
     [EvLock (u32 (shardid c + 1) mod Concurrency c);
      EvUnlock (u32 (shardid c + 1) mod Concurrency c)]).
Proof.
  intros Hst Hne Hcb. unfold doSendBatch.
  destruct requests as [|r requests]; [congruence|]. cbn [length Nat.eqb].
  unfold bind, get. rewrite Hcb.
  unfold getShard, Lock, Unlock, emit, ret. rewrite Hst. reflexivity.
Qed.

Lemma resolveBatch_no_errpos cb start commonerr : forall len i,
  0 <= i ->
  resolveBatch cb start (-1) None commonerr i len
  = flat_map (fun j => resolve cb (RError commonerr) (u64 (start + u64 j)))
      (range i len).
Proof.
  induction len as [|len IH]; intros i Hi; [reflexivity|].
  cbn [resolveBatch range flat_map]. rewrite IH by lia.
  destruct (Z.eqb_spec i (-1)); [lia|]. reflexivity.
Qed.

Lemma resolve_transaction_range cb l off res : forall len i,
  0 <= i -> i + Z.of_nat len <= l -> l < 2 ^ 64 ->
  flat_map (fun j => resolve (transactionFuture cb l off) res (u64 (0 + u64 j)))
    (range i len) = [].
Proof.
  induction len as [|len IH]; intros i Hi Hl Hl'; [reflexivity|].
  cbn [range flat_map]. rewrite IH by lia.
  unfold resolve. rewrite Resolve_transaction_below by lia. reflexivity.
Qed.

Lemma resolve_callback_range id flag start res len : forall i,
  flat_map (fun j => resolve (Callback id flag) res (u64 (start + u64 j)))
    (range i len)
  = map (fun j => EvResolve (mkResolved id res (u64 (start + u64 j)))) (range i len).
Proof.
  induction len as [|len IH]; intros i; [reflexivity|].
  cbn [range flat_map map]. rewrite IH. reflexivity.
Qed.

Lemma resolves_EvResolve l : resolves (map EvResolve l) = l.
Proof. induction l as [|r l IH]; simpl; congruence. Qed.

Lemma notifies_EvResolve l : notifies (map EvResolve l) = [].
Proof. induction l as [|r l IH]; simpl; congruence. Qed.

(** C6, as amended: after the state has become closed, a submission whose
    future is not cancelled and whose requests are well formed (and, for a
    transaction, not none) sends nothing on the channel, so it does not
    block, leaves the shards as they are, and resolves every index of the
    submission once with a context-closed error that wraps the cause of the
    context. *)
Theorem closed_connection_fails_submissions
  c id req requests reqs n start off now :
  state c = connClosed ->
  CheckArgs req = None ->
  Forall (fun r => CheckArgs r = None) requests ->
  Forall (fun r => CheckArgs r = None) reqs ->
  reqs <> [] -> Z.of_nat (length reqs) < 2 ^ 63 ->
  failsClosed c id [n] (Send req (Some (Callback id false)) n now c) /\
  failsClosed c id (indices start (length requests))
    (SendBatch requests (Callback id false) start now c) /\
  failsClosed c id [off] (SendTransaction reqs (Callback id false) off now c).
Proof.
  intros Hst Hreq Hrequests Hreqs Hne Hlen.
  split; [|split].
  - unfold Send, SendAsk, bind. cbn [default]. unfold Datatypes.id.
    rewrite doSend_closed by assumption.
    unfold get, emit. cbn [failsClosed].
    repeat split. eexists. split; [|reflexivity]. repeat split.
  - unfold SendBatch, SendBatchFlags, bind, get.
    rewrite checkBatch_none by assumption.
    destruct requests as [|r requests].
    + cbn. repeat split.
      exists (Wrap (err c ErrKindContext ErrContextClosed) (ctxErr c)).
      split; [|reflexivity]. repeat split.
    + rewrite doSendBatch_closed by (assumption || discriminate || reflexivity).
      unfold ret, emit. cbn [failsClosed fst snd].
      change (Z.land 0 DoTransaction =? 0) with true. cbn [negb].
      rewrite resolveBatch_no_errpos, resolve_callback_range by lia.
      repeat split.
      * rewrite !notifies_app. cbn [notifies app].
        rewrite <- map_map, notifies_EvResolve. reflexivity.
      * eexists. split; [|rewrite !resolves_app; cbn [resolves app];
                           rewrite !app_nil_r, <- map_map, resolves_EvResolve;
                           unfold indices; rewrite map_map; reflexivity].
        repeat split.
  - unfold SendTransaction, bind, get. cbn [Cancelled].
    unfold SendBatchFlags, bind, get. rewrite checkBatch_none by assumption.
    rewrite doSendBatch_closed by (assumption || reflexivity).
    unfold ret, emit. cbn [failsClosed fst snd].
    change (Z.land DoTransaction DoTransaction =? 0) with false. cbn [negb].
    rewrite resolveBatch_no_errpos, resolve_transaction_range by lia.
    unfold resolve. rewrite Resolve_transaction_at by lia.
    repeat split. eexists. split; [|reflexivity]. repeat split.
Qed.

(** C10, as amended: on a connection that is not closed, a transaction
    without requests whose future is not cancelled resolves the future once,
    with the empty array at [off], and touches no shard. *)
Theorem empty_transaction_resolves_once c id off now :
  state c <> connClosed ->
  resolvesEmpty c id off (SendTransaction [] (Callback id false) off now c).
Proof.
  intros _. unfold SendTransaction, SendBatchFlags, doSendBatch, bind, get.
  cbn. unfold u64. rewrite Z.eqb_refl. split; reflexivity.
Qed.

(** *** A transaction on a live connection *)

Lemma publish_spec shardn futures c :
  publish shardn futures c
  = (None,
     set_shard (<[Z.to_nat shardn := futures]> (shard c))
       (if (length (shardFutures c shardn) =? 0)%nat
        then set_dirtyShard (dirtyShard c ++ [shardn]) c else c),
     (if (length (shardFutures c shardn) =? 0)%nat then [EvNotify shardn] else [])
     ++ [EvStore shardn; EvUnlock shardn]).
Proof.
  unfold publish, bind, get.
  destruct (length (shardFutures c shardn) =? 0)%nat; reflexivity.
Qed.

Lemma doSendBatch_live c requests cb start flags now :
  state c = connConnecting \/ state c = connConnected ->
  requests <> [] -> Cancelled cb = false ->
  let shardn := u32 (shardid c + 1) mod Concurrency c in
  let c1 := set_shardid (u32 (shardid c + 1)) c in
  doSendBatch requests cb start flags now c
  = (None,
     set_shard (<[Z.to_nat shardn
                  := shardFutures c shardn
                     ++ batchEntries requests cb start flags now]> (shard c))
       (if (length (shardFutures c shardn) =? 0)%nat
        then set_dirtyShard (dirtyShard c ++ [shardn]) c1 else c1),
     EvLock shardn
     :: (if (length (shardFutures c shardn) =? 0)%nat then [EvNotify shardn] else [])
     ++ [EvStore shardn; EvUnlock shardn]).
Proof.
  intros Hst Hne Hcb shardn c1. unfold doSendBatch.
  destruct requests as [|r requests]; [congruence|]. cbn [length Nat.eqb].
  unfold bind at 1, get. rewrite Hcb.
  unfold bind at 1, getShard. fold shardn. fold c1.
  unfold bind at 1, Lock, emit.
  assert ((state c =? connClosed) = false /\ (state c =? connDisconnected) = false)
    as [-> ->] by (destruct Hst as [-> | ->]; split; reflexivity).
  rewrite publish_spec. unfold batchEntries.
  change (shardFutures c1 shardn) with (shardFutures c shardn).
  change (shard c1) with (shard c). change (dirtyShard c1) with (dirtyShard c).
  destruct (negb (Z.land flags DoAsking =? 0)),
           (negb (Z.land flags DoTransaction =? 0));
    cbn [app]; rewrite ?app_nil_r, <- ?app_assoc; cbn [app]; reflexivity.
Qed.






(** *** The dirty-shard invariant *)












(** Between the receive and the exchange the notification is in the
    writer's hand: the shard is not idle and its number is not on the
    channel. *)
Lemma writer_holds_notification N c shardn :
  Inv N c -> (writerReceive c).1.1 = Some shardn ->
  idle (writerReceive c).1.2 shardn = false /\
  pending (writerReceive c).1.2 shardn = 0%nat.
Proof.
  intros HI. unfold writerReceive.
  destruct (dirtyShard c) as [|s rest] eqn:E; [discriminate|].
  cbn [fst snd]. intros [= ->].
  destruct HI as (H1 & H2 & H3 & H4 & H5).
  rewrite E in H4. inversion H4 as [|? ? Hs Hrest]; subst.
  specialize (H5 (Z.to_nat shardn) ltac:(lia)). rewrite Z2Nat.id in H5 by lia.
  unfold pending in *. rewrite E in H5. cbn [dirtyShard set_dirtyShard].
  rewrite filter_cons, decide_True in H5 by reflexivity. cbn [length] in H5.
  change (idle (set_dirtyShard rest c) shardn) with (idle c shardn).
  destruct (idle c shardn); [discriminate | split; [reflexivity | lia]].
Qed.




(** *** The order of the notification and the store *)



















End ConnFacts.

(** ** The session latch and the address forms *)

Module SessionFacts.
Import Redis Futures.

Lemma Conn_setErrs_latched neterrs address one :
  Conn.erronce one = true -> snd (Conn.setErrs neterrs address one) = [].
Proof.
  revert one. induction neterrs as [|neterr rest IH]; intros one H; [reflexivity|].
  cbn [Conn.setErrs]. unfold Conn.setErr. rewrite H.
  specialize (IH one H). destruct (Conn.setErrs rest address one). exact IH.
Qed.

(** With the [go] statement under the latch, a session starts the reconnect
    task once at most, however many times [setErr] is called. *)
Lemma Conn_setErr_spawns_once neterrs address one :
  (length (snd (Conn.setErrs neterrs address one)) <= 1)%nat.
Proof.
  destruct neterrs as [|neterr rest]; [simpl; lia|].
  cbn [Conn.setErrs]. unfold Conn.setErr.
  destruct (Conn.erronce one) eqn:E.
  - pose proof (Conn_setErrs_latched rest address one E) as H.
    destruct (Conn.setErrs rest address one). simpl in *. subst. simpl. lia.
  - match goal with
    | |- context [Conn.setErrs rest address ?o] =>
        pose proof (Conn_setErrs_latched rest address o eq_refl) as H;
        destruct (Conn.setErrs rest address o)
    end.
    simpl in *. subst. simpl. lia.
Qed.

(** C8 on [redisconn/conn.go]: the [go] statement follows [Do], so every
    call of [setErr] starts a reconnect task; two calls on one session start
    two. *)
Theorem ConnBuf_setErr_spawns_on_every_call :
  (forall neterrs address one,
     length (snd (ConnBuf.setErrs neterrs address one)) = length neterrs) /\
  snd (ConnBuf.setErrs [CauseForeign "write: broken pipe"; CauseForeign "EOF"]
         (str "h:1") ConnBuf.newOneconn)
  = [ConnBuf.GoReconnect (CauseForeign "write: broken pipe");
     ConnBuf.GoReconnect (CauseForeign "EOF")].
Proof.
  split; [|reflexivity].
  induction neterrs as [|neterr rest IH]; intros address one; [reflexivity|].
  cbn [ConnBuf.setErrs]. unfold ConnBuf.setErr.
  match goal with
  | |- context [ConnBuf.setErrs rest address ?o] =>
      specialize (IH address o); destruct (ConnBuf.setErrs rest address o)
  end.
  simpl in *. congruence.
Qed.

Import Dial.

(** [dial] panics exactly on the addresses shorter than seven bytes that do
    not start with a dot or a slash. *)
Lemma dialTarget_panics address :
  dialTarget address = None <->
  (length address < 7)%nat /\
  (forall a0, address !! 0%nat = Some a0 -> a0 <> 46 /\ a0 <> 47).
Proof.
  unfold dialTarget, index, slice.
  destruct address as [|a0 rest].
  - simpl. split; [intros _; split; [lia | discriminate] | reflexivity].
  - cbn [lookup list_lookup].
    destruct (Z.eqb_spec a0 46) as [->|H46].
    { simpl. split; [discriminate|]. intros [_ H]. destruct (H 46 eq_refl). congruence. }
    destruct (Z.eqb_spec a0 47) as [->|H47].
    { simpl. split; [discriminate|]. intros [_ H]. destruct (H 47 eq_refl). congruence. }
    cbn [orb].
    change (0 <=? 7)%nat with true. change (0 <=? 6)%nat with true.
    destruct (Nat.leb_spec 7 (length (a0 :: rest))) as [Hlen|Hlen].
    + cbn [andb].
      match goal with
      | |- context [bool_decide ?P] => destruct (bool_decide P)
      end; [split; [discriminate | lia]|].
      replace (6 <=? length (a0 :: rest))%nat with true
        by (symmetry; apply Nat.leb_le; lia).
      cbn [andb].
      match goal with
      | |- context [bool_decide ?P] => destruct (bool_decide P)
      end; split; (discriminate || lia).
    + cbn [andb]. split; [|reflexivity]. intros _. split; [lia|].
      intros a [= <-]. split; assumption.
Qed.

(** C9 on the two connections: [Connect] accepts ["x:6379"], and [dial]
    panics on it when it takes [address[0:7]]. *)
Theorem dial_panics_on_short_address :
  acceptedByConnect (str "x:6379") = true /\ dialTarget (str "x:6379") = None.
Proof. split; reflexivity. Qed.

End SessionFacts.

(** ** Submission on the connection of [redisconn/conn.go] *)

Module ConnBufFacts.
Import Redis Resp RedisCheck Futures ConnBuf.

Section WithStrconv.
Context {strconv : Strconv}.





Lemma length_range len : forall i, length (range i len) = len.
Proof. induction len as [|len IH]; intros i; simpl; [|rewrite IH]; reflexivity. Qed.


Lemma appendBatch_bad cb start : forall requests i b futs,
  Exists (fun r => CheckArgs r <> None) requests ->
  exists j req e,
    appendBatch cb start i requests b futs = inr (j, req, e) /\
    ErrCode e = ErrArgumentType.
Proof.
  induction requests as [|req requests IH]; intros i b futs H; [inversion H|].
  cbn [appendBatch].
  pose proof (RedisFacts.CheckArgs_AppendRequest b req) as E.
  unfold resp_AppendRequest. destruct (AppendRequest b req) as [b1 [e|]];
    simpl in E.
  - exists i, req, e. split; [reflexivity|].
    apply (RedisFacts.CheckArgs_code req). congruence.
  - inversion H as [? ? Hreq|? ? Hrest]; subst; [congruence|].
    apply IH, Hrest.
Qed.

Lemma resolveMalformed_indices id flag start i e common_err : forall n j,
  map res_n (resolveMalformed (Callback id flag) start i e common_err j n)
  = map (fun k => u64 (start + u64 k)) (range j n).
Proof.
  induction n as [|n IH]; intros j; [reflexivity|].
  cbn [resolveMalformed range]. destruct (Z.eqb_spec j i) as [->|Hne];
    cbn [Resolve app map]; rewrite IH; reflexivity.
Qed.

(** On a live connection a batch with a request that does not serialize
    leaves the shard and the channel as they are and resolves the indices
    [start .. start+n-1], whatever the flags: with the transaction flag the
    index [start+n] of EXEC has no call. *)
Lemma ConnBuf_malformed_batch c requests id start flags :
  state c = connConnecting \/ state c = connConnected ->
  Exists (fun r => CheckArgs r <> None) requests ->
  let '(_, c', t) := SendBatchFlags requests (Callback id false) start flags c in
  shard c' = shard c /\ dirtyShard c' = dirtyShard c /\
  map res_n (resolves t) = indices start (length requests).
Proof.
  intros Hst Hbad. unfold SendBatchFlags.
  replace (length requests =? 0)%nat with false
    by (destruct requests; [inversion Hbad | reflexivity]).
  unfold bind at 1, get. unfold Active. cbn [Cancelled negb].
  unfold bind at 1, getShard. unfold bind at 1, Lock, emit.
  assert ((state c =? connClosed) = false /\ (state c =? connDisconnected) = false)
    as [-> ->] by (destruct Hst as [-> | ->]; split; reflexivity).
  destruct (negb (Z.land flags DoAsking =? 0)),
           (negb (Z.land flags DoTransaction =? 0));
    match goal with
    | |- context [appendBatch ?cb ?st ?i requests ?b ?f] =>
        destruct (appendBatch_bad cb st requests i b f Hbad)
          as (j & req & e & -> & _)
    end;
    unfold bind, Unlock, emit; cbn [fst snd resolves app];
    repeat split; rewrite app_nil_r; apply resolveMalformed_indices.
Qed.

(** C2 on [redisconn/conn.go]: a transaction whose request does not
    serialize resolves the index of the request and no other; the index of
    EXEC, 11 here, stays unresolved. *)
Theorem ConnBuf_malformed_transaction_skips_EXEC :
  let c := Examples.connectedBuf in
  let requests := [mkRequest (str "GET") [AOther 0]] in
  let '(_, c', t) := SendBatchFlags requests (Callback 7 false) 10 DoTransaction c in
  shard c' = shard c /\ dirtyShard c' = dirtyShard c /\
  map res_n (resolves t) = [10] /\
  Forall (fun r => exists e, res_res r = RError e /\ ErrCode e = ErrArgumentType)
    (resolves t).
Proof.
  cbn. repeat split. repeat constructor. eexists. split; reflexivity.
Qed.

(** On a closed connection the batch returns from the [switch]: no index is
    resolved. *)
Lemma ConnBuf_closed_batch_unresolved c requests cb start flags :
  state c = connClosed -> Active cb = true ->
  resolves (SendBatchFlags requests cb start flags c).2 = [].
Proof.
  intros Hst Hcb. unfold SendBatchFlags.
  destruct (length requests =? 0)%nat; [reflexivity|].
  unfold bind, get. rewrite Hcb. cbn [negb].
  unfold getShard, Lock, Unlock, emit. rewrite Hst. reflexivity.
Qed.

(** [Send] on a closed connection starts the task that resolves the future
    with the context-closed error. *)
Lemma ConnBuf_closed_Send_resolves c req id n :
  state c = connClosed ->
  resolves (Send req (Some (Callback id false)) n c).2
  = [mkResolved id
       (RError (With (NewErrWrap ErrKindContext ErrContextClosed (ctxErr c))
                  "connection" (CVConn (addr c)))) n].
Proof.
  intros Hst. unfold Send, SendAsk, doSend, bind, get. unfold Active.
  cbn [default from_option Datatypes.id Cancelled negb].
  unfold getShard, Lock, Unlock, emit, ret. rewrite Hst. reflexivity.
Qed.

(** A transaction without requests returns at once: the future is not
    resolved. *)
Lemma ConnBuf_empty_transaction_unresolved c id off :
  SendTransaction [] (Callback id false) off c = (tt, c, []).
Proof. reflexivity. Qed.

End WithStrconv.

End ConnBufFacts.

(** ** The claims about both connections, and the examples *)

Module Claims.
Import Redis Resp RedisCheck Futures Examples.



(** C6, as stated, fails for a cancelled future: after the close, [Send]
    resolves it with the request-cancelled error. *)
Lemma closed_Send_cancelled_counterexample :
  Conn.state closed = Conn.connClosed /\
  ~ Conn.failsClosed closed 7 [3]
      (Conn.Send getA (Some (Callback 7 true)) 3 0 closed).
Proof.
  split; [reflexivity|]. intros H. vm_compute in H.
  destruct H as (_ & _ & _ & e & (_ & Hcode & _) & Hr).
  injection Hr as Hr. subst e. discriminate Hcode.
Qed.

Lemma closed_connection_fails_submissions_witness :
  Conn.failsClosed closed 7 [3]
    (Conn.Send getA (Some (Callback 7 false)) 3 0 closed) /\
  Conn.failsClosed closed 7 (indices 10 (length [getA; getA]))
    (Conn.SendBatch [getA; getA] (Callback 7 false) 10 0 closed) /\
  Conn.failsClosed closed 7 [5]
    (Conn.SendTransaction [getA] (Callback 7 false) 5 0 closed).
Proof.
  apply (ConnFacts.closed_connection_fails_submissions closed 7 getA
           [getA; getA] [getA] 3 10 5 0).
  - reflexivity.
  - reflexivity.
  - repeat constructor.
  - repeat constructor.
  - discriminate.
  - reflexivity.
Defined.

(** C10, as stated, fails for a cancelled future: it is resolved with the
    request-cancelled error, not with the empty array. *)
Lemma empty_transaction_cancelled_counterexample :
  Conn.state connected <> Conn.connClosed /\
  ~ Conn.resolvesEmpty connected 7 5
      (Conn.SendTransaction [] (Callback 7 true) 5 0 connected).
Proof.
  split; [discriminate|]. intros H. vm_compute in H.
  destruct H as [_ H]. discriminate H.
Qed.

Lemma empty_transaction_resolves_once_witness :
  Conn.resolvesEmpty connected 7 5
    (Conn.SendTransaction [] (Callback 7 false) 5 0 connected).
Proof.
  apply (ConnFacts.empty_transaction_resolves_once connected 7 5 0). discriminate.
Defined.


End Claims.

(** ** Laws of the serializer *)

Module SerializerLaws.
Import Redis Resp RedisCheck Stream RedisFacts.

(** *** Every function appends *)

Lemma patchLen_app b y (l0 : nat) li :
  (4 <= l0)%nat ->
  patchLen (b ++ y) (length b + l0) li = b ++ patchLen y l0 li.
Proof.
  intros Hl. unfold patchLen.
  replace (length b + l0 - 3)%nat with (length b + (l0 - 3))%nat by lia.
  replace (length b + l0 - 4)%nat with (length b + (l0 - 4))%nat by lia.
  destruct (li <? 10); rewrite ?insert_app_r; reflexivity.
Qed.

Lemma appendBulkInt_app b i : appendBulkInt b i = b ++ appendBulkInt [] i.
Proof.
  unfold appendBulkInt.
  destruct ((-99999999 <=? i) && (i <=? 999999999));
    rewrite (appendInt_app (b ++ _)), (appendInt_app ([] ++ _));
    rewrite <- !app_assoc, !length_app; cbn [app length];
    match goal with
    | |- patchLen _ _ (u8 (Z.of_nat (length b + ?n) - Z.of_nat (length b + ?m)))
         = _ =>
        replace (Z.of_nat (length b + n) - Z.of_nat (length b + m))
          with (Z.of_nat n - Z.of_nat m) by lia
    end;
    apply patchLen_app; lia.
Qed.

Lemma appendBulkUint_app b u : appendBulkUint b u = b ++ appendBulkUint [] u.
Proof.
  unfold appendBulkUint.
  destruct (u <=? 999999999);
    rewrite (appendUint_app (b ++ _)), (appendUint_app ([] ++ _));
    rewrite <- !app_assoc, !length_app; cbn [app length];
    match goal with
    | |- patchLen _ _ (u8 (Z.of_nat (length b + ?n) - Z.of_nat (length b + ?m)))
         = _ =>
        replace (Z.of_nat (length b + n) - Z.of_nat (length b + m))
          with (Z.of_nat n - Z.of_nat m) by lia
    end;
    apply patchLen_app; lia.
Qed.

Lemma appendCmd_app buf req : appendCmd buf req = buf ++ appendCmd [] req.
Proof.
  unfold appendCmd. cbv zeta.
  destruct (findSpace (Cmd req) 0 (-1) =? -1);
    repeat (rewrite (appendHead_app (_ ++ _))
            || rewrite (appendHead_app (appendHead _ _ _)));
    rewrite !(appendHead_app buf), <- !app_assoc; reflexivity.
Qed.

Section WithStrconv.
Context {strconv : Strconv}.

Lemma appendArg_app buf a :
  appendArg buf a = option_map (app buf) (appendArg [] a).
Proof.
  destruct a; cbn [appendArg option_map];
    rewrite ?(appendBulkInt_app buf), ?(appendBulkUint_app buf),
            ?(appendHead_app buf), <- ?app_assoc; reflexivity.
Qed.

Lemma appendArgs_app req args : forall buf,
  appendArgs req buf args
  = match appendArgs req [] args with
    | (out, None) => (buf ++ out, None)
    | (_, Some e) => ([], Some e)
    end.
Proof.
  induction args as [|a args IH]; intros buf.
  - simpl. rewrite app_nil_r. reflexivity.
  - cbn [appendArgs]. rewrite appendArg_app.
    destruct (appendArg [] a) as [y|]; cbn [option_map]; [|reflexivity].
    rewrite (IH ((buf ++ y) ++ CRLF)), (IH (y ++ CRLF)).
    destruct (appendArgs req [] args) as [out [e|]]; [reflexivity|].
    rewrite <- !app_assoc. reflexivity.
Qed.

Lemma AppendRequest_app buf req :
  AppendRequest buf req
  = match AppendRequest [] req with
    | (out, None) => (buf ++ out, None)
    | (_, Some e) => ([], Some e)
    end.
Proof.
  unfold AppendRequest. rewrite appendCmd_app.
  rewrite (appendArgs_app req (Args req) (buf ++ _)).
  rewrite (appendArgs_app req (Args req) (appendCmd [] req)).
  destruct (appendArgs req [] (Args req)) as [out [e|]]; [reflexivity|].
  rewrite <- app_assoc. reflexivity.
Qed.

End WithStrconv.

(** *** The strings of a request *)



Section WithStrconv2.
Context {strconv : Strconv}.





End WithStrconv2.

(** *** The integer writers *)

(** X1: for every [int64], [appendInt] leaves what the buffer held and adds
    the canonical decimal text of the number: an optional minus sign and
    digits without a leading zero, which denote the number.  This covers
    [math.MinInt64], whose negation wraps around. *)
Theorem appendInt_writes_canonical_text b i :
  - 2 ^ 63 <= i < 2 ^ 63 ->
  exists s, appendInt b i = b ++ s /\ integerForm s = true /\ number s = i.
Proof.
  intros Hi. exists (textInt i).
  rewrite appendInt_app, appendInt_text by assumption.
  split; [reflexivity|]. split; [apply textInt_form | apply textInt_number]; assumption.
Qed.

Lemma appendInt_writes_canonical_text_witness :
  exists s, appendInt [36] (- 2 ^ 63) = [36] ++ s /\
            integerForm s = true /\ number s = - 2 ^ 63.
Proof. apply (appendInt_writes_canonical_text [36] (- 2 ^ 63)). lia. Defined.

(** X2: for every [uint64], [appendUint] leaves what the buffer held and
    adds digits that denote the number; the twenty slots are enough.  For a
    number above zero the digits are its canonical text, and for zero the
    function adds nothing at all. *)
Theorem appendUint_writes_digits b u :
  0 <= u < 2 ^ 64 ->
  exists s, appendUint b u = b ++ s /\ value s = u /\
            (0 < u -> decimalForm s = true) /\ (u = 0 -> s = []).
Proof.
  intros Hu. exists (decimal u). rewrite appendUint_decimal by lia.
  split; [reflexivity|]. split; [apply decimal_value, Hu|].
  split; [intros Hp; apply decimal_form; lia | intros ->; reflexivity].
Qed.

Lemma appendUint_writes_digits_witness :
  exists s, appendUint [] (2 ^ 64 - 1) = [] ++ s /\ value s = 2 ^ 64 - 1 /\
            (0 < 2 ^ 64 - 1 -> decimalForm s = true) /\ (2 ^ 64 - 1 = 0 -> s = []).
Proof. apply (appendUint_writes_digits [] (2 ^ 64 - 1)). lia. Defined.

(** X3: what [appendHead] writes for a count is read back as that count by
    a RESP reader, whatever bytes follow, and the buffer is left as it
    was. *)
Theorem appendHead_read_back b t n rest :
  0 <= n < 2 ^ 63 ->
  exists h, appendHead b t n = b ++ h /\ readHead t (h ++ rest) = Some (n, rest).
Proof.
  intros Hn. exists ([t] ++ textInt n ++ CRLF).
  rewrite appendHead_app, appendHead_text by assumption.
  split; [reflexivity|]. rewrite <- !app_assoc. apply readHead_text, Hn.
Qed.

Lemma appendHead_read_back_witness :
  exists h, appendHead [1] 42 1234567 = [1] ++ h /\
            readHead 42 (h ++ [36]) = Some (1234567, [36]).
Proof. apply (appendHead_read_back [1] 42 1234567 [36]). lia. Defined.

(** X4: [appendBulkInt] writes a well-formed bulk string for every [int64]:
    the length it patches into the one or two bytes it reserved is the
    length of the text, and the text is the canonical decimal of the
    number. *)
Theorem appendBulkInt_writes_bulk b i :
  - 2 ^ 63 <= i < 2 ^ 63 ->
  exists s, appendBulkInt b i ++ CRLF = b ++ bulk s /\
            integerForm s = true /\ number s = i /\
            forall rest, readBulk (bulk s ++ rest) = Some (s, rest).
Proof.
  intros Hi. exists (textInt i).
  assert (Hfit : fits (textInt i) = true).
  { apply Z.ltb_lt.
    destruct (Z_le_dec (-99999999) i) as [H1|H1];
      [destruct (Z_le_dec i 999999999) as [H2|H2]|].
    - pose proof (length_textInt_short i ltac:(lia)). lia.
    - pose proof (length_textInt_long i Hi ltac:(lia)). lia.
    - pose proof (length_textInt_long i Hi ltac:(lia)). lia. }
  rewrite appendBulkInt_head by assumption.
  split; [apply appendHead_bulk, Hfit|].
  split; [apply textInt_form, Hi|]. split; [apply textInt_number, Hi|].
  intros rest. apply readBulk_bulk, Hfit.
Qed.

Lemma appendBulkInt_writes_bulk_witness :
  exists s, appendBulkInt [] (-100000000) ++ CRLF = [] ++ bulk s /\
            integerForm s = true /\ number s = -100000000 /\
            forall rest, readBulk (bulk s ++ rest) = Some (s, rest).
Proof. apply (appendBulkInt_writes_bulk [] (-100000000)). lia. Defined.

(** X5: [appendBulkUint] writes a well-formed bulk string for every
    [uint64]: the patched length is the length of the digits, and the digits
    denote the number.  At zero the bulk string is the empty one. *)
Theorem appendBulkUint_writes_bulk b u :
  0 <= u < 2 ^ 64 ->
  exists s, appendBulkUint b u ++ CRLF = b ++ bulk s /\ value s = u /\
            (0 < u -> decimalForm s = true) /\ (u = 0 -> s = []) /\
            forall rest, readBulk (bulk s ++ rest) = Some (s, rest).
Proof.
  intros Hu. exists (decimal u).
  assert (Hfit : fits (decimal u) = true).
  { apply Z.ltb_lt.
    pose proof (length_decimal_le u 20 ltac:(rewrite pow10_20; lia)). lia. }
  rewrite appendBulkUint_head by assumption.
  split; [apply appendHead_bulk, Hfit|].
  split; [apply decimal_value, Hu|].
  split; [intros Hp; apply decimal_form; lia|].
  split; [intros ->; reflexivity|].
  intros rest. apply readBulk_bulk, Hfit.
Qed.

Lemma appendBulkUint_writes_bulk_witness :
  exists s, appendBulkUint [7] 1000000000 ++ CRLF = [7] ++ bulk s /\
            value s = 1000000000 /\
            (0 < 1000000000 -> decimalForm s = true) /\
            (1000000000 = 0 -> s = []) /\
            forall rest, readBulk (bulk s ++ rest) = Some (s, rest).
Proof. apply (appendBulkUint_writes_bulk [7] 1000000000). lia. Defined.

(** *** The request writer *)

Section RequestWriter.
Context {strconv : Strconv}.

Lemma appendArgs_refuses req a post : forall pre buf,
  forallb supported pre = true -> supported a = false ->
  appendArgs req buf (pre ++ a :: post)
  = ([], Some (With (With (NewErr ErrKindRequest ErrArgumentType) "val" (CVArg a))
                 "request" (CVRequest req))).
Proof.
  induction pre as [|p pre IH]; intros buf Hpre Ha.
  - destruct a; try discriminate. reflexivity.
  - cbn [forallb] in Hpre. apply andb_true_iff in Hpre as [Hp Hpre].
    cbn [app appendArgs].
    destruct (appendArg buf p) as [buf'|] eqn:E;
      [apply IH; assumption | destruct p; discriminate].
Qed.

Lemma appendArgs_accepts req : forall args buf,
  forallb supported args = true -> snd (appendArgs req buf args) = None.
Proof.
  induction args as [|a args IH]; intros buf H; [reflexivity|].
  cbn [forallb] in H. apply andb_true_iff in H as [Ha Hargs].
  cbn [appendArgs].
  destruct (appendArg buf a) as [buf'|] eqn:E;
    [apply IH, Hargs | destruct a; discriminate].
Qed.

Lemma first_unsupported args :
  forallb supported args = false ->
  exists pre a post,
    args = pre ++ a :: post /\ forallb supported pre = true /\ supported a = false.
Proof.
  induction args as [|x args IH]; intros H; [discriminate|].
  cbn [forallb] in H. destruct (supported x) eqn:Ex.
  - destruct (IH H) as (pre & a & post & -> & Hpre & Ha).
    exists (x :: pre), a, post. cbn [forallb]. rewrite Ex. auto.
  - exists [], x, args. auto.
Qed.

(** X6: [AppendRequest] either extends the buffer it was given, by bytes
    that do not depend on what the buffer held, or fails and returns the nil
    buffer with an error that does not depend on the buffer either: on
    failure the caller's bytes are not handed back. *)
Theorem AppendRequest_extends_or_drops buf req :
  match AppendRequest buf req with
  | (out, None) => exists tail, out = buf ++ tail /\ AppendRequest [] req = (tail, None)
  | (out, Some e) => out = [] /\ AppendRequest [] req = ([], Some e)
  end.
Proof.
  rewrite AppendRequest_app.
  pose proof (AppendRequest_app [] req) as H0.
  destruct (AppendRequest [] req) as [tail [e|]].
  - split; [reflexivity|]. exact H0.
  - exists tail. split; reflexivity.
Qed.

(** X7: [AppendRequest] fails at the first argument whose type the switch
    does not list, whatever follows it: the buffer returned is nil and the
    error has kind request and code argument type and carries that argument
    as [val] and the whole request as [request]. *)
Theorem AppendRequest_fails_at_first_unsupported buf req pre a post :
  Args req = pre ++ a :: post ->
  forallb supported pre = true -> supported a = false ->
  AppendRequest buf req
  = ([], Some (MkError ErrKindRequest ErrArgumentType
                 [("request"%string, CVRequest req); ("val"%string, CVArg a)]
                 NoCause)).
Proof.
  intros E Hpre Ha. unfold AppendRequest. rewrite E.
  apply appendArgs_refuses; assumption.
Qed.

(** X8: [AppendRequest] returns an error exactly when an argument has a type
    the switch does not list; the command name and the values of the
    arguments play no part. *)
Theorem AppendRequest_fails_iff_unsupported buf req :
  snd (AppendRequest buf req) = None <-> forallb supported (Args req) = true.
Proof.
  split.
  - intros H. destruct (forallb supported (Args req)) eqn:E; [reflexivity|].
    destruct (first_unsupported _ E) as (pre & a & post & Eargs & Hpre & Ha).
    unfold AppendRequest in H. rewrite Eargs in H.
    rewrite appendArgs_refuses in H by assumption. discriminate.
  - intros H. apply appendArgs_accepts, H.
Qed.

(** X9: for every argument of a listed type but an unsigned zero,
    [ArgToString] answers [true] with the canonical text: strings and byte
    strings as they are, integers in decimal, booleans as 1 and 0, floats as
    [FormatFloat] prints them, nil as the empty string. *)
Theorem ArgToString_writes_canonical_text a :
  wfArg a = true -> unsignedZero a = false ->
  canonical a (fst (ArgToString a)) /\ snd (ArgToString a) = true.
Proof.
  intros Hwf Hz. split; [apply ArgToString_canonical; assumption|].
  destruct a; try reflexivity. discriminate.
Qed.

End RequestWriter.

Lemma AppendRequest_fails_at_first_unsupported_witness :
  let req := mkRequest (str "SET") [AString (str "k"); AOther 3; AOther 5] in
  @AppendRequest exampleStrconv (str "+OK") req
  = ([], Some (MkError ErrKindRequest ErrArgumentType
                 [("request"%string, CVRequest req); ("val"%string, CVArg (AOther 3))]
                 NoCause)).
Proof.
  apply (@AppendRequest_fails_at_first_unsupported exampleStrconv (str "+OK")
           (mkRequest (str "SET") [AString (str "k"); AOther 3; AOther 5])
           [AString (str "k")] (AOther 3) [AOther 5]); reflexivity.
Defined.

Lemma ArgToString_writes_canonical_text_witness :
  @canonical exampleStrconv (AInt8 (-128))
    (fst (@ArgToString exampleStrconv (AInt8 (-128)))) /\
  snd (@ArgToString exampleStrconv (AInt8 (-128))) = true.
Proof.
  apply (@ArgToString_writes_canonical_text exampleStrconv (AInt8 (-128)));
    reflexivity.
Defined.

End SerializerLaws.

(** ** The writer's turn over the futures of a shard *)

Module WriterFacts.
Import Redis Resp RedisCheck Futures Conn Stream Writer RedisFacts SerializerLaws.

Section WithStrconv.
Context {strconv : Strconv}.







(** *** Every queued request passed the check *)

Lemma checked_steady c c' : shard c' = shard c -> checked c -> checked c'.
Proof. unfold checked. intros ->. auto. Qed.











End WithStrconv.



End WriterFacts.

(** ** Submissions that are refused, and submissions that are accepted *)

Module SubmissionFacts.
Import Redis Resp RedisCheck Futures Conn Submission RedisFacts ConnFacts.

Lemma doSend_disconnected c req cb n asking now :
  state c = connDisconnected -> Cancelled cb = false -> CheckArgs req = None ->
  doSend req cb n asking now c
  = (Some (NewErr ErrKindConnection ErrNotConnected),
     set_shardid (u32 (shardid c + 1)) c,
     [EvLock (u32 (shardid c + 1) mod Concurrency c);
      EvUnlock (u32 (shardid c + 1) mod Concurrency c)]).
Proof.
  intros Hst Hcb Hreq. unfold doSend, bind, get. rewrite Hcb, Hreq, Hst. reflexivity.
Qed.

Lemma doSendBatch_disconnected c requests cb start flags now :
  state c = connDisconnected -> requests <> [] -> Cancelled cb = false ->
  doSendBatch requests cb start flags now c
  = (Some (err c ErrKindConnection ErrNotConnected),
     set_shardid (u32 (shardid c + 1)) c,
     [EvLock (u32 (shardid c + 1) mod Concurrency c);
      EvUnlock (u32 (shardid c + 1) mod Concurrency c)]).
Proof.
  intros Hst Hne Hcb. unfold doSendBatch.
  destruct requests as [|r requests]; [congruence|]. cbn [length Nat.eqb].
  unfold bind, get. rewrite Hcb, Hst. reflexivity.
Qed.

Lemma doSendBatch_cancelled c requests cb start flags now :
  requests <> [] -> Cancelled cb = true ->
  doSendBatch requests cb start flags now c
  = (Some (err c ErrKindRequest ErrRequestCancelled), c, []).
Proof.
  intros Hne Hcb. unfold doSendBatch.
  destruct requests as [|r requests]; [congruence|]. cbn [length Nat.eqb].
  unfold bind, get. rewrite Hcb. reflexivity.
Qed.

(** What [SendBatchFlags] does with the error of [doSendBatch]: every index
    of the batch is resolved with it, and the index of EXEC as well. *)
Lemma SendBatchFlags_refused c c' t requests id flag start flags now e :
  Forall (fun r => CheckArgs r = None) requests ->
  doSendBatch requests (Callback id flag) start flags now c = (Some e, c', t) ->
  SendBatchFlags requests (Callback id flag) start flags now c
  = (tt, c',
     t ++ map (fun j => EvResolve (mkResolved id (RError e) (u64 (start + u64 j))))
            (range 0 (length requests
                      + (if negb (Z.land flags DoTransaction =? 0) then 1 else 0)))).
Proof.
  intros Hreqs E. unfold SendBatchFlags, bind, get.
  rewrite checkBatch_none by assumption. rewrite E. unfold ret, emit.
  cbn [app]. rewrite !app_nil_r.
  rewrite resolveBatch_no_errpos, resolve_callback_range by lia.
  destruct (negb (Z.land flags DoTransaction =? 0)).
  - rewrite Nat.add_1_r, range_snoc, map_app. cbn [map resolve Resolve].
    rewrite Z.add_0_l. reflexivity.
  - rewrite Nat.add_0_r, !app_nil_r. reflexivity.
Qed.

Lemma SendTransaction_refused c c' t reqs id off now e :
  Forall (fun r => CheckArgs r = None) reqs ->
  Z.of_nat (length reqs) < 2 ^ 63 ->
  doSendBatch reqs (transactionFuture (Callback id false) (Z.of_nat (length reqs)) off)
    0 DoTransaction now c = (Some e, c', t) ->
  SendTransaction reqs (Callback id false) off now c
  = (tt, c', t ++ [EvResolve (mkResolved id (RError e) off)]).
Proof.
  intros Hreqs Hlen E. unfold SendTransaction, bind, get. cbn [Cancelled].
  unfold SendBatchFlags, bind, get. rewrite checkBatch_none by assumption.
  rewrite E. unfold ret, emit. cbn [fst snd].
  change (Z.land DoTransaction DoTransaction =? 0) with false. cbn [negb].
  rewrite resolveBatch_no_errpos, resolve_transaction_range by lia.
  unfold resolve. rewrite Resolve_transaction_at by lia.
  cbn [app Resolve map]. rewrite !app_nil_r. reflexivity.
Qed.

Lemma refusedWith_locks c id idx e s :
  refusedWith c id idx e
    (tt, set_shardid (u32 (shardid c + 1)) c,
     [EvLock s; EvUnlock s] ++ map (fun n => EvResolve (mkResolved id (RError e) n)) idx).
Proof.
  unfold refusedWith. repeat split.
  - rewrite notifies_app, <- map_map, notifies_EvResolve. reflexivity.
  - rewrite resolves_app, <- map_map, resolves_EvResolve. reflexivity.
Qed.

(** X13: on a disconnected connection, where no connection attempt is under
    way, a submission whose future is not cancelled and whose requests are
    well formed is refused: every index of the submission is resolved once,
    in order, with the not-connected error that names the connection, the
    transaction at [off] only; nothing is queued and the writer is not
    notified. *)
Theorem disconnected_connection_refuses_submissions
  c id req requests reqs n start off now :
  state c = connDisconnected ->
  CheckArgs req = None ->
  Forall (fun r => CheckArgs r = None) requests ->
  Forall (fun r => CheckArgs r = None) reqs ->
  reqs <> [] -> Z.of_nat (length reqs) < 2 ^ 63 ->
  let e := MkError ErrKindConnection ErrNotConnected
             [("connection"%string, CVConn (addr c))] NoCause in
  refusedWith c id [n] e (Send req (Some (Callback id false)) n now c) /\
  refusedWith c id (indices start (length requests)) e
    (SendBatch requests (Callback id false) start now c) /\
  refusedWith c id [off] e (SendTransaction reqs (Callback id false) off now c).
Proof.
  intros Hst Hreq Hrequests Hreqs Hne Hlen e.
  split; [|split].
  - unfold Send, SendAsk, bind. cbn [default]. unfold Datatypes.id.
    rewrite doSend_disconnected by (assumption || reflexivity).
    unfold get, emit.
    apply (refusedWith_locks c id [n]).
  - destruct requests as [|r requests].
    + cbn. repeat split.
    + unfold SendBatch.
      erewrite SendBatchFlags_refused;
        [| assumption
         | apply doSendBatch_disconnected; [assumption | discriminate | reflexivity]].
      change (Z.land 0 DoTransaction =? 0) with true. cbn [negb].
      rewrite Nat.add_0_r. unfold indices.
      rewrite <- (map_map (fun i => u64 (start + u64 i))
                    (fun n => EvResolve (mkResolved id (RError e) n))).
      rewrite <- (map_map _ EvResolve).
      pose proof (refusedWith_locks c id
                    (map (fun i => u64 (start + u64 i)) (range 0 (length (r :: requests))))
                    e) as H.
      rewrite <- (map_map _ EvResolve) in H. apply H.
  - erewrite SendTransaction_refused;
      [| assumption | assumption
       | apply doSendBatch_disconnected; [assumption | assumption | reflexivity]].
    apply (refusedWith_locks c id [off]).
Qed.

Lemma disconnected_connection_refuses_submissions_witness :
  let e := MkError ErrKindConnection ErrNotConnected
             [("connection"%string, CVConn (addr Examples.fresh))] NoCause in
  refusedWith Examples.fresh 7 [3] e
    (Send Examples.getA (Some (Callback 7 false)) 3 0 Examples.fresh) /\
  refusedWith Examples.fresh 7 (indices 10 (length [Examples.getA; Examples.getA])) e
    (SendBatch [Examples.getA; Examples.getA] (Callback 7 false) 10 0 Examples.fresh) /\
  refusedWith Examples.fresh 7 [5] e
    (SendTransaction [Examples.getA] (Callback 7 false) 5 0 Examples.fresh).
Proof.
  apply (disconnected_connection_refuses_submissions Examples.fresh 7 Examples.getA
           [Examples.getA; Examples.getA] [Examples.getA] 3 10 5 0).
  - reflexivity.
  - reflexivity.
  - repeat constructor.
  - repeat constructor.
  - discriminate.
  - cbn. lia.
Defined.

(** X14: a future that is cancelled at the submission is resolved at once
    with the request-cancelled error and the connection is not touched at
    all, whatever its state: no shard is chosen and no lock is taken.
    [Send] does so before it looks at the request, [SendTransaction] before
    it looks at the requests, and [SendBatch] for every index of a batch of
    well-formed requests; [Send] adds the connection to the error a second
    time. *)
Theorem cancelled_future_is_resolved_at_once c id req requests reqs n start off now :
  Forall (fun r => CheckArgs r = None) requests ->
  let e := MkError ErrKindRequest ErrRequestCancelled
             [("connection"%string, CVConn (addr c))] NoCause in
  Send req (Some (Callback id true)) n now c
  = (tt, c, [EvResolve (mkResolved id
                          (RError (With e "connection" (CVConn (addr c)))) n)]) /\
  SendBatch requests (Callback id true) start now c
  = (tt, c, map (fun k => EvResolve (mkResolved id (RError e) k))
              (indices start (length requests))) /\
  SendTransaction reqs (Callback id true) off now c
  = (tt, c, [EvResolve (mkResolved id (RError e) off)]).
Proof.
  intros Hrequests e. split; [|split].
  - reflexivity.
  - destruct requests as [|r requests]; [reflexivity|].
    unfold SendBatch.
    erewrite SendBatchFlags_refused;
      [| assumption | apply doSendBatch_cancelled; [discriminate | reflexivity]].
    change (Z.land 0 DoTransaction =? 0) with true. cbn [negb app].
    rewrite Nat.add_0_r. unfold indices. rewrite map_map. reflexivity.
  - reflexivity.
Qed.

Lemma cancelled_future_is_resolved_at_once_witness :
  let c := Examples.closed in
  let e := MkError ErrKindRequest ErrRequestCancelled
             [("connection"%string, CVConn (addr c))] NoCause in
  Send (mkRequest (str "GET") [AOther 0]) (Some (Callback 7 true)) 3 0 c
  = (tt, c, [EvResolve (mkResolved 7
                          (RError (With e "connection" (CVConn (addr c)))) 3)]) /\
  SendBatch [Examples.getA; Examples.getA] (Callback 7 true) 10 0 c
  = (tt, c, map (fun k => EvResolve (mkResolved 7 (RError e) k))
              (indices 10 (length [Examples.getA; Examples.getA]))) /\
  SendTransaction [mkRequest (str "GET") [AOther 0]] (Callback 7 true) 5 0 c
  = (tt, c, [EvResolve (mkResolved 7 (RError e) 5)]).
Proof.
  apply (cancelled_future_is_resolved_at_once Examples.closed 7
           (mkRequest (str "GET") [AOther 0]) [Examples.getA; Examples.getA]
           [mkRequest (str "GET") [AOther 0]] 3 10 5 0).
  repeat constructor.
Defined.

(** X15: [Send] refuses a request with an argument of an unlisted type
    before it chooses a shard: the future, if it is not cancelled, is
    resolved once with the argument-type error of the check, to which the
    connection is added, and the connection is not touched, whatever its
    state. *)
Theorem malformed_request_is_refused_untouched c id req n asking now e :
  CheckArgs req = Some e ->
  SendAsk req (Some (Callback id false)) n asking now c
  = (tt, c, [EvResolve (mkResolved id
                          (RError (With e "connection" (CVConn (addr c)))) n)]) /\
  ErrKind e = ErrKindRequest /\ ErrCode e = ErrArgumentType.
Proof.
  intros He. split.
  - unfold SendAsk, doSend, bind, get. cbn [default Cancelled]. unfold Datatypes.id.
    cbn [Cancelled]. rewrite He. reflexivity.
  - split; [|apply (CheckArgs_code req), He].
    revert He. unfold CheckArgs. generalize (Args req) as args.
    induction args as [|a args IH]; [discriminate|]. cbn [checkArgs].
    destruct (supported a); [exact IH|]. intros [= <-]. reflexivity.
Qed.

Lemma malformed_request_is_refused_untouched_witness :
  let req := mkRequest (str "GET") [AOther 0] in
  let e := MkError ErrKindRequest ErrArgumentType
             [("request"%string, CVRequest req); ("val"%string, CVArg (AOther 0))]
             NoCause in
  SendAsk req (Some (Callback 7 false)) 3 true 0 Examples.connected
  = (tt, Examples.connected,
     [EvResolve (mkResolved 7
                   (RError (With e "connection" (CVConn (addr Examples.connected))))
                   3)]) /\
  ErrKind e = ErrKindRequest /\ ErrCode e = ErrArgumentType.
Proof.
  apply (malformed_request_is_refused_untouched Examples.connected 7
           (mkRequest (str "GET") [AOther 0]) 3 true 0).
  reflexivity.
Defined.

(** X16: a batch that holds a malformed request is aborted as a whole
    before a shard is chosen, whatever the state of the connection: the
    connection is not touched, and every index of the batch, with the index
    of EXEC when the batch is a transaction, is resolved once, in order.
    The first malformed request gets its argument-type error, every other
    index the batch-format error that wraps that error. *)
Theorem malformed_batch_is_aborted_as_a_whole c requests id start flags now :
  Exists (fun r => CheckArgs r <> None) requests ->
  let n := (length requests
            + (if negb (Z.land flags DoTransaction =? 0)%Z then 1 else 0))%nat in
  exists errpos e commonerr t,
    SendBatchFlags requests (Callback id false) start flags now c = (tt, c, t) /\
    notifies t = [] /\
    map res_id (resolves t) = repeat id n /\
    map res_n (resolves t) = indices start n /\
    Forall2 (abortedWith errpos e commonerr) (range 0 n) (resolves t) /\
    0 <= errpos < Z.of_nat (length requests) /\
    Forall (fun r => CheckArgs r = None) (take (Z.to_nat errpos) requests) /\
    ErrCode e = ErrArgumentType /\
    ErrCode commonerr = ErrBatchFormat /\ ErrCause commonerr = CauseError e.
Proof.
  intros Hbad n.
  destruct (SendBatchFlags_malformed c requests id false start flags now Hbad)
    as (errpos & e & commonerr & Echeck & Esend).
  destruct (checkBatch_spec c requests requests 0 errpos e commonerr Echeck)
    as (Hpos & He & Hc & _ & Hcause & req & _ & _ & Hpre).
  rewrite Z.sub_0_r in Hpre.
  exists errpos, e, commonerr. eexists. split; [exact Esend|]. fold n.
  rewrite <- (map_map _ EvResolve), resolves_EvResolve, notifies_EvResolve.
  rewrite !map_map. cbn [res_id res_n].
  split; [reflexivity|]. split.
  { replace (repeat id n) with (repeat id (length (range 0 n)))
      by (rewrite ConnBufFacts.length_range; reflexivity).
    generalize (range 0 n). intros l. induction l; cbn; congruence. }
  split; [reflexivity|]. split.
  { generalize (range 0 n). intros l. induction l; constructor; auto. reflexivity. }
  repeat split; try assumption; lia.
Qed.

Lemma malformed_batch_is_aborted_as_a_whole_witness :
  let requests := [Examples.getA; mkRequest (str "GET") [AOther 0]; Examples.getA] in
  let n := (length requests
            + (if negb (Z.land DoTransaction DoTransaction =? 0)%Z then 1 else 0))%nat
  in
  exists errpos e commonerr t,
    SendBatchFlags requests (Callback 7 false) 10 DoTransaction 0 Examples.connected
    = (tt, Examples.connected, t) /\
    notifies t = [] /\
    map res_id (resolves t) = repeat 7%nat n /\
    map res_n (resolves t) = indices 10 n /\
    Forall2 (abortedWith errpos e commonerr) (range 0 n) (resolves t) /\
    0 <= errpos < Z.of_nat (length requests) /\
    Forall (fun r => CheckArgs r = None) (take (Z.to_nat errpos) requests) /\
    ErrCode e = ErrArgumentType /\
    ErrCode commonerr = ErrBatchFormat /\ ErrCause commonerr = CauseError e.
Proof.
  apply (malformed_batch_is_aborted_as_a_whole Examples.connected
           [Examples.getA; mkRequest (str "GET") [AOther 0]; Examples.getA]
           7 10 DoTransaction 0).
  apply Exists_cons_tl, Exists_cons_hd. discriminate.
Defined.

Lemma enqueuedOn_publish c entries t0 :
  wellFormed c ->
  let shardn := u32 (shardid c + 1) mod Concurrency c in
  let c1 := set_shardid (u32 (shardid c + 1)) c in
  resolves t0 = [] -> notifies t0 = [] ->
  enqueuedOn c shardn entries
    (tt, snd (fst (publish shardn (shardFutures c shardn ++ entries) c1)),
     t0 ++ snd (publish shardn (shardFutures c shardn ++ entries) c1)).
Proof.
  intros Hwf shardn c1 Hr Hn.
  pose proof (getShard_range c Hwf) as Hrange. fold shardn in Hrange.
  assert (0 <= shardn) as Hpos
    by (destruct Hwf as [Hc _]; apply Z.mod_pos_bound; lia).
  rewrite publish_spec. cbn [fst snd]. unfold enqueuedOn, idle.
  change (shardFutures c1 shardn) with (shardFutures c shardn).
  change (shard c1) with (shard c). change (dirtyShard c1) with (dirtyShard c).
  rewrite resolves_app, notifies_app, Hr, Hn.
  destruct (length (shardFutures c shardn) =? 0)%nat; repeat split;
    try (intros s Hs Hne); unfold shardFutures;
    cbn [shard dirtyShard set_shard set_dirtyShard set_shardid];
    rewrite ?app_nil_r;
    first [ rewrite list_lookup_insert_eq by assumption; reflexivity
          | rewrite list_lookup_insert_ne by lia; reflexivity
          | reflexivity ].
Qed.

Lemma SendAsk_live c req cb n (asking : bool) now :
  state c = connConnecting \/ state c = connConnected ->
  Cancelled cb = false -> CheckArgs req = None ->
  let shardn := u32 (shardid c + 1) mod Concurrency c in
  let c1 := set_shardid (u32 (shardid c + 1)) c in
  let entries :=
    (if asking then [mkFuture dumb 0 0 (mkRequest (str "ASKING") [])] else [])
    ++ [mkFuture cb n now req] in
  SendAsk req (Some cb) n asking now c
  = (tt, snd (fst (publish shardn (shardFutures c shardn ++ entries) c1)),
     [EvLock shardn] ++ snd (publish shardn (shardFutures c shardn ++ entries) c1)).
Proof.
  intros Hst Hcb Hreq shardn c1 entries.
  unfold SendAsk, doSend, bind, get. cbn [default]. unfold Datatypes.id.
  rewrite Hcb, Hreq. unfold getShard, Lock, emit. fold shardn. fold c1.
  assert ((state c =? connClosed) = false /\ (state c =? connDisconnected) = false)
    as [-> ->] by (destruct Hst as [-> | ->]; split; reflexivity).
  match goal with
  | |- context [publish shardn ?f c1] =>
      replace f with (shardFutures c shardn ++ entries)
        by (unfold entries; destruct asking; cbn [app];
            rewrite ?app_nil_r, <- ?app_assoc; reflexivity)
  end.
  rewrite !publish_spec. unfold ret. cbn [fst snd app]. rewrite app_nil_r.
  reflexivity.
Qed.

(** X17: on a connection that is connecting or connected, [SendAsk] with a
    future that is not cancelled and a well-formed request queues the
    request last on the shard that the counter chooses, behind ASKING when
    that is asked for, with the index and the clock reading it was given; no
    other shard changes, the writer is notified exactly when the shard was
    idle, and the future is not resolved. *)
Theorem live_Send_enqueues_last c req cb n (asking : bool) now :
  wellFormed c ->
  state c = connConnecting \/ state c = connConnected ->
  Cancelled cb = false -> CheckArgs req = None ->
  enqueuedOn c (u32 (shardid c + 1) mod Concurrency c)
    ((if asking then [mkFuture dumb 0 0 (mkRequest (str "ASKING") [])] else [])
     ++ [mkFuture cb n now req])
    (SendAsk req (Some cb) n asking now c).
Proof.
  intros Hwf Hst Hcb Hreq. rewrite SendAsk_live by assumption.
  apply (enqueuedOn_publish c _ [EvLock (u32 (shardid c + 1) mod Concurrency c)] Hwf);
    reflexivity.
Qed.

Lemma live_Send_enqueues_last_witness :
  enqueuedOn Examples.busy (u32 (shardid Examples.busy + 1) mod Concurrency Examples.busy)
    ((if true then [mkFuture dumb 0 0 (mkRequest (str "ASKING") [])] else [])
     ++ [mkFuture (Callback 8 false) 4 99 Examples.getA])
    (SendAsk Examples.getA (Some (Callback 8 false)) 4 true 99 Examples.busy).
Proof.
  apply (live_Send_enqueues_last Examples.busy Examples.getA (Callback 8 false)
           4 true 99).
  - split; [reflexivity | reflexivity].
  - right. reflexivity.
  - reflexivity.
  - reflexivity.
Defined.




(** *** [SendMany] *)

Lemma range_app n m : forall i,
  range i (n + m) = range i n ++ range (i + Z.of_nat n) m.
Proof.
  induction n as [|n IH]; intros i.
  - cbn [range app Nat.add]. rewrite Z.add_0_r. reflexivity.
  - cbn [range app Nat.add]. rewrite IH. do 3 f_equal. lia.
Qed.

Lemma u64_index_shift start i j :
  u64 (u64 (start + u64 i) + u64 j) = u64 (start + u64 (i + j)).
Proof.
  unfold u64. rewrite Z.add_mod_idemp_l by lia.
  rewrite (Z.add_mod_idemp_r _ (i + j)) by lia.
  rewrite (Z.add_mod_idemp_r _ j) by lia.
  replace (start + i mod 2 ^ 64 + j) with (i mod 2 ^ 64 + (start + j)) by lia.
  rewrite Z.add_mod_idemp_l by lia. f_equal. lia.
Qed.

Lemma map_range_shift (f : Z -> Resolved) (g : Z -> Resolved) n : forall i k,
  (forall j, f (k + j) = g j) ->
  map f (range (k + i) n) = map g (range i n).
Proof.
  induction n as [|n IH]; intros i k H; [reflexivity|].
  cbn [range map]. rewrite H. f_equal.
  replace (k + i + 1) with (k + (i + 1)) by lia. apply IH, H.
Qed.

Section Chunks.
Variables (id : nat) (e : Error) (ok : Connection -> Prop).

Hypothesis SendBatch_ok : forall c chunk start' now',
  ok c -> chunk <> [] -> Forall (fun r => CheckArgs r = None) chunk ->
  exists c' t,
    SendBatch chunk (Callback id false) start' now' c = (tt, c', t) /\
    ok c' /\ shard c' = shard c /\ dirtyShard c' = dirtyShard c /\
    state c' = state c /\ notifies t = [] /\
    resolves t
    = map (fun j => mkResolved id (RError e) (u64 (start' + u64 j)))
        (range 0 (length chunk)).

Lemma sendManyLoop_refused requests start now :
  Forall (fun r => CheckArgs r = None) requests ->
  forall steps i c,
    ok c -> (length requests - i <= steps * 16)%nat ->
    refusedWith c id
      (map (fun j => u64 (start + u64 j)) (range (Z.of_nat i) (length requests - i)))
      e (sendManyLoop steps i requests (Callback id false) start now c).
Proof.
  intros Hreqs. induction steps as [|steps IH]; intros i c Hok Hfuel.
  - replace (length requests - i)%nat with 0%nat by lia. cbn. repeat split.
  - cbn [sendManyLoop]. destruct (Nat.ltb_spec i (length requests)) as [Hlt|Hge].
    + set (j := if (length requests <? i + 16)%nat then length requests
                else (i + 16)%nat).
      assert (Hj : (j = length requests /\ length requests < i + 16)%nat
                   \/ (j = i + 16 /\ i + 16 <= length requests)%nat)
        by (unfold j; destruct (Nat.ltb_spec (length requests) (i + 16)); lia).
      clearbody j.
      set (chunk := take (j - i) (drop i requests)).
      assert (Hlen : length chunk = (j - i)%nat)
        by (unfold chunk; rewrite length_take, length_drop; lia).
      destruct (SendBatch_ok c chunk (u64 (start + u64 (Z.of_nat i))) (now i) Hok)
        as (c1 & t1 & E1 & Hok1 & Hs1 & Hd1 & Hst1 & Hn1 & Hr1).
      { intros E. rewrite E in Hlen. cbn in Hlen. lia. }
      { unfold chunk. apply Forall_take, Forall_drop, Hreqs. }
      specialize (IH (i + 16)%nat c1 Hok1 ltac:(lia)).
      unfold bind. rewrite E1.
      destruct (sendManyLoop steps (i + 16) requests (Callback id false) start now c1)
        as [[u c2] t2].
      destruct IH as (Hs2 & Hd2 & Hst2 & Hn2 & Hr2).
      unfold refusedWith. rewrite notifies_app, resolves_app, Hn1, Hn2, Hr1, Hr2.
      repeat split; try congruence.
      replace (length requests - i)%nat
        with ((j - i) + (length requests - (i + 16)))%nat by lia.
      rewrite range_app, !map_app, Hlen, !map_map. cbn [res_id res_n]. f_equal.
      * replace (range (Z.of_nat i) (j - i)) with (range (Z.of_nat i + 0) (j - i))
          by (rewrite Z.add_0_r; reflexivity).
        symmetry. apply map_range_shift. intros k.
        rewrite u64_index_shift. reflexivity.
      * destruct Hj as [[-> Hshort] | [-> Hlong]].
        -- replace (length requests - (i + 16))%nat with 0%nat by lia. reflexivity.
        -- replace (Z.of_nat i + Z.of_nat (i + 16 - i)) with (Z.of_nat (i + 16))
             by lia.
           reflexivity.
    + replace (length requests - i)%nat with 0%nat by lia. cbn. repeat split.
Qed.

End Chunks.

Lemma SendBatch_refused_by_state c chunk id start' now' e :
  chunk <> [] -> Forall (fun r => CheckArgs r = None) chunk ->
  doSendBatch chunk (Callback id false) start' 0 now' c
  = (Some e, set_shardid (u32 (shardid c + 1)) c,
     [EvLock (u32 (shardid c + 1) mod Concurrency c);
      EvUnlock (u32 (shardid c + 1) mod Concurrency c)]) ->
  exists c' t,
    SendBatch chunk (Callback id false) start' now' c = (tt, c', t) /\
    c' = set_shardid (u32 (shardid c + 1)) c /\
    notifies t = [] /\
    resolves t
    = map (fun j => mkResolved id (RError e) (u64 (start' + u64 j)))
        (range 0 (length chunk)).
Proof.
  intros Hne Hchunk E. unfold SendBatch.
  rewrite (SendBatchFlags_refused _ _ _ _ _ _ _ _ _ _ Hchunk E).
  change (Z.land 0 DoTransaction =? 0) with true. cbn [negb]. rewrite Nat.add_0_r.
  eexists. eexists. split; [reflexivity|]. split; [reflexivity|].
  rewrite notifies_app, resolves_app.
  rewrite <- (map_map _ EvResolve), notifies_EvResolve, resolves_EvResolve.
  split; reflexivity.
Qed.

(** X19: [SendMany] hands the requests to [SendBatch] sixteen at a time, and
    the indices of the chunks join up: on a connection that is closed, or
    disconnected, every index from [start] to [start + len(requests) - 1] is
    resolved once, in order, with the error of that state, however many
    chunks there are, and nothing is queued. *)
Theorem SendMany_refused_resolves_every_index c requests id start now :
  Forall (fun r => CheckArgs r = None) requests ->
  (state c = connClosed ->
   refusedWith c id (indices start (length requests))
     (MkError ErrKindContext ErrContextClosed
        [("connection"%string, CVConn (addr c))] (ctxErr c))
     (SendMany requests (Callback id false) start now c)) /\
  (state c = connDisconnected ->
   refusedWith c id (indices start (length requests))
     (MkError ErrKindConnection ErrNotConnected
        [("connection"%string, CVConn (addr c))] NoCause)
     (SendMany requests (Callback id false) start now c)).
Proof.
  intros Hreqs. unfold SendMany, indices.
  replace (range 0 (length requests))
    with (range (Z.of_nat 0) (length requests - 0)) by (rewrite Nat.sub_0_r; reflexivity).
  split; intros Hst.
  - apply (sendManyLoop_refused id _
             (fun c' => state c' = connClosed /\ addr c' = addr c /\
                        ctxErr c' = ctxErr c));
      [| assumption | auto | lia].
    intros c0 chunk start' now' (Hst0 & Ha0 & Hw0) Hne Hchunk.
    destruct (SendBatch_refused_by_state c0 chunk id start' now' _ Hne Hchunk
                (doSendBatch_closed c0 chunk (Callback id false) start' 0 now' Hst0 Hne
                   eq_refl))
      as (c' & t & E & -> & Hn & Hr).
    exists (set_shardid (u32 (shardid c0 + 1)) c0), t.
    split; [exact E|]. repeat split; try assumption.
    rewrite Hr. unfold err. cbn [Wrap With NewErr]. rewrite Ha0, Hw0. reflexivity.
  - apply (sendManyLoop_refused id _
             (fun c' => state c' = connDisconnected /\ addr c' = addr c));
      [| assumption | auto | lia].
    intros c0 chunk start' now' (Hst0 & Ha0) Hne Hchunk.
    destruct (SendBatch_refused_by_state c0 chunk id start' now' _ Hne Hchunk
                (doSendBatch_disconnected c0 chunk (Callback id false) start' 0 now'
                   Hst0 Hne eq_refl))
      as (c' & t & E & -> & Hn & Hr).
    exists (set_shardid (u32 (shardid c0 + 1)) c0), t.
    split; [exact E|]. repeat split; try assumption.
    rewrite Hr. unfold err. cbn [With NewErr]. rewrite Ha0. reflexivity.
Qed.

Lemma SendMany_refused_resolves_every_index_witness :
  let requests := repeat Examples.getA 40 in
  (state Examples.closed = connClosed ->
   refusedWith Examples.closed 7 (indices (2 ^ 64 - 20) (length requests))
     (MkError ErrKindContext ErrContextClosed
        [("connection"%string, CVConn (addr Examples.closed))]
        (ctxErr Examples.closed))
     (SendMany requests (Callback 7 false) (2 ^ 64 - 20) (fun _ => 0)
        Examples.closed)) /\
  (state Examples.closed = connDisconnected ->
   refusedWith Examples.closed 7 (indices (2 ^ 64 - 20) (length requests))
     (MkError ErrKindConnection ErrNotConnected
        [("connection"%string, CVConn (addr Examples.closed))] NoCause)
     (SendMany requests (Callback 7 false) (2 ^ 64 - 20) (fun _ => 0)
        Examples.closed)).
Proof.
  apply (SendMany_refused_resolves_every_index Examples.closed
           (repeat Examples.getA 40) 7 (2 ^ 64 - 20) (fun _ => 0)).
  apply List.Forall_forall. intros r Hr. apply repeat_spec in Hr. subst r. reflexivity.
Defined.

End SubmissionFacts.

(** ** The life of a connection: drop, close, and the channel *)

Module LifecycleFacts.
Import Redis Resp RedisCheck Futures Conn Submission RedisFacts ConnFacts
  SubmissionFacts.

(** *** What a drop does *)

Lemma resolves_map_lock l : resolves (map EvLock l) = [].
Proof. induction l; cbn; auto. Qed.

Lemma resolves_map_unlock l : resolves (map EvUnlock l) = [].
Proof. induction l; cbn; auto. Qed.

Lemma notifies_map_lock l : notifies (map EvLock l) = [].
Proof. induction l; cbn; auto. Qed.

Lemma notifies_map_unlock l : notifies (map EvUnlock l) = [].
Proof. induction l; cbn; auto. Qed.

Lemma resolves_calls e shards :
  resolves
    (flat_map (fun futures => flat_map (fun fut => call fut (RError e)) futures)
       shards)
  = called e shards.
Proof.
  unfold called. induction shards as [|futures shards IH]; [reflexivity|].
  cbn [flat_map]. rewrite resolves_app, IH. f_equal.
  induction futures as [|fut futures IHf]; [reflexivity|].
  cbn [flat_map]. rewrite resolves_app, IHf. f_equal. apply resolves_resolve.
Qed.

Lemma notifies_calls e shards :
  notifies
    (flat_map (fun futures => flat_map (fun fut => call fut (RError e)) futures)
       shards)
  = [].
Proof.
  induction shards as [|futures shards IH]; [reflexivity|].
  cbn [flat_map]. rewrite notifies_app, IH, app_nil_r.
  induction futures as [|fut futures IHf]; [reflexivity|].
  cbn [flat_map]. rewrite notifies_app, IHf, app_nil_r. apply notifies_resolve.
Qed.

Lemma drop_spec o e c :
  o = OpDropDial e \/ o = OpDisconnect e \/ o = OpClose e ->
  resolves (trace o c) = called e (shard c) /\
  notifies (trace o c) = [] /\
  shard (exec o c) = map (fun _ => []) (shard c) /\
  dirtyShard (exec o c) = [].
Proof.
  intros [-> | [-> | ->]]; unfold trace, exec; cbn;
    rewrite ?app_nil_r, !resolves_app, !notifies_app, resolves_calls, notifies_calls,
      resolves_map_lock, resolves_map_unlock, notifies_map_lock, notifies_map_unlock,
      ?app_nil_r; auto.
Qed.

Lemma called_insert e shards (s : nat) futures entries :
  shards !! s = Some futures ->
  exists t1 t2,
    called e (<[s := futures ++ entries]> shards)
    = t1 ++ called e [entries] ++ t2 /\
    called e shards = t1 ++ t2.
Proof.
  intros Hs. pose proof (lookup_lt_Some _ _ _ Hs) as Hlt.
  exists (called e (take s shards) ++ called e [futures]), (called e (drop (S s) shards)).
  unfold called.
  rewrite insert_take_drop by assumption.
  rewrite <- (take_drop_middle shards s futures Hs) at 5.
  rewrite !flat_map_app. cbn [flat_map]. rewrite !flat_map_app, !app_nil_r.
  rewrite <- !app_assoc. split; reflexivity.
Qed.

(** X20: a request that waits in a shard is never lost when the futures are
    dropped, and is not called twice: the drop after a failed dial, after a
    disconnect or at the close calls the future of a request that [Send]
    had queued once more than it would have called without that request,
    with the error of the drop at the index of the request; after the drop
    every shard and the channel are empty. *)
Theorem drop_resolves_queued_request c req id n asking now o e :
  wellFormed c ->
  state c = connConnecting \/ state c = connConnected ->
  CheckArgs req = None ->
  o = OpDropDial e \/ o = OpDisconnect e \/ o = OpClose e ->
  let c1 := exec (OpSendAsk req (Some (Callback id false)) n asking now) c in
  exists t1 t2,
    resolves (trace o c1) = t1 ++ [mkResolved id (RError e) n] ++ t2 /\
    resolves (trace o c) = t1 ++ t2 /\
    Forall (fun futures => futures = []) (shard (exec o c1)) /\
    dirtyShard (exec o c1) = [].
Proof.
  intros Hwf Hst Hreq Ho c1.
  destruct (drop_spec o e c1 Ho) as (Hr1 & _ & Hs1 & Hd1).
  destruct (drop_spec o e c Ho) as (Hr & _ & _ & _).
  pose proof (getShard_range c Hwf) as Hrange.
  destruct (lookup_lt_is_Some_2 _ _ Hrange) as [futures Hfut].
  assert (Hc1 : shard c1
                = <[Z.to_nat (u32 (shardid c + 1) mod Concurrency c)
                    := futures
                       ++ (if asking
                           then [mkFuture dumb 0 0 (mkRequest (str "ASKING") [])]
                           else [])
                       ++ [mkFuture (Callback id false) n now req]]> (shard c)).
  { unfold c1, exec. cbn [run]. rewrite SendAsk_live by (assumption || reflexivity).
    rewrite publish_spec. cbn [fst snd].
    unfold shardFutures. cbn [shard set_shard set_shardid set_dirtyShard].
    rewrite Hfut. cbn [default]. unfold Datatypes.id.
    destruct (length futures =? 0)%nat; reflexivity. }
  destruct (called_insert e (shard c) _ futures
              ((if asking then [mkFuture dumb 0 0 (mkRequest (str "ASKING") [])]
                else []) ++ [mkFuture (Callback id false) n now req]) Hfut)
    as (t1 & t2 & E1 & E2).
  exists t1, t2. rewrite Hr1, Hr, Hc1, E1, E2, Hs1, Hd1.
  split; [|split; [reflexivity|split; [|reflexivity]]].
  - destruct asking; reflexivity.
  - apply Forall_fmap, Forall_true. reflexivity.
Qed.

Lemma drop_resolves_queued_request_witness :
  let c1 := exec (OpSendAsk Examples.getA (Some (Callback 8 false)) 4 true 99)
              Examples.busy in
  exists t1 t2,
    resolves (trace (OpClose (NewErr ErrKindContext ErrContextClosed)) c1)
    = t1 ++ [mkResolved 8 (RError (NewErr ErrKindContext ErrContextClosed)) 4] ++ t2 /\
    resolves (trace (OpClose (NewErr ErrKindContext ErrContextClosed)) Examples.busy)
    = t1 ++ t2 /\
    Forall (fun futures => futures = [])
      (shard (exec (OpClose (NewErr ErrKindContext ErrContextClosed)) c1)) /\
    dirtyShard (exec (OpClose (NewErr ErrKindContext ErrContextClosed)) c1) = [].
Proof.
  apply (drop_resolves_queued_request Examples.busy Examples.getA 8 4 true 99
           (OpClose (NewErr ErrKindContext ErrContextClosed))
           (NewErr ErrKindContext ErrContextClosed)).
  - split; [reflexivity | reflexivity].
  - right. reflexivity.
  - reflexivity.
  - right. right. reflexivity.
Defined.

Lemma SendTransaction_enqueued c reqs cb off now :
  state c = connConnecting \/ state c = connConnected ->
  reqs <> [] -> Forall (fun r => CheckArgs r = None) reqs -> Cancelled cb = false ->
  let shardn := u32 (shardid c + 1) mod Concurrency c in
  shard (exec (OpSendTransaction reqs cb off now) c)
  = <[Z.to_nat shardn
      := shardFutures c shardn
         ++ batchEntries reqs (transactionFuture cb (Z.of_nat (length reqs)) off)
              0 DoTransaction now]> (shard c).
Proof.
  intros Hst Hne Hreqs Hcb shardn. unfold exec. cbn [run].
  unfold SendTransaction, bind, get. rewrite Hcb.
  unfold SendBatchFlags, bind, get. rewrite checkBatch_none by assumption.
  rewrite doSendBatch_live by (assumption || exact Hcb). unfold ret.
  cbn [fst snd]. fold shardn.
  destruct (length (shardFutures c shardn) =? 0)%nat; reflexivity.
Qed.

Lemma called_transaction cb l off now e requests : forall i,
  0 <= i -> i + Z.of_nat (length requests) <= l -> l < 2 ^ 64 ->
  called e [batchFutures (transactionFuture cb l off) 0 now i requests] = [].
Proof.
  unfold called. cbn [flat_map].
  induction requests as [|r rs IH]; intros i Hi Hl Hl'; [reflexivity|].
  rewrite app_nil_r. cbn [batchFutures flat_map length fut_Future fut_N] in *.
  specialize (IH (i + 1) ltac:(lia) ltac:(lia) Hl'). rewrite app_nil_r in IH.
  rewrite IH. rewrite Resolve_transaction_below by lia. reflexivity.
Qed.

(** X21: a transaction that waits in a shard is resolved exactly once by a
    drop: MULTI has no future of its own, the entries of the requests are
    swallowed by the wrapper, and the entry of EXEC resolves the producer's
    future with the error of the drop at [off]. *)
Theorem drop_resolves_queued_transaction_once c reqs id off now o e :
  wellFormed c ->
  state c = connConnecting \/ state c = connConnected ->
  reqs <> [] -> Forall (fun r => CheckArgs r = None) reqs ->
  Z.of_nat (length reqs) < 2 ^ 63 ->
  o = OpDropDial e \/ o = OpDisconnect e \/ o = OpClose e ->
  let c1 := exec (OpSendTransaction reqs (Callback id false) off now) c in
  exists t1 t2,
    resolves (trace o c1) = t1 ++ [mkResolved id (RError e) off] ++ t2 /\
    resolves (trace o c) = t1 ++ t2.
Proof.
  intros Hwf Hst Hne Hreqs Hlen Ho c1.
  destruct (drop_spec o e c1 Ho) as (Hr1 & _).
  destruct (drop_spec o e c Ho) as (Hr & _).
  pose proof (getShard_range c Hwf) as Hrange.
  destruct (lookup_lt_is_Some_2 _ _ Hrange) as [futures Hfut].
  pose proof (SendTransaction_enqueued c reqs (Callback id false) off now
                Hst Hne Hreqs eq_refl) as Hc1.
  cbv zeta in Hc1. fold c1 in Hc1.
  unfold shardFutures in Hc1. rewrite Hfut in Hc1. cbn [default] in Hc1.
  unfold Datatypes.id in Hc1.
  destruct (called_insert e (shard c) _ futures
              (batchEntries reqs
                 (transactionFuture (Callback id false) (Z.of_nat (length reqs)) off)
                 0 DoTransaction now) Hfut)
    as (t1 & t2 & E1 & E2).
  exists t1, t2. rewrite Hr1, Hr, Hc1, E1, E2. split; [|reflexivity].
  do 2 f_equal. unfold batchEntries.
  change (Z.land DoTransaction DoAsking =? 0) with true.
  change (Z.land DoTransaction DoTransaction =? 0) with false. cbn [negb app].
  unfold called. cbn [flat_map fut_Future fut_N Resolve]. rewrite app_nil_r.
  rewrite flat_map_app.
  pose proof (called_transaction (Callback id false) (Z.of_nat (length reqs)) off now e
                reqs 0 ltac:(lia) ltac:(lia) ltac:(lia)) as Hq.
  unfold called in Hq. cbn [flat_map] in Hq. rewrite app_nil_r in Hq.
  rewrite Hq. cbn [flat_map app fut_Future fut_N].
  rewrite Resolve_transaction_at by lia. reflexivity.
Qed.

Lemma drop_resolves_queued_transaction_once_witness :
  let e := NewErrWrap ErrKindConnection ErrDial (CauseForeign "refused") in
  let c1 := exec (OpSendTransaction [Examples.getA; Examples.getA] (Callback 8 false)
                    5 0) Examples.busy in
  exists t1 t2,
    resolves (trace (OpDisconnect e) c1) = t1 ++ [mkResolved 8 (RError e) 5] ++ t2 /\
    resolves (trace (OpDisconnect e) Examples.busy) = t1 ++ t2.
Proof.
  apply (drop_resolves_queued_transaction_once Examples.busy
           [Examples.getA; Examples.getA] 8 5 0
           (OpDisconnect (NewErrWrap ErrKindConnection ErrDial (CauseForeign "refused")))
           (NewErrWrap ErrKindConnection ErrDial (CauseForeign "refused"))).
  - split; [reflexivity | reflexivity].
  - right. reflexivity.
  - discriminate.
  - repeat constructor.
  - cbn. lia.
  - right. left. reflexivity.
Defined.

(** *** The closed state *)

Lemma notifies_resolveBatch cb start errpos e commonerr : forall len i,
  notifies (resolveBatch cb start errpos e commonerr i len) = [].
Proof.
  induction len as [|len IH]; intros i; [reflexivity|].
  cbn [resolveBatch]. rewrite notifies_app, IH, app_nil_r.
  destruct (negb (i =? errpos)); [apply notifies_resolve|].
  destruct e; [apply notifies_resolve | reflexivity].
Qed.

Ltac quiet_trace :=
  cbn [fst snd app];
  rewrite ?notifies_app, ?notifies_resolve, ?notifies_resolveBatch;
  cbn [notifies app]; auto.

Lemma closed_SendBatchFlags c requests cb start flags now :
  state c = connClosed ->
  let r := SendBatchFlags requests cb start flags now c in
  state (snd (fst r)) = connClosed /\
  dirtyClosed (snd (fst r)) = dirtyClosed c /\
  shard (snd (fst r)) = shard c /\ dirtyShard (snd (fst r)) = dirtyShard c /\
  notifies (snd r) = [].
Proof.
  intros Hst r. subst r. unfold SendBatchFlags, bind, get.
  destruct (checkBatch c requests 0 requests) as [[[errpos e] commonerr]|].
  - unfold ret, emit. destruct (negb _); quiet_trace; repeat split; quiet_trace.
  - unfold doSendBatch.
    destruct (length requests =? 0)%nat.
    + unfold bind, emit, ret. destruct (negb _); quiet_trace; repeat split; quiet_trace.
    + unfold bind, get. destruct (Cancelled cb).
      * unfold ret, emit. destruct (negb _); quiet_trace; repeat split; quiet_trace.
      * unfold getShard, Lock, Unlock, emit, ret. rewrite Hst.
        change (connClosed =? connClosed) with true. cbv iota.
        destruct (negb _); quiet_trace; repeat split; quiet_trace.
Qed.

Lemma closed_exec o c :
  state c = connClosed -> enabled o c = true ->
  state (exec o c) = connClosed /\
  dirtyClosed (exec o c) = dirtyClosed c /\
  notifies (trace o c) = [] /\
  (dirtyShard c = [] ->
   shard (exec o c) = shard c /\ dirtyShard (exec o c) = []).
Proof.
  intros Hst Hen. unfold exec, trace.
  destruct o; cbn [run enabled] in *;
    try (rewrite Hst in Hen; discriminate).
  - unfold SendAsk, doSend, bind, get.
    destruct (Cancelled (default dumb cb)); [unfold ret, emit; quiet_trace; repeat split; quiet_trace|].
    destruct (CheckArgs req); [unfold ret, emit; quiet_trace; repeat split; quiet_trace|].
    unfold getShard, Lock, Unlock, emit, ret. rewrite Hst.
    change (connClosed =? connClosed) with true. cbv iota.
    quiet_trace; repeat split; quiet_trace.
  - destruct (closed_SendBatchFlags c requests cb start flags now Hst)
      as (H1 & H2 & H3 & H4 & H5).
    split; [|split; [|split]]; try assumption. intros Hd. split; congruence.
  - unfold SendTransaction, bind, get.
    destruct (Cancelled cb); [unfold emit; quiet_trace; repeat split; quiet_trace|].
    destruct (closed_SendBatchFlags c reqs
                (transactionFuture cb (Z.of_nat (length reqs)) off) 0 DoTransaction
                now Hst) as (H1 & H2 & H3 & H4 & H5).
    destruct (SendBatchFlags _ _ _ _ _ c) as [[u c1] t1]. cbn [fst snd] in *.
    split; [|split; [|split]]; try assumption. intros Hd. split; congruence.
  - unfold bind, writerSwap, bind, writerReceive, writerExchange, ret.
    destruct (dirtyShard c) as [|shardn rest] eqn:E; cbn [fst snd app notifies].
    + repeat split; auto.
    + repeat split; auto; discriminate.
Qed.

(** X22: closed is the last state: whatever producers, the writer and the
    reconnection do after the close, the state stays closed, the channel
    stays closed and empty, and every shard stays empty, so nothing is ever
    queued again. *)
Theorem closed_is_terminal c closeErr c' :
  reachable (exec (OpClose closeErr) c) c' ->
  state c' = connClosed /\ dirtyClosed c' = true /\ dirtyShard c' = [] /\
  shard c' = map (fun _ => []) (shard c).
Proof.
  intros Hr. induction Hr as [|c1 o Hr (H1 & H2 & H3 & H4) Hen].
  - repeat split.
  - destruct (closed_exec o c1 H1 Hen) as (G1 & G2 & _ & G4).
    destruct (G4 H3) as [G5 G6].
    repeat split; congruence.
Qed.

Lemma closed_is_terminal_witness :
  let closeErr := NewErr ErrKindContext ErrContextClosed in
  let c' := exec (OpSendAsk Examples.getA (Some (Callback 8 false)) 4 false 9)
              (exec OpWriterSwap (exec (OpClose closeErr) Examples.busy)) in
  state c' = connClosed /\ dirtyClosed c' = true /\ dirtyShard c' = [] /\
  shard c' = map (fun _ => []) (shard Examples.busy).
Proof.
  apply (closed_is_terminal Examples.busy (NewErr ErrKindContext ErrContextClosed)).
  apply reachable_step; [|reflexivity].
  apply reachable_step; [|reflexivity].
  apply reachable_init.
Defined.

(** *** The channel is closed in the closed state only *)

Lemma frame_exec o c :
  match o with
  | OpSendAsk _ _ _ _ _ | OpSendBatchFlags _ _ _ _ _ | OpSendTransaction _ _ _ _
  | OpWriterSwap =>
      state (exec o c) = state c /\ dirtyClosed (exec o c) = dirtyClosed c
  | OpDropDial _ | OpDisconnect _ =>
      state (exec o c) = connDisconnected /\ dirtyClosed (exec o c) = dirtyClosed c
  | OpConnecting =>
      state (exec o c) = connConnecting /\ dirtyClosed (exec o c) = dirtyClosed c
  | OpConnected =>
      state (exec o c) = connConnected /\ dirtyClosed (exec o c) = dirtyClosed c
  | OpClose _ => state (exec o c) = connClosed /\ dirtyClosed (exec o c) = true
  end.
Proof.
  assert (Hbatch : forall requests cb start flags now,
            state (snd (fst (SendBatchFlags requests cb start flags now c))) = state c /\
            dirtyClosed (snd (fst (SendBatchFlags requests cb start flags now c)))
            = dirtyClosed c).
  { intros. unfold SendBatchFlags, bind, get.
    destruct (checkBatch c requests 0 requests) as [[[errpos e] commonerr]|].
    - unfold ret, emit. destruct (negb _); split; reflexivity.
    - unfold doSendBatch. destruct (length requests =? 0)%nat.
      + unfold bind, emit, ret. destruct (negb _); split; reflexivity.
      + unfold bind, get. destruct (Cancelled cb).
        * unfold ret, emit. destruct (negb _); split; reflexivity.
        * unfold getShard, Lock, Unlock, emit, ret.
          destruct (state c =? connClosed);
            [destruct (negb _); split; reflexivity|].
          destruct (state c =? connDisconnected);
            [destruct (negb _); split; reflexivity|].
          rewrite publish_spec. cbn [fst snd].
          destruct (length _ =? 0)%nat; split; reflexivity. }
  unfold exec. destruct o; cbn [run]; try (split; reflexivity).
  - unfold SendAsk, doSend, bind, get.
    destruct (Cancelled (default dumb cb)); [split; reflexivity|].
    destruct (CheckArgs req); [split; reflexivity|].
    unfold getShard, Lock, Unlock, emit, ret.
    destruct (state c =? connClosed); [split; reflexivity|].
    destruct (state c =? connDisconnected); [split; reflexivity|].
    rewrite publish_spec. cbn [fst snd].
    destruct (length _ =? 0)%nat; split; reflexivity.
  - apply Hbatch.
  - unfold SendTransaction, bind, get.
    destruct (Cancelled cb); [split; reflexivity|].
    pose proof (Hbatch reqs (transactionFuture cb (Z.of_nat (length reqs)) off) 0
                  DoTransaction now) as H.
    destruct (SendBatchFlags _ _ _ _ _ c) as [[u c1] t1]. exact H.
  - unfold bind, writerSwap, bind, writerReceive, writerExchange, ret.
    destruct (dirtyShard c); split; reflexivity.
Qed.

Lemma closed_channel_exec o c :
  enabled o c = true ->
  (dirtyClosed c = true <-> state c = connClosed) ->
  (dirtyClosed (exec o c) = true <-> state (exec o c) = connClosed).
Proof.
  intros Hen Hinv. pose proof (frame_exec o c) as Hf.
  destruct o; cbn [enabled] in Hen; destruct Hf as [-> ->];
    try exact Hinv; try (split; reflexivity).
  - apply Z.eqb_eq in Hen. rewrite Hen in Hinv.
    destruct Hinv as [H1 _]. split; intros H; [specialize (H1 H)|]; discriminate.
  - apply negb_true_iff, Z.eqb_neq in Hen.
    destruct Hinv as [H1 _]. split; intros H; [specialize (H1 H); contradiction|].
    discriminate.
  - apply Z.eqb_eq in Hen. rewrite Hen in Hinv.
    destruct Hinv as [H1 _]. split; intros H; [specialize (H1 H)|]; discriminate.
  - apply Z.eqb_eq in Hen. rewrite Hen in Hinv.
    destruct Hinv as [H1 _]. split; intros H; [specialize (H1 H)|]; discriminate.
Qed.

(** X23: the notification channel is closed exactly when the state is
    closed, and in that state no operation sends on it or closes it again:
    the two panics that a closed channel can cause do not occur. *)
Theorem no_send_on_closed_channel (N : nat) address cause c :
  reachable (newConnection address cause N) c ->
  (dirtyClosed c = true <-> state c = connClosed) /\
  forall o, enabled o c = true -> dirtyClosed c = true ->
            notifies (trace o c) = [] /\
            (forall closeErr, o <> OpClose closeErr).
Proof.
  intros Hr.
  assert (Hinv : dirtyClosed c = true <-> state c = connClosed).
  { induction Hr as [|c1 o Hr IH Hen].
    - cbn. split; discriminate.
    - apply closed_channel_exec; assumption. }
  split; [exact Hinv|]. intros o Hen Hclosed.
  apply Hinv in Hclosed.
  destruct (closed_exec o c Hclosed Hen) as (_ & _ & Hn & _).
  split; [exact Hn|]. intros closeErr ->. cbn [enabled] in Hen.
  rewrite Hclosed in Hen. discriminate.
Qed.

Lemma no_send_on_closed_channel_witness :
  (dirtyClosed Examples.closed = true <-> state Examples.closed = connClosed) /\
  forall o, enabled o Examples.closed = true -> dirtyClosed Examples.closed = true ->
            notifies (trace o Examples.closed) = [] /\
            (forall closeErr, o <> OpClose closeErr).
Proof.
  apply (no_send_on_closed_channel 2 (str "h:6379") Examples.canceled Examples.closed).
  repeat (apply reachable_step; [|reflexivity]). apply reachable_init.
Defined.

(** *** The channel never fills *)





End LifecycleFacts.

(** ** The session latch, the address forms and the options *)

Module SessionLaws.
Import Redis Futures RedisFacts.

(** X25: of all the errors that the writer and the reader report on one
    session, the first one wins: it closes [control], it is the error the
    session keeps, with the connection added to it, and it is the one handed
    to the only reconnect task; the later calls of [setErr] change nothing.
    The connection of [redisconn/conn.go] keeps the first error as well. *)
Theorem setErr_first_error_wins neterr rest address :
  Conn.setErrs (neterr :: rest) address Conn.newOneconn
  = Conn.setErr neterr address Conn.newOneconn /\
  (exists e,
     Conn.setErr neterr address Conn.newOneconn
     = (Conn.mkOneconn true (Some e) true, [Conn.GoReconnect (CauseError e)]) /\
     ErrCtx e = ("connection"%string, CVConn address)
                :: match neterr with CauseError rerr => ErrCtx rerr | _ => [] end /\
     match neterr with
     | CauseError rerr => ErrCode e = ErrCode rerr /\ ErrCause e = ErrCause rerr
     | _ => ErrKind e = ErrKindIO /\ ErrCode e = ErrIO /\ ErrCause e = neterr
     end) /\
  fst (ConnBuf.setErrs (neterr :: rest) address ConnBuf.newOneconn)
  = fst (ConnBuf.setErr neterr address ConnBuf.newOneconn).
Proof.
  split; [|split].
  - cbn [Conn.setErrs]. unfold Conn.setErr at 1. cbn [Conn.erronce Conn.newOneconn].
    match goal with
    | |- context [Conn.setErrs rest address ?o] =>
        pose proof (SessionFacts.Conn_setErrs_latched rest address o eq_refl) as Hl;
        assert (Hs : fst (Conn.setErrs rest address o) = o);
        [| destruct (Conn.setErrs rest address o) as [o' sp] ]
    end.
    { clear. induction rest as [|x rest IH]; [reflexivity|].
      cbn [Conn.setErrs]. unfold Conn.setErr at 1. cbn [Conn.erronce].
      match goal with
      | |- context [Conn.setErrs rest address ?o] =>
          destruct (Conn.setErrs rest address o) as [o' sp]
      end. exact IH. }
    cbn [fst snd] in *. subst. reflexivity.
  - unfold Conn.setErr. cbn [Conn.erronce Conn.newOneconn].
    eexists. split; [reflexivity|].
    destruct neterr as [|[k code ctx w]|msg]; cbn; repeat split.
  - cbn [ConnBuf.setErrs]. unfold ConnBuf.setErr at 1 2.
    cbn [ConnBuf.erronce ConnBuf.newOneconn fst].
    match goal with
    | |- context [ConnBuf.setErrs rest address ?o] =>
        assert (Hs : fst (ConnBuf.setErrs rest address o) = o);
        [| destruct (ConnBuf.setErrs rest address o) as [o' sp]; exact Hs ]
    end.
    induction rest as [|x rest IH]; [reflexivity|].
    cbn [ConnBuf.setErrs]. unfold ConnBuf.setErr at 1. cbn [ConnBuf.erronce].
    match goal with
    | |- context [ConnBuf.setErrs rest address ?o] =>
        destruct (ConnBuf.setErrs rest address o) as [o' sp]
    end. exact IH.
Qed.

Import Dial.

(** X26: the address forms of [dial]: a path that starts with a dot or a
    slash is dialled as it is on the network unix; [unix://] and [tcp://]
    are cut off and name the network, where [tcp://] needs one byte at least
    after it and panics without; every other address of seven bytes or more
    is dialled as it is on tcp. *)
Theorem dialTarget_address_forms rest a0 address :
  ((a0 = 46 \/ a0 = 47) -> dialTarget (a0 :: rest) = Some (str "unix", a0 :: rest)) /\
  dialTarget (str "unix://" ++ rest) = Some (str "unix", rest) /\
  (rest <> [] -> dialTarget (str "tcp://" ++ rest) = Some (str "tcp", rest)) /\
  dialTarget (str "tcp://") = None /\
  ((7 <= length address)%nat ->
   (forall b, address !! 0%nat = Some b -> b <> 46 /\ b <> 47) ->
   take 7 address <> str "unix://" -> take 6 address <> str "tcp://" ->
   dialTarget address = Some (str "tcp", address)).
Proof.
  split; [|split; [|split; [|split]]].
  - intros [-> | ->]; reflexivity.
  - unfold dialTarget, index, slice. cbn [str app list_ascii_of_string map lookup
      list_lookup]. cbn.
    rewrite bool_decide_true by reflexivity. reflexivity.
  - intros Hne. destruct rest as [|r rest]; [congruence|].
    unfold dialTarget, index, slice. cbn.
    rewrite bool_decide_false by discriminate.
    rewrite bool_decide_true by reflexivity. reflexivity.
  - reflexivity.
  - intros Hlen H0 H7 H6. unfold dialTarget, index, slice.
    destruct address as [|b address]; [cbn in Hlen; lia|].
    cbn [lookup list_lookup].
    destruct (H0 b eq_refl) as [H46 H47].
    apply Z.eqb_neq in H46, H47. rewrite H46, H47. cbn [orb].
    replace (7 <=? length (b :: address))%nat with true
      by (symmetry; apply Nat.leb_le; lia).
    replace (6 <=? length (b :: address))%nat with true
      by (symmetry; apply Nat.leb_le; lia).
    change (0 <=? 7)%nat with true. change (0 <=? 6)%nat with true. cbn [andb].
    rewrite !Nat.sub_0_r. cbn [drop].
    rewrite bool_decide_false by assumption.
    rewrite bool_decide_false by assumption. reflexivity.
Qed.

Import Options.

(** X27: what [Connect] makes of the options, for every value of their Go
    types and every positive [GOMAXPROCS]: there is one shard at least, so
    [getShard] never divides by zero; the IO timeout is not negative and the
    dial timeout lies between zero and it; the keep-alive is not negative
    and the write pause not zero.  With these, [dial] gives its dialer a
    timeout above zero and of five seconds at most, within the IO timeout
    when that is enabled, and [control] gives its ticker a period above
    zero.  A reconnect pause of zero becomes twice the dial timeout, which
    is zero again when the IO timeout is disabled. *)
Theorem Connect_settles_options maxprocs opts :
  wellTyped opts -> 1 <= maxprocs < 2 ^ 32 ->
  let o := settle maxprocs opts in
  wellTyped o /\
  1 <= Concurrency o /\
  (Concurrency o = Concurrency opts \/ Concurrency o = maxprocs) /\
  0 <= DialTimeout o <= IOTimeout o /\
  0 <= TCPKeepAlive o /\ WritePause o <> 0 /\
  0 < dialerTimeout o <= 5 * second /\
  (0 < IOTimeout o -> dialerTimeout o <= IOTimeout o) /\
  0 < tickerPeriod o /\
  (ReconnectPause opts = 0 -> DialTimeout o < 2 ^ 62 ->
   ReconnectPause o = 2 * DialTimeout o) /\
  (ReconnectPause opts = 0 -> IOTimeout opts < 0 -> ReconnectPause o = 0).
Proof.
  intros (Hio & Hdial & Hpause & Hka & Hconc & Hwp) Hmax o.
  set (io := if IOTimeout opts =? 0 then defaultIOTimeout
             else if IOTimeout opts <? 0 then 0 else IOTimeout opts).
  set (dial := if (DialTimeout opts <=? 0) || (io <? DialTimeout opts)
               then io else DialTimeout opts).
  set (ka := if TCPKeepAlive opts =? 0 then Z.quot io 3 else TCPKeepAlive opts).
  assert (Eo : o = mkOpts io dial
                     (if ReconnectPause opts =? 0 then i64 (dial * 2)
                      else ReconnectPause opts)
                     (if ka <? 0 then 0 else ka)
                     (if (Concurrency opts =? 0)
                         || (u32 (maxprocs * 128) <? Concurrency opts)
                      then maxprocs else Concurrency opts)
                     (if WritePause opts =? 0 then defaultWritePause
                      else WritePause opts)) by reflexivity.
  clearbody o. subst o.
  unfold wellTyped, dialerTimeout, tickerPeriod.
  cbn [IOTimeout DialTimeout ReconnectPause TCPKeepAlive Concurrency WritePause].
  assert (Hio' : 0 <= io < 2 ^ 63 /\ (IOTimeout opts < 0 -> io = 0)).
  { unfold io, defaultIOTimeout, second.
    destruct (Z.eqb_spec (IOTimeout opts) 0); [lia|].
    destruct (Z.ltb_spec (IOTimeout opts) 0); lia. }
  clearbody io.
  assert (Hdial' : 0 <= dial <= io /\ (0 < io -> 0 < dial)).
  { unfold dial.
    destruct (Z.leb_spec (DialTimeout opts) 0); cbn [orb]; [lia|].
    destruct (Z.ltb_spec io (DialTimeout opts)); lia. }
  clearbody dial.
  assert (Hquot : 0 <= Z.quot io 3 <= io).
  { rewrite Z.quot_div_nonneg by lia.
    split; [apply Z.div_pos; lia | apply Z.div_le_upper_bound; lia]. }
  assert (Hi64 : - 2 ^ 63 <= i64 (dial * 2) < 2 ^ 63).
  { unfold i64. pose proof (Z.mod_pos_bound (dial * 2 + 2 ^ 63) (2 ^ 64) ltac:(lia)).
    lia. }
  assert (Hka' : - 2 ^ 63 <= ka < 2 ^ 63).
  { unfold ka. destruct (Z.eqb_spec (TCPKeepAlive opts) 0); lia. }
  clearbody ka.
  unfold defaultWritePause, microsecond, second.
  destruct (Z.eqb_spec (ReconnectPause opts) 0) as [Hp0|Hp0];
    destruct (Z.ltb_spec ka 0);
    destruct (Z.eqb_spec (Concurrency opts) 0); cbn [orb];
    try destruct (Z.ltb_spec (u32 (maxprocs * 128)) (Concurrency opts));
    destruct (Z.eqb_spec (WritePause opts) 0);
    destruct (Z.leb_spec dial 0); cbn [orb];
    try destruct (Z.ltb_spec (5 * 1000000000) dial);
    destruct (Z.leb_spec (Z.quot io 3) 0);
    repeat split; try lia;
    try (intros; rewrite i64_small; lia);
    try (intros; replace dial with 0 by lia; reflexivity).
Qed.

Lemma Connect_settles_options_witness :
  let o := settle 8 (mkOpts (-1) (30 * second) 0 0 5000 0) in
  wellTyped o /\
  1 <= Concurrency o /\
  (Concurrency o = Concurrency (mkOpts (-1) (30 * second) 0 0 5000 0)
   \/ Concurrency o = 8) /\
  0 <= DialTimeout o <= IOTimeout o /\
  0 <= TCPKeepAlive o /\ WritePause o <> 0 /\
  0 < dialerTimeout o <= 5 * second /\
  (0 < IOTimeout o -> dialerTimeout o <= IOTimeout o) /\
  0 < tickerPeriod o /\
  (ReconnectPause (mkOpts (-1) (30 * second) 0 0 5000 0) = 0 ->
   DialTimeout o < 2 ^ 62 -> ReconnectPause o = 2 * DialTimeout o) /\
  (ReconnectPause (mkOpts (-1) (30 * second) 0 0 5000 0) = 0 ->
   IOTimeout (mkOpts (-1) (30 * second) 0 0 5000 0) < 0 -> ReconnectPause o = 0).
Proof.
  apply (Connect_settles_options 8 (mkOpts (-1) (30 * second) 0 0 5000 0)).
  - unfold wellTyped, second. cbn. lia.
  - lia.
Defined.

End SessionLaws.

(** ** The reader of a session *)

Module ReaderFacts.
Import Redis Futures Conn Reader.

Section WithHardError.
Variable HardError : Error -> bool.

Lemma callAll_app res fs1 fs2 :
  callAll res (fs1 ++ fs2) = callAll res fs1 ++ callAll res fs2.
Proof. unfold callAll. apply flat_map_app. Qed.

Lemma callAll_concat res batches :
  flat_map (callAll res) batches = callAll res (concat batches).
Proof.
  induction batches as [|b batches IH]; [reflexivity|].
  cbn [flat_map concat]. rewrite callAll_app, IH. reflexivity.
Qed.

Lemma readerLoop_spec address : forall responses futures batches,
  Forall (fun b => b <> []) batches ->
  exists k,
    (k <= length (futures ++ concat batches))%nat /\
    let '(t, e, f, b) := readerLoop HardError address responses futures batches in
    t = deliver (take k (futures ++ concat batches))
          (map (soften address) (take k responses)) /\
    f ++ concat b = drop k (futures ++ concat batches) /\
    match e with
    | EndPanic => False
    | EndStarved => k = length responses
    | EndClosed => k = length (futures ++ concat batches)
    | EndHard rerr =>
        exists res, responses !! k = Some res /\ hard HardError res = Some rerr
    end.
Proof.
  induction responses as [|res responses IH]; intros futures batches Hb.
  - exists 0%nat. cbn. repeat split; lia.
  - cbn [readerLoop]. destruct (hard HardError res) as [rerr|] eqn:Eh.
    + exists 0%nat. cbn [take deliver drop lookup list_lookup].
      repeat split; [lia|]. exists res. auto.
    + assert (Hstep : forall fut futures' batches',
                Forall (fun b => b <> []) batches' ->
                exists k,
                  (k <= length ((fut :: futures') ++ concat batches'))%nat /\
                  let '(t, e, f, b) :=
                    (let '(t, e, f, b) :=
                       readerLoop HardError address responses futures' batches' in
                     (call fut (soften address res) ++ t, e, f, b)) in
                  t = deliver (take k ((fut :: futures') ++ concat batches'))
                        (map (soften address) (take k (res :: responses))) /\
                  f ++ concat b = drop k ((fut :: futures') ++ concat batches') /\
                  match e with
                  | EndPanic => False
                  | EndStarved => k = length (res :: responses)
                  | EndClosed => k = length ((fut :: futures') ++ concat batches')
                  | EndHard rerr =>
                      exists r, (res :: responses) !! k = Some r /\
                                hard HardError r = Some rerr
                  end).
      { intros fut futures' batches' Hb'.
        destruct (IH futures' batches' Hb') as (k & Hk & H).
        exists (S k).
        destruct (readerLoop HardError address responses futures' batches')
          as [[[t e] f] b].
        destruct H as (Ht & Hf & He).
        cbn [app length take map deliver drop lookup list_lookup].
        split; [lia|]. split; [rewrite Ht; reflexivity|]. split; [exact Hf|].
        destruct e; auto. }
      destruct futures as [|fut futures'].
      * destruct batches as [|packetfutures rest].
        -- exists 0%nat. cbn. repeat split; lia.
        -- inversion Hb as [|? ? Hne Hrest]; subst.
           destruct packetfutures as [|fut futures']; [congruence|].
           exact (Hstep fut futures' rest Hrest).
      * apply (Hstep fut futures' batches Hb).
Qed.

(** X28: the reader calls every future that the writer hands over exactly
    once, in the order in which they were handed over: the first futures get
    the responses, a response that is an error but not a hard one with the
    connection added to it; when a hard error is read or the channel of the
    writer is closed, every future that is left gets the error of the
    session, which is set by then.  [futures[0]] does not panic as long as
    no batch is empty, and a hard error calls [setErr] with it. *)
Theorem reader_calls_every_future_once address one responses batches :
  Forall (fun b => b <> []) batches ->
  (erronce one = true -> one_err one <> None) ->
  let '(t, one', spawned, e) := reader HardError address one responses batches in
  exists k,
    (k <= length (concat batches))%nat /\
    t = deliver (take k (concat batches)) (map (soften address) (take k responses))
        ++ (if left e then callAll (errResult one') (drop k (concat batches))
            else []) /\
    match e with
    | EndPanic => False
    | EndStarved => k = length responses /\ one' = one /\ spawned = []
    | EndClosed => k = length (concat batches) /\ one' = one /\ spawned = []
    | EndHard rerr =>
        (exists res, responses !! k = Some res /\ hard HardError res = Some rerr) /\
        (one', spawned) = setErr (CauseError rerr) address one /\
        exists err, errResult one' = RError err
    end.
Proof.
  intros Hb Hone. unfold reader.
  destruct (readerLoop_spec address responses [] batches Hb) as (k & Hk & H).
  destruct (readerLoop HardError address responses [] batches) as [[[t e] f] b].
  cbn [app] in *. destruct H as (Ht & Hf & He).
  destruct e as [rerr| | |]; cbn [left].
  - destruct (setErr (CauseError rerr) address one) as [one' spawned] eqn:Es.
    exists k. split; [exact Hk|].
    split; [rewrite Ht, callAll_concat, <- callAll_app, Hf; reflexivity|].
    split; [exact He|]. split; [symmetry; exact Es|].
    unfold setErr in Es. unfold errResult. destruct (erronce one) eqn:Eo.
    + injection Es as <- <-. destruct (one_err one) as [err|] eqn:Ee;
        [eauto | destruct (Hone eq_refl eq_refl)].
    + injection Es as <- <-. cbn [one_err]. eauto.
  - exists k. split; [exact Hk|].
    split; [rewrite Ht, callAll_concat, <- callAll_app, Hf; reflexivity|].
    auto.
  - exists k. split; [exact Hk|]. rewrite app_nil_r. auto.
  - destruct He.
Qed.

End WithHardError.

Lemma reader_calls_every_future_once_witness :
  let HardError := fun e => match ErrKind e with ErrKindIO => true | _ => false end in
  let batches := [[mkFuture (Callback 1 false) 0 0 Examples.getA;
                   mkFuture (Callback 2 false) 5 0 Examples.getA];
                  [mkFuture (Callback 3 false) 9 0 Examples.getA]] in
  let responses := [RValue (VBulk (str "v"));
                    RError (NewErr ErrKindResponse ErrPing);
                    RError (NewErr ErrKindIO ErrIO)] in
  let '(t, one', spawned, e) :=
    reader HardError (str "h:6379") newOneconn responses batches in
  exists k,
    (k <= length (concat batches))%nat /\
    t = deliver (take k (concat batches))
          (map (soften (str "h:6379")) (take k responses))
        ++ (if left e then callAll (errResult one') (drop k (concat batches))
            else []) /\
    match e with
    | EndPanic => False
    | EndStarved => k = length responses /\ one' = newOneconn /\ spawned = []
    | EndClosed => k = length (concat batches) /\ one' = newOneconn /\ spawned = []
    | EndHard rerr =>
        (exists res, responses !! k = Some res /\ hard HardError res = Some rerr) /\
        (one', spawned) = setErr (CauseError rerr) (str "h:6379") newOneconn /\
        exists err, errResult one' = RError err
    end.
Proof.
  apply (reader_calls_every_future_once
           (fun e => match ErrKind e with ErrKindIO => true | _ => false end)
           (str "h:6379") newOneconn
           [RValue (VBulk (str "v"));
            RError (NewErr ErrKindResponse ErrPing);
            RError (NewErr ErrKindIO ErrIO)]
           [[mkFuture (Callback 1 false) 0 0 Examples.getA;
             mkFuture (Callback 2 false) 5 0 Examples.getA];
            [mkFuture (Callback 3 false) 9 0 Examples.getA]]).
  - repeat constructor; discriminate.
  - discriminate.
Defined.

End ReaderFacts.

(** ** The writer of [redisconn/conn.go] never meets futures without bytes *)

Module ConnBufLifeFacts.
Import Redis Resp RedisCheck Futures ConnBuf ConnBufLife RedisFacts SerializerLaws.

Lemma appendCmd_nonempty req : appendCmd [] req <> [].
Proof.
  unfold appendCmd. cbv zeta. intros E. apply (f_equal length) in E.
  destruct (findSpace (Cmd req) 0 (-1) =? -1);
    rewrite !length_app in E; cbn [length CRLF] in E; lia.
Qed.

Lemma markers_nonempty : askingReq <> [] /\ multiReq <> [] /\ execReq <> [].
Proof. repeat split; apply appendCmd_nonempty. Qed.

Section WithStrconv.
Context {strconv : Strconv}.

Lemma AppendRequest_grows b req b' :
  resp_AppendRequest b req = (b', None) -> (length b < length b')%nat.
Proof.
  unfold resp_AppendRequest. rewrite AppendRequest_app.
  destruct (AppendRequest [] req) as [out [e|]] eqn:E; [discriminate|].
  intros [= <-]. unfold AppendRequest in E. rewrite appendArgs_app in E.
  destruct (appendArgs req [] (Args req)) as [tail [e|]]; [discriminate|].
  injection E as <-. rewrite !length_app.
  pose proof (appendCmd_nonempty req) as Hne.
  destruct (appendCmd [] req); [congruence | cbn [length]; lia].
Qed.

Lemma appendBatch_grows cb start : forall requests i b futs b' futs',
  appendBatch cb start i requests b futs = inl (b', futs') ->
  (length b <= length b')%nat /\ (requests <> [] -> (length b < length b')%nat).
Proof.
  induction requests as [|req requests IH]; intros i b futs b' futs' E.
  - injection E as <- <-. split; [lia | congruence].
  - cbn [appendBatch] in E.
    destruct (resp_AppendRequest b req) as [b1 [e|]] eqn:E1; [discriminate|].
    apply AppendRequest_grows in E1. apply IH in E as [E _]. split; intros; lia.
Qed.

Lemma coupled_store c shardn b futs :
  coupled c -> b <> [] ->
  coupled (snd (fst (publish shardn b futs c))).
Proof.
  intros Hc Hb. unfold publish, bind, get, storeShard, Unlock, emit, notify, ret.
  destruct (length (buf (theShard c shardn)) =? 0)%nat; cbn [fst snd];
    unfold coupled; cbn [shard set_shard set_dirtyShard];
    (apply Forall_insert; [exact Hc | intros E; cbn [buf] in E; congruence]).
Qed.

Lemma nonempty_longer (b b' : list Z) : (length b < length b')%nat -> b' <> [].
Proof. intros H ->. cbn in H. lia. Qed.

Lemma nonempty_app_r (b x : list Z) : x <> [] -> b ++ x <> [].
Proof. intros Hx E. apply app_eq_nil in E as [_ E]. congruence. Qed.

Lemma coupled_doSend c req cb n asking :
  coupled c -> coupled (snd (fst (doSend req cb n asking c))).
Proof.
  intros HI. unfold doSend, bind, get.
  destruct (negb (Active cb)); [exact HI|].
  unfold getShard, Lock, Unlock, emit, ret. cbn [fst snd].
  destruct (state c =? connClosed); [exact HI|].
  destruct (state c =? connDisconnected); [exact HI|].
  set (c1 := set_shardid (u32 (shardid c + 1)) c).
  set (shardn := u32 (shardid c + 1) mod Concurrency c).
  destruct asking.
  - destruct (resp_AppendRequest (buf (theShard c shardn) ++ askingReq) req)
      as [b' [e|]] eqn:E; [exact HI|].
    pose proof (coupled_store c1 shardn b'
                  ((futures (theShard c shardn) ++ [mkFuture dumb 0]) ++ [mkFuture cb n])
                  HI (nonempty_longer _ _ (AppendRequest_grows _ _ _ E))) as H.
    destruct (publish shardn b' _ c1) as [[u c2] t2]. exact H.
  - destruct (resp_AppendRequest (buf (theShard c shardn)) req)
      as [b' [e|]] eqn:E; [exact HI|].
    pose proof (coupled_store c1 shardn b'
                  (futures (theShard c shardn) ++ [mkFuture cb n])
                  HI (nonempty_longer _ _ (AppendRequest_grows _ _ _ E))) as H.
    destruct (publish shardn b' _ c1) as [[u c2] t2]. exact H.
Qed.

Lemma coupled_SendBatchFlags c requests cb start flags :
  coupled c -> coupled (snd (fst (SendBatchFlags requests cb start flags c))).
Proof.
  intros HI. unfold SendBatchFlags.
  destruct (length requests =? 0)%nat eqn:El; [exact HI|].
  assert (Hne : requests <> [])
    by (intros ->; discriminate).
  unfold bind, get. destruct (negb (Active cb)); [exact HI|].
  unfold getShard, Lock, Unlock, emit, ret. cbn [fst snd].
  destruct (state c =? connClosed); [exact HI|].
  destruct (state c =? connDisconnected); [exact HI|].
  set (c1 := set_shardid (u32 (shardid c + 1)) c).
  set (shardn := u32 (shardid c + 1) mod Concurrency c).
  destruct (negb (Z.land flags DoAsking =? 0)),
           (negb (Z.land flags DoTransaction =? 0));
    match goal with
    | |- context [appendBatch ?cb0 ?st ?i requests ?b ?f] =>
        destruct (appendBatch cb0 st i requests b f) as [[b' futs']|[[j req] e]] eqn:E;
          [apply appendBatch_grows in E as [_ E]; specialize (E Hne);
           apply nonempty_longer in E
          | exact HI]
    end;
    match goal with
    | |- context [publish shardn ?b ?f c1] =>
        assert (Hb : b <> []) by (try apply nonempty_app_r; first [exact E | apply markers_nonempty]);
        pose proof (coupled_store c1 shardn b f HI Hb) as H;
        destruct (publish shardn b f c1) as [[u c2] t2]; exact H
    end.
Qed.

Lemma coupled_exec o c : coupled c -> coupled (exec o c).
Proof.
  intros HI. unfold exec. destruct o; cbn [run].
  - unfold SendAsk, bind.
    pose proof (coupled_doSend c req (default dumb cb) n asking HI) as H.
    destruct (doSend req (default dumb cb) n asking c) as [[[e|] c1] t1]; exact H.
  - apply coupled_SendBatchFlags, HI.
  - unfold SendTransaction, bind, get. destruct (negb (Active cb)); [exact HI|].
    pose proof (coupled_SendBatchFlags c reqs
                  (WrapFuture cb (u64 (Z.of_nat (length reqs))) off) 0 DoTransaction
                  HI) as H.
    destruct (SendBatchFlags _ _ _ _ c) as [[u c1] t1]. exact H.
  - unfold bind, writerTake, bind, writerReceive, writerExchange, ret.
    destruct (dirtyShard c) as [|shardn rest]; [exact HI|]. cbn [fst snd].
    assert (coupled (set_shard (<[Z.to_nat shardn := mkShard [] []]> (shard c))
                       (set_dirtyShard rest c))) as H
      by (unfold coupled; cbn [shard set_shard set_dirtyShard];
          apply Forall_insert; [exact HI | reflexivity]).
    destruct (length (buf (theShard (set_dirtyShard rest c) shardn)) =? 0)%nat;
      [destruct (negb _)|]; exact H.
  - unfold coupled. cbn. apply Forall_fmap, Forall_true.
    intros sh _. reflexivity.
  - unfold coupled. cbn. apply Forall_fmap, Forall_true.
    intros sh _. reflexivity.
  - exact HI.
  - exact HI.
  - unfold coupled. cbn. apply Forall_fmap, Forall_true.
    intros sh _. reflexivity.
Qed.

Lemma coupled_reachable c0 c : coupled c0 -> reachable c0 c -> coupled c.
Proof. intros H0 Hr. induction Hr; [exact H0 | apply coupled_exec; assumption]. Qed.

(** X29: on the connection of [redisconn/conn.go], whatever producers, the
    writer and the reconnection did since [Connect], a shard holds futures
    only together with bytes to write, because every submission that stores
    adds one byte at least; so the writer never takes futures without a
    packet, and its panic for that case is not reached. *)
Theorem writer_takes_no_futures_without_packet (N : nat) address cause c :
  reachable (newConnection address cause N) c ->
  coupled c /\
  fst (fst (writerTake c)) <> Panics /\
  forall packet futs,
    fst (fst (writerTake c)) = Batch packet futs -> packet <> [].
Proof.
  intros Hr.
  assert (H0 : coupled (newConnection address cause N)).
  { unfold coupled. cbn. apply Forall_replicate. reflexivity. }
  pose proof (coupled_reachable _ _ H0 Hr) as HI. split; [exact HI|].
  unfold writerTake, bind, writerReceive, writerExchange, ret.
  destruct (dirtyShard c) as [|shardn rest]; cbn [fst snd];
    [split; [discriminate | intros ? ? [=]]|].
  change (theShard (set_dirtyShard rest c) shardn) with (theShard c shardn).
  assert (Hsh : buf (theShard c shardn) = [] -> futures (theShard c shardn) = []).
  { unfold theShard. destruct (shard c !! Z.to_nat shardn) as [sh|] eqn:E;
      [|reflexivity].
    exact (proj1 (Forall_lookup _ _) HI _ _ E). }
  destruct (buf (theShard c shardn)) as [|x packet] eqn:Eb; cbn [length Nat.eqb].
  - rewrite (Hsh eq_refl). cbn. split; [discriminate | intros ? ? [=]].
  - cbn. split; [discriminate|]. intros ? ? [= <- _]. discriminate.
Qed.

(** X30: on the connection of [redisconn/conn.go], [SendBatchFlags] on a
    closed or disconnected connection assigns the error and returns before
    the statements that would resolve the future with it: no index of the
    batch is ever resolved, and neither is a transaction, while nothing is
    queued either; only [Send] resolves its future in these states. *)
Theorem ConnBuf_refused_batch_is_never_resolved c requests reqs cb start off flags :
  state c = connClosed \/ state c = connDisconnected -> Active cb = true ->
  (let '(_, c', t) := SendBatchFlags requests cb start flags c in
   resolves t = [] /\ shard c' = shard c /\ dirtyShard c' = dirtyShard c) /\
  (let '(_, c', t) := SendTransaction reqs cb off c in
   resolves t = [] /\ shard c' = shard c /\ dirtyShard c' = dirtyShard c).
Proof.
  intros Hst Hcb.
  assert (Hbatch : forall rs f st fl,
            Active f = true ->
            let '(_, c', t) := SendBatchFlags rs f st fl c in
            resolves t = [] /\ shard c' = shard c /\ dirtyShard c' = dirtyShard c).
  { intros rs f st fl Hf. unfold SendBatchFlags.
    destruct (length rs =? 0)%nat; [repeat split|].
    unfold bind, get. rewrite Hf. cbn [negb].
    unfold getShard, Lock, Unlock, emit. cbn [fst snd].
    destruct Hst as [-> | ->]; cbn; repeat split. }
  split; [apply Hbatch, Hcb|].
  unfold SendTransaction, bind, get. rewrite Hcb. cbn [negb].
  pose proof (Hbatch reqs (WrapFuture cb (u64 (Z.of_nat (length reqs))) off) 0
                DoTransaction Hcb) as H.
  destruct (SendBatchFlags reqs _ 0 DoTransaction c) as [[u c1] t1].
  cbn [app]. exact H.
Qed.

End WithStrconv.

Lemma writer_takes_no_futures_without_packet_witness :
  let c := @exec exampleStrconv
             (OpSendAsk Examples.getA (Some (Callback 7 false)) 3 true)
             (@exec exampleStrconv OpConnecting (newConnection (str "h:6379") NoCause 2)) in
  coupled c /\
  fst (fst (writerTake c)) <> Panics /\
  forall packet futs,
    fst (fst (writerTake c)) = Batch packet futs -> packet <> [].
Proof.
  apply (@writer_takes_no_futures_without_packet exampleStrconv 2 (str "h:6379")
           NoCause).
  apply reachable_step; [|reflexivity].
  apply reachable_step; [|reflexivity].
  apply reachable_init.
Defined.

Lemma ConnBuf_refused_batch_is_never_resolved_witness :
  let c := newConnection (str "h:6379") NoCause 2 in
  (let '(_, c', t) :=
     @SendBatchFlags exampleStrconv [Examples.getA; Examples.getA] (Callback 7 false)
       10 0 c in
   resolves t = [] /\ shard c' = shard c /\ dirtyShard c' = dirtyShard c) /\
  (let '(_, c', t) :=
     @SendTransaction exampleStrconv [Examples.getA] (Callback 7 false) 5 c in
   resolves t = [] /\ shard c' = shard c /\ dirtyShard c' = dirtyShard c).
Proof.
  apply (@ConnBuf_refused_batch_is_never_resolved exampleStrconv
           (newConnection (str "h:6379") NoCause 2)
           [Examples.getA; Examples.getA] [Examples.getA] (Callback 7 false) 10 5 0).
  - right. reflexivity.
  - reflexivity.
Defined.

End ConnBufLifeFacts.
